(** * Mutation walkers of aptamers_mlpd/search/walkers.py

    A shallow embedding of [mutate_seq], [SamplingWalker] and
    [GeneticWalker], with the properties of their specification.

    Conventions of the embedding.
    - A Python [str] is a [string]; [list(seq)] and [''.join] are the
      conversions to and from [list ascii].
    - Counts, distances and generation numbers are [nat].
    - A score is a finite value of binary64, kept as the rational [Q] it
      is.  The arithmetic of walkers.py on scores, the selection weights
      of [make_children], is that of binary64: every operation is rounded
      to nearest, ties to even, and overflows to an infinity ([round64]).
      numpy's weighted choice, which is outside the repository, is
      modelled on the weights it is given, in exact arithmetic.
    - A raised exception is a value of [exn]; a computation is a function
      from the state of the two random sources to an exception or a result
      with the new state.
    - [numpy.random.RandomState] and the module [random] are outside the
      repository.  A generator is modelled as the sequence of raw variates
      it will produce, with a cursor; every operation consumes variates and
      reduces them to its range. *)

From Stdlib Require Import QArith Qabs Qround Qpower Lqa Ascii String.
From stdpp Require Import gmap strings list fin_maps sorting.
From Stdlib Require PrimFloat FloatOps Uint63.

Local Open Scope nat_scope.

(** ** Exceptions and the computation monad *)

(** The argument names the operation that raised; it is not Python's text. *)
Inductive exn : Type :=
  | ValueError (raised_by : string)
  | IndexError (raised_by : string)
  | ZeroDivisionError (raised_by : string)
  | TypeError (raised_by : string).

Inductive result (A : Type) : Type :=
  | Ok (a : A)
  | Raise (e : exn).
Arguments Ok {A} a.
Arguments Raise {A} e.

(** Sequence of raw variates of a generator and the number already used. *)
Record RandomState : Type := mkRandomState {
  variates : nat → N;
  consumed : nat
}.

(** The two random sources a walker run touches: the walker's own
    [self.random_state] and the generator of the module [random]. *)
Record World : Type := mkWorld {
  random_state : RandomState;
  py_random : RandomState
}.

Definition M (A : Type) : Type := World → result (A * World).

Definition ret {A} (a : A) : M A := λ w, Ok (a, w).

Definition bind {A B} (m : M A) (k : A → M B) : M B :=
  λ w, match m w with
       | Ok (a, w') => k a w'
       | Raise e => Raise e
       end.

Declare Scope walker_scope.
Delimit Scope walker_scope with walker.
Notation "'let*' x ':=' c 'in' k" := (bind c (λ x, k))
  (at level 10, x name, c at level 100, k at level 200, only parsing)
  : walker_scope.
Local Open Scope walker_scope.

(** Runs a function of [self.random_state] inside the monad. *)
Definition with_random_state {A}
    (f : RandomState → result (A * RandomState)) : M A :=
  λ w, match f (random_state w) with
       | Ok (a, rs) => Ok (a, mkWorld rs (py_random w))
       | Raise e => Raise e
       end.

(** Runs a function of the module-level generator inside the monad. *)
Definition with_py_random {A}
    (f : RandomState → result (A * RandomState)) : M A :=
  λ w, match f (py_random w) with
       | Ok (a, rs) => Ok (a, mkWorld (random_state w) rs)
       | Raise e => Raise e
       end.

(** ** The arithmetic of binary64 *)

(** A value of a Python [float]: a finite number, an infinity or a NaN.
    The sign of a zero is not kept: walkers.py does not read it. *)
Inductive float64 : Type :=
  | Finite (q : Q)
  | Infinity (negative : bool)
  | NaN.

(** [floor(log2(q))] for [q > 0]. *)
Definition Qlog2 (q : Q) : Z :=
  let e := (Z.log2 (Qnum q) - Z.log2 (Z.pos (Qden q)))%Z in
  if Qle_bool (2 ^ e) q then e else (e - 1)%Z.

(** The exponent of the unit in the last place of the floats of the
    magnitude of [q]: 53 significant bits, down to [2^-1074]. *)
Definition ulp_exponent (q : Q) : Z :=
  Z.max (Qlog2 (Qabs q) - 52) (-1074).

(** The nearest integer, the even one of two that are as near. *)
Definition round_half_even (q : Q) : Z :=
  let n := Qfloor q in
  match (q - inject_Z n ?= 1 # 2)%Q with
  | Lt => n
  | Gt => (n + 1)%Z
  | Eq => if Z.even n then n else (n + 1)%Z
  end.

(** The nearest multiple of the unit in the last place. *)
Definition round_to_ulp (q : Q) : Q :=
  let e := ulp_exponent q in
  (inject_Z (round_half_even (q / 2 ^ e)) * 2 ^ e)%Q.

(** The float an exact result [q] is rounded to: to nearest, ties to even;
    a result that rounds to [2^1024] or beyond overflows. *)
Definition round64 (q : Q) : float64 :=
  if Qeq_bool q 0 then Finite 0
  else
    let r := round_to_ulp q in
    if Qle_bool (2 ^ 1024) (Qabs r) then Infinity (negb (Qle_bool 0 q))
    else Finite r.

(** [a + b] on floats. *)
Definition fadd (a b : float64) : float64 :=
  match a, b with
  | Finite x, Finite y => round64 (x + y)
  | Finite _, Infinity s | Infinity s, Finite _ => Infinity s
  | Infinity s, Infinity t => if Bool.eqb s t then Infinity s else NaN
  | _, _ => NaN
  end.

(** [a / b] on floats: Python raises on a divisor that is zero. *)
Definition fdiv (a b : float64) : result float64 :=
  match b with
  | Finite y =>
      if Qeq_bool y 0
      then Raise (ZeroDivisionError "float division by zero")
      else match a with
           | Finite x => Ok (round64 (x / y))
           | Infinity s => Ok (Infinity (xorb s (negb (Qle_bool 0 y))))
           | NaN => Ok NaN
           end
  | Infinity _ =>
      match a with
      | Finite _ => Ok (Finite 0)
      | _ => Ok NaN
      end
  | NaN => Ok NaN
  end.

(** [sum(l)] on floats: from the left, starting from 0, every addition
    rounded. *)
Definition fsum (l : list float64) : float64 := foldl fadd (Finite 0) l.

(** [x < 0] on a float. *)
Definition is_negative (x : float64) : bool :=
  match x with
  | Finite q => negb (Qle_bool 0 q)
  | Infinity s => s
  | NaN => false
  end.

(** The entries of a list of floats as numbers, when all are finite. *)
Definition finite_values (p : list float64) : option (list Q) :=
  mapM (λ x, match x with Finite q => Some q | _ => None end) p.

(** ** The generators *)

(** One variate reduced to [0 .. max], as numpy's [rk_interval]. *)
Definition rk_interval (max : nat) (rs : RandomState) : nat * RandomState :=
  (N.to_nat (variates rs (consumed rs) mod N.of_nat (S max)),
   mkRandomState (variates rs) (S (consumed rs))).

(** One variate as a double in [0, 1) with 53 bits, as [random_sample]. *)
Definition random_sample (rs : RandomState) : Q * RandomState :=
  (Z.of_N (variates rs (consumed rs) mod 2 ^ 53) # 2 ^ 53,
   mkRandomState (variates rs) (S (consumed rs))).

(** [RandomState.rand(n)]: [n] doubles in [0, 1). *)
Fixpoint rand (n : nat) (rs : RandomState) : list Q * RandomState :=
  match n with
  | 0 => ([], rs)
  | S n' =>
      let '(x, rs1) := random_sample rs in
      let '(xs, rs2) := rand n' rs1 in
      (x :: xs, rs2)
  end.

(** [x[i], x[j] = x[j], x[i]] for indices in range. *)
Definition swap {A} (x : list A) (i j : nat) : list A :=
  match x !! i, x !! j with
  | Some xi, Some xj => <[i := xj]> (<[j := xi]> x)
  | _, _ => x
  end.

(** The loop of [RandomState.shuffle]:
    [for i in reversed(range(1, n)): j = rk_interval(i); swap x[i], x[j]]. *)
Fixpoint shuffle_loop {A} (i : nat) (x : list A) (rs : RandomState)
    : list A * RandomState :=
  match i with
  | 0 => (x, rs)
  | S i' =>
      let '(j, rs') := rk_interval i rs in
      shuffle_loop i' (swap x i j) rs'
  end.

Definition shuffle {A} (x : list A) (rs : RandomState)
    : list A * RandomState :=
  shuffle_loop (length x - 1) x rs.

(** [RandomState.choice(a)] with the defaults: one element, uniformly. *)
Definition choice {A} (a : list A) (rs : RandomState)
    : result (A * RandomState) :=
  match a with
  | [] => Raise (ValueError "choice: a must be non-empty")
  | _ :: _ =>
      let '(idx, rs') := rk_interval (length a - 1) rs in
      match a !! idx with
      | Some v => Ok (v, rs')
      | None => Raise (IndexError "choice: index out of range")
      end
  end.

(** [random.randint(a, b)] of the module [random]: an integer in [a .. b]. *)
Definition randint (a b : nat) (rs : RandomState)
    : result (nat * RandomState) :=
  if decide (b < a) then Raise (ValueError "randint: empty range")
  else let '(d, rs') := rk_interval (b - a) rs in Ok (a + d, rs').

(** Sum of a list of rationals, in exact arithmetic. *)
Definition Qsum (l : list Q) : Q := foldr Qplus 0%Q l.

(** Python's [min] on a list known to be non-empty. *)
Fixpoint Qmin_list (x : Q) (l : list Q) : Q :=
  match l with
  | [] => x
  | y :: t => Qmin_list (if Qle_bool x y then x else y) t
  end.

(** Inverse of the cumulative weights: removes and returns the first item
    whose cumulative weight exceeds [x]
    ([cdf.searchsorted(x, side='right')]). *)
Fixpoint searchsorted {A} (x : Q) (items : list (A * Q))
    : option (A * list (A * Q)) :=
  match items with
  | [] => None
  | (a, w) :: t =>
      if Qle_bool w x
      then match searchsorted (x - w)%Q t with
           | Some (b, rest) => Some (b, (a, w) :: rest)
           | None => None
           end
      else Some (a, t)
  end.

(** Weighted draws without replacement, one variate for each draw: an item
    is drawn with probability proportional to its weight among the items
    not drawn yet.  (numpy draws the variates in batches and zeroes the
    weight of a drawn item; which items can be drawn does not change.) *)
Fixpoint draw_without_replacement {A} (size : nat) (items : list (A * Q))
    (rs : RandomState) : result (list A * RandomState) :=
  match size with
  | 0 => Ok ([], rs)
  | S size' =>
      let '(u, rs1) := random_sample rs in
      match searchsorted (u * Qsum (items.*2))%Q items with
      | None => Raise (IndexError "choice: no weight left")
      | Some (a, rest) =>
          match draw_without_replacement size' rest rs1 with
          | Ok (l, rs2) => Ok (a :: l, rs2)
          | Raise e => Raise e
          end
      end
  end.

(** Tolerance of numpy on the sum of [p]: the square root of the machine
    epsilon of binary64. *)
Definition atol : Q := 1 # 2 ^ 26.

(** [RandomState.choice(a, size, replace=False, p=p)], with numpy's checks
    in numpy's order. *)
Definition choice_without_replacement {A} (a : list A) (size : nat)
    (p : list Q) (rs : RandomState) : result (list A * RandomState) :=
  if decide (length a = 0)
  then Raise (ValueError "choice: a must be non-empty")
  else if decide (length p ≠ length a)
  then Raise (ValueError "choice: a and p must have same size")
  else if existsb (λ x, negb (Qle_bool 0 x)) p
  then Raise (ValueError "choice: probabilities are not non-negative")
  else if negb (Qle_bool (Qabs (Qsum p - 1)) atol)
  then Raise (ValueError "choice: probabilities do not sum to 1")
  else if decide (length a < size)
  then Raise (ValueError "choice: sample larger than population")
  else if decide (length (filter (λ x, negb (Qle_bool x 0) = true) p) < size)
  then Raise (ValueError "choice: fewer non-zero entries in p than size")
  else draw_without_replacement size (zip a p) rs.

(** [RandomState.choice(a, size, replace=False, p=p)] on a list [p] of
    floats.  An entry that is not finite leaves [p] without a sum equal
    to 1: the validation of numpy raises (from numpy 1.17 on, with a
    message of its own when the sum is a NaN). *)
Definition choice_weighted {A} (a : list A) (size : nat) (p : list float64)
    (rs : RandomState) : result (list A * RandomState) :=
  match finite_values p with
  | Some q => choice_without_replacement a size q rs
  | None =>
      if decide (length a = 0)
      then Raise (ValueError "choice: a must be non-empty")
      else if decide (length p ≠ length a)
      then Raise (ValueError "choice: a and p must have same size")
      else if existsb is_negative p
      then Raise (ValueError "choice: probabilities are not non-negative")
      else Raise (ValueError "choice: probabilities do not sum to 1")
  end.

(** ** Data of walkers.py *)

(** [class Mutant].  [score] is [None] until a score is assigned. *)
Record Mutant : Type := mkMutant {
  sequence : string;
  parent : string;
  seed : string;
  score : option Q
}.

(** [Mutant.__eq__]: equality is that of the sequences. *)
Definition Mutant_eqb (a b : Mutant) : bool :=
  bool_decide (sequence a = sequence b).

(** A Python [set] of mutants, kept in insertion order; [add] does nothing
    when an equal mutant is a member. *)
Definition set_add (s : list Mutant) (m : Mutant) : list Mutant :=
  if existsb (Mutant_eqb m) s then s else s ++ [m].

(** The scoring model, [inferer.get_affinities_for_sequences]. *)
Definition Inferer : Type := list string → string → list Q.

(** What walkers.py takes from outside: the constant [dna.DNA_BASES], the
    order in which CPython iterates over a set (a function of the members
    in insertion order), and the variates of [np.random.RandomState(seed)]
    for each [random_seed]. *)
Class Environment : Type := {
  DNA_BASES : list ascii;
  set_iteration : list Mutant → list Mutant;
  set_iteration_perm : ∀ s, set_iteration s ≡ₚ s;
  seeded_variates : option N → nat → N
}.

Inductive Source : Type := SOURCE_INVENTED.
Inductive Control : Type := NOT_CONTROL.
Inductive Method : Type :=
  | METHOD_SIMPLE_SAMPLING
  | METHOD_GENETIC_ALGORITHM.

(** Modelled from the spec: [search.create_choice_pb] is not among the
    sources; the record keeps the arguments of the call, as the interface
    [Emitter.make_record] of the specification lists them. *)
Record Choice : Type := create_choice_pb {
  aptamer_sequence : string;
  source : Source;
  control : Control;
  mutation_step : nat;
  previous_sequence : string;
  seed_sequence : string;
  model_score : option Q;
  model_name : string;
  mutation_type : Method
}.

(** ** Module-level functions *)

Definition lift {A} (r : result A) : M A :=
  λ w, match r with Ok a => Ok (a, w) | Raise e => Raise e end.

(** Insertion of [m] with key [k] in a list sorted by key, descending:
    before the first element whose key is not greater. *)
Fixpoint insert_desc (k : Q) (m : Mutant) (l : list (Q * Mutant))
    : list (Q * Mutant) :=
  match l with
  | [] => [(k, m)]
  | (k', m') :: t =>
      if Qle_bool k' k then (k, m) :: l else (k', m') :: insert_desc k m t
  end.

(** [sorted(iterable, key=lambda x: x.score, reverse=True)]: stable, and a
    [TypeError] when a [None] takes part in a comparison. *)
Definition sort_by_score (iterable : list Mutant) : result (list Mutant) :=
  match iterable with
  | [] | [_] => Ok iterable
  | _ =>
      match mapM (λ m, (λ k, (k, m)) <$> score m) iterable with
      | None => Raise (TypeError "sorted: None compared")
      | Some keyed =>
          Ok ((foldr (λ km, insert_desc km.1 km.2) [] keyed).*2)
      end
  end.

Section with_environment.
Context `{Environment}.

(** The body of the loop [for i in mutation_positions] of [mutate_seq]. *)
Fixpoint mutate_positions (mutation_positions : list nat)
    (new_base_list : list ascii) (rs : RandomState)
    : result (list ascii * RandomState) :=
  match mutation_positions with
  | [] => Ok (new_base_list, rs)
  | i :: rest =>
      match new_base_list !! i with
      | None => Raise (IndexError "mutate_seq: new_base_list[i]")
      | Some c =>
          match choice (filter (λ base, base ≠ c) DNA_BASES) rs with
          | Raise e => Raise e
          | Ok (b, rs') => mutate_positions rest (<[i := b]> new_base_list) rs'
          end
      end
  end.

Definition mutate_seq (seq : string) (num_mutations : nat)
    (rs : RandomState) : result (string * RandomState) :=
  let position_list := List.seq 0 (String.length seq) in
  let '(position_list, rs1) := shuffle position_list rs in
  let mutation_positions := take num_mutations position_list in
  let new_base_list := list_ascii_of_string seq in
  match mutate_positions mutation_positions new_base_list rs1 with
  | Raise e => Raise e
  | Ok (new_base_list, rs2) => Ok (string_of_list_ascii new_base_list, rs2)
  end.

End with_environment.

(** ** Python idioms shared by the two walkers *)

Definition rbind {A B} (r : result A) (k : A → result B) : result B :=
  match r with Ok a => k a | Raise e => Raise e end.

Fixpoint rmapM {A B} (f : A → result B) (l : list A) : result (list B) :=
  match l with
  | [] => Ok []
  | a :: t => rbind (f a) (λ b, rbind (rmapM f t) (λ bs, Ok (b :: bs)))
  end.

(** A [for] loop over [l] that updates the loop state [s]. *)
Fixpoint foldM {A S} (body : A → S → M S) (l : list A) (s : S) : M S :=
  match l with
  | [] => ret s
  | a :: t => let* s' := body a s in foldM body t s'
  end.

(** A list comprehension whose element expression has effects. *)
Fixpoint mapM_M {A B} (f : A → M B) (l : list A) : M (list B) :=
  match l with
  | [] => ret []
  | a :: t => let* b := f a in let* bs := mapM_M f t in ret (b :: bs)
  end.

(** [l[i]] *)
Definition py_index {A} (what : string) (l : list A) (i : nat) : result A :=
  match l !! i with
  | Some a => Ok a
  | None => Raise (IndexError what)
  end.

(** [l.index(x)] *)
Definition list_index (x : string) (l : list string) : result nat :=
  match list_find (λ y, y = x) l with
  | Some (i, _) => Ok i
  | None => Raise (ValueError "list.index: not in list")
  end.

(** [max(d)] for a dict [d]: the largest key. *)
Definition py_max (d : gmap nat nat) : result nat :=
  match elements (dom d) with
  | [] => Raise (ValueError "max: empty")
  | k :: ks => Ok (max_list (k :: ks))
  end.

(** [d[i] if i in d else 0] *)
Definition count_at (d : gmap nat nat) (i : nat) : nat := default 0 (d !! i).

(** The scores of a batch: the model's, or uniform variates without one. *)
Definition batch_scores (inferer : option Inferer) (target_mol : string)
    (seqs : list string) : M (list Q) :=
  match inferer with
  | Some f => ret (f seqs target_mol)
  | None => with_random_state (λ rs, Ok (rand (length seqs) rs))
  end.

(** ** [class SamplingWalker] *)

Module SamplingWalker.

Record t : Type := mk {
  inferer : option Inferer;
  model_name : string;
  sampling_limit : nat;
  max_trials : nat;
  target_mol : string;
  n_parents : nat;
  min_distance : nat;
  max_distance : nat;
  random_seed : option N
}.

Definition method_type : Method := METHOD_SIMPLE_SAMPLING.

Section methods.
Context `{Environment}.

(** [self.random_state = np.random.RandomState(random_seed)] *)
Definition initial_random_state (self : t) : RandomState :=
  mkRandomState (seeded_variates (random_seed self)) 0.

(** The [while] loop of [one_generation].  [remaining] is
    [max_trials - attempts], so that [attempts < max_trials] is
    [remaining ≠ 0]. *)
Fixpoint sample_loop (self : t) (remaining : nat) (parents : list Mutant)
    (to_avoid : gset string) (mutant_set : list Mutant) : M (list Mutant) :=
  match remaining with
  | 0 => ret mutant_set
  | S remaining' =>
      if decide (length mutant_set < sampling_limit self) then
        let attempts := max_trials self - remaining' in
        let* parent := lift (
          if decide (length parents = 0)
          then Raise (ZeroDivisionError "attempts % len(parents)")
          else py_index "parents[...]" parents (attempts mod length parents)) in
        let* distance := with_py_random
                      (randint (min_distance self) (max_distance self)) in
        let* mutant_seq := with_random_state (mutate_seq (sequence parent) distance) in
        let mutant_set :=
          if decide (mutant_seq ∈ to_avoid) then mutant_set
          else set_add mutant_set
                 (mkMutant mutant_seq (sequence parent) (seed parent)
                    (Some 100000%Q)) in
        sample_loop self remaining' parents to_avoid mutant_set
      else ret mutant_set
  end.

(** [mutant.score = mutant_scores[mutant_seqs.index(mutant.sequence)]] *)
Definition assign_score (mutant_seqs : list string) (mutant_scores : list Q)
    (mutant : Mutant) : result Mutant :=
  rbind (list_index (sequence mutant) mutant_seqs) (λ i,
  rbind (py_index "mutant_scores[...]" mutant_scores i) (λ s,
  Ok (mkMutant (sequence mutant) (parent mutant) (seed mutant) (Some s)))).

Definition one_generation (self : t) (n_sequences : nat)
    (parents : list Mutant) (to_avoid : gset string) : M (list Mutant) :=
  let* mutant_set := sample_loop self (max_trials self) parents to_avoid [] in
  let mutant_set := set_iteration mutant_set in
  let mutant_seqs := sequence <$> mutant_set in
  let* mutant_scores := batch_scores (inferer self) (target_mol self) mutant_seqs in
  let* mutant_set := lift (rmapM (assign_score mutant_seqs mutant_scores) mutant_set) in
  let* mutants := lift (sort_by_score mutant_set) in
  ret (take n_sequences mutants).

(** The state of the loop over the generations of one seed. *)
Record walk : Type := mkWalk {
  parents : list Mutant;
  selected_seq_set : gset string;
  mutant_protos : list Choice
}.

(** The record appended for a picked mutant at generation [i]. *)
Definition choice_of (self : t) (i : nat) (mutant : Mutant) : Choice :=
  create_choice_pb (sequence mutant) SOURCE_INVENTED NOT_CONTROL (i + 1)
    (parent mutant) (seed mutant) (score mutant) (model_name self)
    method_type.

(** The body of [for i in range(max(generation_counts) + 1)]. *)
Definition generation (self : t) (generation_counts : gmap nat nat)
    (i : nat) (st : walk) : M walk :=
  let n_sequences := count_at generation_counts i in
  let n_to_keep := n_sequences `max` n_parents self in
  let* mutants := one_generation self n_to_keep (parents st) (selected_seq_set st) in
  let picked := take n_sequences mutants in
  ret (mkWalk (take (n_parents self) mutants)
         (foldl (λ s mutant, {[sequence mutant]} ∪ s)
            (selected_seq_set st) picked)
         (mutant_protos st ++ (choice_of self i <$> picked))).

Definition generate_one_seed_mutants (self : t) (seed : string)
    (generation_counts : gmap nat nat) : M (list Choice) :=
  let st := mkWalk [mkMutant seed seed seed None] {[seed]} [] in
  let* last_generation := lift (py_max generation_counts) in
  let* st := foldM (generation self generation_counts)
          (List.seq 0 (last_generation + 1)) st in
  ret (mutant_protos st).

Definition generate_mutants (self : t) (seeds : list string)
    (generation_counts : gmap nat nat) : M (list Choice) :=
  foldM (λ seed mutant_protos,
           let* protos := generate_one_seed_mutants self seed generation_counts in
           ret (mutant_protos ++ protos))
    seeds [].

(** A run of a walker built with [random_seed], from the state
    [py_random] of the generator of the module [random]. *)
Definition run (self : t) (seeds : list string)
    (generation_counts : gmap nat nat) (py_random : RandomState)
    : result (list Choice) :=
  match generate_mutants self seeds generation_counts
          (mkWorld (initial_random_state self) py_random) with
  | Ok (protos, _) => Ok protos
  | Raise e => Raise e
  end.

End methods.
End SamplingWalker.

(** ** [class GeneticWalker] *)

Module GeneticWalker.

Record t : Type := mk {
  inferer : option Inferer;
  model_name : string;
  n_possible_parents : nat;
  n_parents : nat;
  target_mol : string;
  min_distance : nat;
  max_distance : nat;
  random_seed : option N
}.

Definition method_type : Method := METHOD_GENETIC_ALGORITHM.

(** [epsilon = 1e-5]: the float nearest to the literal. *)
Definition epsilon : float64 := round64 (1 # 100000).

(** [[x - min(raw_scores) + epsilon for x in raw_scores]], in binary64. *)
Definition shifted_scores (raw_scores : list Q) : list float64 :=
  match raw_scores with
  | [] => []
  | x0 :: rest =>
      (λ x, fadd (round64 (x - Qmin_list x0 rest)) epsilon) <$> raw_scores
  end.

(** [[(float(x) / sum(scores)) for x in scores]] for the shifted scores,
    in binary64. *)
Definition score_to_probability (raw_scores : list Q)
    : result (list float64) :=
  let scores := shifted_scores raw_scores in
  rmapM (λ x, fdiv x (fsum scores)) scores.

Section methods.
Context `{Environment}.

(** [self.random_state = np.random.RandomState(random_seed)] *)
Definition initial_random_state (self : t) : RandomState :=
  mkRandomState (seeded_variates (random_seed self)) 0.

(** [[x.score for x in possible_parents]] as numbers: arithmetic on a
    [None] raises. *)
Definition raw_scores_of (possible_parents : list Mutant)
    : result (list Q) :=
  match mapM score possible_parents with
  | Some raw_scores => Ok raw_scores
  | None => Raise (TypeError "make_children: score is None")
  end.

Definition make_children (self : t) (possible_parents : list Mutant)
    : M (list Mutant) :=
  let* raw_scores := lift (raw_scores_of possible_parents) in
  let* p := lift (score_to_probability raw_scores) in
  let* parents := with_random_state
      (choice_weighted possible_parents (n_parents self) p) in
  let* child_seqs := mapM_M (λ p,
      let* distance := with_py_random
          (randint (min_distance self) (max_distance self)) in
      with_random_state (mutate_seq (sequence p) distance)) parents in
  let* child_scores :=
    batch_scores (inferer self) (target_mol self) child_seqs in
  lift (rmapM (λ i,
      rbind (py_index "child_seqs[i]" child_seqs i) (λ child_seq,
      rbind (py_index "parents[i]" parents i) (λ p,
      rbind (py_index "child_scores[i]" child_scores i) (λ child_score,
      Ok (mkMutant child_seq (sequence p) (seed p) (Some child_score))))))
    (List.seq 0 (length parents))).

(** The state of the loop over the generations. *)
Record walk : Type := mkWalk {
  population : list Mutant;
  mutant_protos : list Choice
}.

(** The record appended for a member [p] saved at generation
    [generation_number]. *)
Definition choice_of (self : t) (generation_number : nat) (p : Mutant)
    : Choice :=
  create_choice_pb (sequence p) SOURCE_INVENTED NOT_CONTROL generation_number
    (parent p) (seed p) (score p) (model_name self) method_type.

(** The body of [for generation_number in range(max(generation_counts) + 1)]. *)
Definition generation (self : t) (generation_counts : gmap nat nat)
    (generation_number : nat) (st : walk) : M walk :=
  let* children :=
    make_children self (take (n_possible_parents self) (population st)) in
  let* population := lift (sort_by_score (population st ++ children)) in
  ret (mkWalk population
         (match generation_counts !! generation_number with
          | Some n =>
              mutant_protos st
                ++ (choice_of self generation_number <$> take n population)
          | None => mutant_protos st
          end)).

(** The population before the first generation: the scored seeds, sorted. *)
Definition initial_population (self : t) (seeds : list string)
    : M (list Mutant) :=
  let* seed_scores := batch_scores (inferer self) (target_mol self) seeds in
  let population :=
    (λ '(seed_seq, seed_score),
       mkMutant seed_seq seed_seq seed_seq (Some seed_score))
      <$> zip seeds seed_scores in
  lift (sort_by_score population).

(** The walk up to and including the generations listed. *)
Definition generations (self : t) (generation_counts : gmap nat nat)
    (numbers : list nat) (st : walk) : M walk :=
  foldM (generation self generation_counts) numbers st.

Definition generate_mutants (self : t) (seeds : list string)
    (generation_counts : gmap nat nat) : M (list Choice) :=
  let* population := initial_population self seeds in
  let* last_generation := lift (py_max generation_counts) in
  let* st := generations self generation_counts
               (List.seq 0 (last_generation + 1)) (mkWalk population []) in
  ret (mutant_protos st).

(** A run of a walker built with [random_seed], from the state
    [py_random] of the generator of the module [random]. *)
Definition run (self : t) (seeds : list string)
    (generation_counts : gmap nat nat) (py_random : RandomState)
    : result (list Choice) :=
  match generate_mutants self seeds generation_counts
          (mkWorld (initial_random_state self) py_random) with
  | Ok (protos, _) => Ok protos
  | Raise e => Raise e
  end.

End methods.
End GeneticWalker.

(** ** Notions used in the statements *)

(** Positions at which two lists differ. *)
Definition differing_positions (a b : list ascii) : list nat :=
  filter (λ i, a !! i ≠ b !! i) (List.seq 0 (length a)).

Definition hamming_distance (a b : string) : nat :=
  length (differing_positions (list_ascii_of_string a) (list_ascii_of_string b)).

Definition two_bases `{Environment} : Prop :=
  ∃ a b, a ∈ DNA_BASES ∧ b ∈ DNA_BASES ∧ a ≠ b.

Definition scored (m : Mutant) : Prop := is_Some (score m).

(** The origins of the [ValueError]s of the weighted choice. *)
Definition choice_errors : list string :=
  ["choice: a must be non-empty";
   "choice: a and p must have same size";
   "choice: probabilities are not non-negative";
   "choice: probabilities do not sum to 1";
   "choice: sample larger than population";
   "choice: fewer non-zero entries in p than size"].

(** Number of records emitted with a given [mutation_step]. *)
Definition emitted_at (step : nat) (protos : list Choice) : nat :=
  length (filter (λ r, mutation_step r = step) protos).

(** The value of a computation without the final state. *)
Definition value {A S} (r : result (A * S)) : result A :=
  match r with Ok (a, _) => Ok a | Raise e => Raise e end.




(** The sequences of the records a run returns. *)
Definition emitted_sequences (r : result (list Choice))
    : result (list string) :=
  match r with
  | Ok protos => Ok (aptamer_sequence <$> protos)
  | Raise e => Raise e
  end.

(** A scoring model that returns at least one score for each sequence. *)
Definition enough_scores (inferer : option Inferer) : Prop :=
  ∀ f, inferer = Some f →
    ∀ seqs target_mol, length seqs ≤ length (f seqs target_mol).

(** A sequence of one symbol of the alphabet. *)
Definition one_letter `{Environment} (s : string) : Prop :=
  ∃ c, c ∈ DNA_BASES ∧ s = String c EmptyString.

(** The unit roundoff of binary64, [2^-53]: the relative error of a
    rounding in the normal range is at most this. *)
Definition unit_roundoff : Q := 1 # 9007199254740992.

(** Half the least positive float, [2^-1075]: the error of a rounding
    below the normal range is at most this. *)
Definition eta : Q := 2 ^ (-1075).

(** A number below every finite shifted score, [2^-18 < 1e-5]. *)
Definition least_shifted : Q := 1 # 2 ^ 18.

(** The float of the literal [1e-5], as a number. *)
Definition epsilon_value : Q := 5902958103587057 # 590295810358705651712.

(** A bound on the magnitude of the scores under which the shifted scores
    of fewer than [2^25] candidates have a finite sum. *)
Definition score_bound : Q := 2 ^ 990.

(** A scoring model whose scores are within [score_bound]. *)
Definition bounded_scores (inferer : option Inferer) : Prop :=
  ∀ f, inferer = Some f →
    ∀ seqs target_mol,
      Forall (λ s, (Qabs s <= score_bound)%Q) (f seqs target_mol).

(** A mutant with a score within [score_bound]. *)
Definition score_within (m : Mutant) : Prop :=
  ∃ s, score m = Some s ∧ (Qabs s <= score_bound)%Q.

(** [a] is not scored below [b]: the order [sort_by_score] puts first. *)
Definition score_ge (a b : Mutant) : Prop :=
  match score a, score b with
  | Some x, Some y => (y <= x)%Q
  | _, _ => False
  end.

(** [m] is scored, with a score equal to [q]. *)
Definition has_score (q : Q) (m : Mutant) : Prop :=
  match score m with
  | Some x => Qeq_bool x q = true
  | None => False
  end.

Global Instance has_score_dec q m : Decision (has_score q m).
Proof. unfold has_score. destruct (score m); apply _. Defined.

(** The order of [score_ge] on the pairs of a key and a member that
    [sort_by_score] sorts. *)
Definition key_ge (x y : Q * Mutant) : Prop := (y.1 <= x.1)%Q.

(** The key of [km] is equal to [q]. *)
Definition key_is (q : Q) (km : Q * Mutant) : Prop := Qeq_bool km.1 q = true.

Global Instance key_is_dec q km : Decision (key_is q km).
Proof. unfold key_is. apply _. Defined.

(** [m] was made from the parent [p] by [mutate_seq] at a distance drawn
    between [lo] and [hi]: it records the parent's sequence and seed, has
    the parent's length, and differs from the parent at as many positions
    as the distance drawn, or at all positions if there are fewer. *)
Definition child_of (lo hi : nat) (p m : Mutant) : Prop :=
  parent m = sequence p
  ∧ seed m = seed p
  ∧ String.length (sequence m) = String.length (sequence p)
  ∧ ∃ d, lo ≤ d ≤ hi
         ∧ hamming_distance (sequence p) (sequence m)
           = d `min` String.length (sequence p).

(** The record [a] is not scored below the record [b]. *)
Definition record_score_ge (a b : Choice) : Prop :=
  match model_score a, model_score b with
  | Some x, Some y => (y <= x)%Q
  | _, _ => False
  end.

(** The sequence of a record was made from its previous sequence by
    [mutate_seq] at a distance drawn between [lo] and [hi]. *)
Definition mutated_record (lo hi : nat) (r : Choice) : Prop :=
  String.length (aptamer_sequence r) = String.length (previous_sequence r)
  ∧ ∃ d, lo ≤ d ≤ hi
         ∧ hamming_distance (previous_sequence r) (aptamer_sequence r)
           = d `min` String.length (previous_sequence r).

(** What holds of the walk of the seed [seed0] by [SamplingWalker] before
    its generation [i]. *)
Definition walk_invariant (self : SamplingWalker.t) (seed0 : string)
    (i : nat) (st : SamplingWalker.walk) : Prop :=
  Forall (λ p, seed p = seed0
               ∧ String.length (sequence p) = String.length seed0
               ∧ (i = 0 → sequence p = seed0))
    (SamplingWalker.parents st)
  ∧ (∀ r, r ∈ SamplingWalker.mutant_protos st →
        aptamer_sequence r ∈ SamplingWalker.selected_seq_set st)
  ∧ NoDup (aptamer_sequence <$> SamplingWalker.mutant_protos st)
  ∧ Forall (λ r, seed_sequence r = seed0
                 ∧ String.length (aptamer_sequence r) = String.length seed0
                 ∧ mutated_record (SamplingWalker.min_distance self)
                     (SamplingWalker.max_distance self) r
                 ∧ is_Some (model_score r)
                 ∧ model_name r = SamplingWalker.model_name self
                 ∧ mutation_type r = METHOD_SIMPLE_SAMPLING
                 ∧ 1 ≤ mutation_step r ≤ i
                 ∧ (mutation_step r = 1 → previous_sequence r = seed0))
      (SamplingWalker.mutant_protos st)
  ∧ ∀ step,
      StronglySorted record_score_ge
        (filter (λ r, mutation_step r = step)
           (SamplingWalker.mutant_protos st)).

(** A member of the population of [GeneticWalker] run on [seeds]: it
    descends from one of the seeds, has that seed's length and a score, and
    is either a seed itself or a mutant of its parent at a distance drawn
    between [lo] and [hi]. *)
Definition population_member (seeds : list string) (lo hi : nat)
    (m : Mutant) : Prop :=
  seed m ∈ seeds
  ∧ String.length (sequence m) = String.length (seed m)
  ∧ scored m
  ∧ ((sequence m = seed m ∧ parent m = seed m)
     ∨ (String.length (sequence m) = String.length (parent m)
        ∧ ∃ d, lo ≤ d ≤ hi
               ∧ hamming_distance (parent m) (sequence m)
                 = d `min` String.length (parent m))).

(** The same of a record [GeneticWalker] returns. *)
Definition population_record (seeds : list string) (lo hi : nat)
    (r : Choice) : Prop :=
  seed_sequence r ∈ seeds
  ∧ String.length (aptamer_sequence r) = String.length (seed_sequence r)
  ∧ is_Some (model_score r)
  ∧ ((aptamer_sequence r = seed_sequence r
      ∧ previous_sequence r = seed_sequence r)
     ∨ mutated_record lo hi r).

(** What holds of a run of [GeneticWalker] on [seeds], with the initial
    population [population0], before its generation [i]. *)
Definition genetic_invariant (self : GeneticWalker.t)
    (seeds : list string) (generation_counts : gmap nat nat)
    (population0 : list Mutant) (i : nat) (st : GeneticWalker.walk) : Prop :=
  Forall (population_member seeds (GeneticWalker.min_distance self)
            (GeneticWalker.max_distance self)) (GeneticWalker.population st)
  ∧ StronglySorted score_ge (GeneticWalker.population st)
  ∧ population0 ⊆+ GeneticWalker.population st
  ∧ length (GeneticWalker.population st)
    = length population0 + i * GeneticWalker.n_parents self
  ∧ Forall (λ r, population_record seeds (GeneticWalker.min_distance self)
                   (GeneticWalker.max_distance self) r
                 ∧ model_name r = GeneticWalker.model_name self
                 ∧ mutation_type r = METHOD_GENETIC_ALGORITHM
                 ∧ is_Some (generation_counts !! mutation_step r)
                 ∧ mutation_step r < i)
      (GeneticWalker.mutant_protos st)
  ∧ (∀ g, emitted_at g (GeneticWalker.mutant_protos st)
          = if decide (g < i)
            then count_at generation_counts g
                 `min` (length population0
                        + (g + 1) * GeneticWalker.n_parents self)
            else 0)
  ∧ ∀ g, StronglySorted record_score_ge
           (filter (λ r, mutation_step r = g)
              (GeneticWalker.mutant_protos st)).

(** A computation whose outcome does not depend on the generator of the
    module [random]: from states that agree on [self.random_state] it
    returns the same value, or raises the same exception, and leaves
    states that agree on [self.random_state]. *)
Definition py_independent {A} (m : M A) : Prop :=
  ∀ w1 w2, random_state w1 = random_state w2 →
    match m w1, m w2 with
    | Ok (a1, w1'), Ok (a2, w2') =>
        a1 = a2 ∧ random_state w1' = random_state w2'
    | Raise e1, Raise e2 => e1 = e2
    | _, _ => False
    end.

(** ** The floats of the kernel, for comparison *)

(** A float of the kernel as a value of the model. *)
Definition of_primitive (x : PrimFloat.float) : float64 :=
  match FloatOps.Prim2SF x with
  | SpecFloat.S754_zero _ => Finite 0
  | SpecFloat.S754_infinity s => Infinity s
  | SpecFloat.S754_nan => NaN
  | SpecFloat.S754_finite s m e =>
      Finite (inject_Z (if s then Z.neg m else Z.pos m) * 2 ^ e)
  end.

(** Two floats are the same value. *)
Definition float64_eqb (a b : float64) : bool :=
  match a, b with
  | Finite x, Finite y => Qeq_bool x y
  | Infinity s, Infinity t => Bool.eqb s t
  | NaN, NaN => true
  | _, _ => false
  end.

(** The number [m * 2^e], for an integer [m] of less than 53 bits, as a
    score and as a float of the kernel. *)
Definition scaled (me : Z * Z) : Q := (inject_Z me.1 * 2 ^ me.2)%Q.

Definition primitive_scaled (me : Z * Z) : PrimFloat.float :=
  let x := FloatOps.Z.ldexp
             (PrimFloat.of_uint63 (Uint63.of_Z (Z.abs me.1))) me.2 in
  if (me.1 <? 0)%Z then PrimFloat.opp x else x.

(** The three lines of [make_children] that compute the weights, on the
    floats of the kernel. *)
Definition primitive_weights (raw_scores : list PrimFloat.float)
    : list PrimFloat.float :=
  match raw_scores with
  | [] => []
  | x0 :: rest =>
      let least := foldl (λ m x, if PrimFloat.ltb x m then x else m) x0 rest in
      let epsilon := PrimFloat.div (primitive_scaled (1, 0)%Z)
                       (primitive_scaled (100000, 0)%Z) in
      let scores :=
        (λ x, PrimFloat.add (PrimFloat.sub x least) epsilon) <$> raw_scores in
      let total := foldl PrimFloat.add PrimFloat.zero scores in
      (λ x, PrimFloat.div x total) <$> scores
  end.

(** The weights of the model are those of the kernel. *)
Definition same_weights (pool : list (Z * Z)) : bool :=
  match GeneticWalker.score_to_probability (scaled <$> pool) with
  | Ok p =>
      bool_decide (length p = length pool)
      && forallb (λ ab, float64_eqb ab.1 ab.2)
           (zip p (of_primitive <$> primitive_weights
                                      (primitive_scaled <$> pool)))
  | Raise _ => false
  end.

(** Pools of scores [m * 2^e]: equal scores, scores apart, negative
    scores, the least and the largest floats. *)
Definition example_pools : list (list (Z * Z)) :=
  [ replicate 6 (1, 0); replicate 7 (1, 0); [(1, 0)];
    [(3, 0); (1, 0); (2, 0)]; [(1, -1); (1, -2); (3, -2)];
    [(-3, 0); (5, -1); (0, 0)]; [(7, -3); (-7, -3); (7, -3); (1, -20)];
    [(4503599627370497, -52); (1, 0); (5, -3)];
    [(1, -1074); (1, 0)]; [(0, 0); (1, 1000)];
    [(0, 0); (1, 1023); (1, 1023)]; [(0, 0); (1, 1023)];
    [(9007199254740991, 971); (1, 0)]; [(-1, 1023); (1, 1023)];
    [(-1, 1023); (0, 0); (1, 1023)] ]%Z.

(** Pairs of numbers [m * 2^e]: quotients and sums that are rounded up and
    down, ties, results below the normal range, and overflows. *)
Definition example_pairs : list ((Z * Z) * (Z * Z)) :=
  [ ((1, 0), (100000, 0)); ((1, 0), (3, 0)); ((2, 0), (3, 0));
    ((1, 0), (6, 0)); ((7, 0), (10, 0)); ((-7, 0), (10, 0));
    ((9007199254740991, 0), (9007199254740990, 0));
    ((1, 53), (1, 0)); ((1, 53), (3, 0)); ((3, 53), (1, 0));
    ((1, -1074), (3, 0)); ((3, -1074), (2, 0)); ((5, -1074), (2, 0));
    ((1, -1022), (3, 0)); ((1, 1023), (1, -10)); ((-1, 1023), (1, -10));
    ((9007199254740991, 971), (1, 970)); ((9007199254740991, 971), (1, 969));
    ((1, 1023), (1, 1023)); ((1, -1074), (1, -1074)) ]%Z.

(** [round64] of a quotient and of a sum is the quotient and the sum of
    the kernel. *)
Definition same_rounding (ab : (Z * Z) * (Z * Z)) : bool :=
  float64_eqb (round64 (scaled ab.1 / scaled ab.2))
    (of_primitive (PrimFloat.div (primitive_scaled ab.1)
                     (primitive_scaled ab.2)))
  && float64_eqb (fadd (Finite (scaled ab.1)) (Finite (scaled ab.2)))
       (of_primitive (PrimFloat.add (primitive_scaled ab.1)
                        (primitive_scaled ab.2))).

(** ** A concrete environment, for evaluation *)

(** Modelled from the spec: [dna.DNA_BASES] is not among the sources; the
    specification's examples use the alphabet A, C, G, T. *)
Definition ACGT : list ascii := ["A"; "C"; "G"; "T"]%char.

(** A stand-in for the variates of a seeded generator: the multiples of
    an odd number, offset by the seed. *)
Definition example_variates (random_seed : option N) (i : nat) : N :=
  (default 0 random_seed + 7 * N.of_nat i + 3)%N.

(** The environment of the examples: sets iterate in insertion order. *)
#[local] Instance example_environment : Environment := {|
  DNA_BASES := ACGT;
  set_iteration := id;
  set_iteration_perm := λ s, reflexivity s;
  seeded_variates := example_variates
|}.

(** A deterministic scoring model for the examples: the number of G. *)
Definition count_G : Inferer :=
  λ seqs _,
    (λ s, inject_Z (Z.of_nat (length (filter (λ c, c = "G"%char)
                                        (list_ascii_of_string s)))))
      <$> seqs.



(** A state of the generator of the module [random]. *)
Definition py_random_from (n : N) : RandomState :=
  mkRandomState (example_variates (Some n)) 0.

(** A sampling walker that tries once for one mutant at distance 1 or 2. *)
Definition sampling_1_or_2 : SamplingWalker.t :=
  SamplingWalker.mk (Some count_G) "model" 1 1 "target" 1 1 2 (Some 5%N).

(** A genetic walker with one child a generation, at distance 1 or 2. *)
Definition genetic_1_or_2 : GeneticWalker.t :=
  GeneticWalker.mk (Some count_G) "model" 2 1 "target" 1 2 (Some 5%N).

(** A genetic walker that asks for three parents. *)
Definition genetic_3_parents : GeneticWalker.t :=
  GeneticWalker.mk (Some count_G) "model" 5 3 "target" 1 2 (Some 5%N).





(** A sampling walker at distance 1 with up to 20 trials a generation. *)
Definition sampling_20_trials : SamplingWalker.t :=
  SamplingWalker.mk (Some count_G) "model" 3 20 "target" 1 1 1 (Some 5%N).

(** A sampling walker that tries once for one mutant at distance 1. *)
Definition sampling_single_trial : SamplingWalker.t :=
  SamplingWalker.mk (Some count_G) "model" 1 1 "target" 1 1 1 (Some 5%N).

(** Four mutants, two of them with the same score. *)
Definition example_mutants : list Mutant :=
  [mkMutant "AAAC" "AAAA" "AAAA" (Some 1%Q);
   mkMutant "AAGG" "AAAG" "AAAA" (Some 3%Q);
   mkMutant "AAAT" "AAAA" "AAAA" (Some 1%Q);
   mkMutant "AAAG" "AAAA" "AAAA" (Some 2%Q)].

(** The state of the two generators when a walker with the seed 5 starts. *)
Definition example_world : World :=
  mkWorld (mkRandomState (example_variates (Some 5%N)) 0) (py_random_from 1).

(** A genetic walker with one child a generation, at distance 1. *)
Definition genetic_distance_1 : GeneticWalker.t :=
  GeneticWalker.mk (Some count_G) "model" 2 1 "target" 1 1 (Some 5%N).

(** A model whose scores are between 0 and 4: the number of G among the
    first four symbols. *)
Definition count_G_in_4 : Inferer :=
  λ seqs _,
    (λ s, inject_Z (Z.of_nat (length (filter (λ c, c = "G"%char)
                                        (take 4 (list_ascii_of_string s))))))
      <$> seqs.

(** A genetic walker with that model, one child a generation, at distance
    1 or 2. *)
Definition genetic_count_G_in_4 : GeneticWalker.t :=
  GeneticWalker.mk (Some count_G_in_4) "model" 2 1 "target" 1 2 (Some 5%N).

(** A sampling walker that is allowed no trial. *)
Definition sampling_no_trial : SamplingWalker.t :=
  SamplingWalker.mk (Some count_G) "model" 3 0 "target" 1 1 1 (Some 5%N).

(** A sampling walker whose [max_distance] is below its [min_distance]. *)
Definition sampling_empty_range : SamplingWalker.t :=
  SamplingWalker.mk (Some count_G) "model" 3 5 "target" 1 2 1 (Some 5%N).

(** * Properties *)

(** ** Shuffling and [mutate_seq] *)

Lemma swap_length {A} (x : list A) i j : length (swap x i j) = length x.
Proof.
  unfold swap. destruct (x !! i), (x !! j); by rewrite ?length_insert.
Qed.

Lemma swap_lookup {A} (x : list A) i j k :
  i < length x → j < length x →
  swap x i j !! k =
    x !! (if decide (k = i) then j else if decide (k = j) then i else k).
Proof.
  intros Hi Hj. unfold swap.
  destruct (lookup_lt_is_Some_2 x i Hi) as [xi Hxi].
  destruct (lookup_lt_is_Some_2 x j Hj) as [xj Hxj].
  rewrite Hxi, Hxj.
  destruct (decide (k = i)) as [->|Hki].
  - by rewrite list_lookup_insert_eq by (by rewrite length_insert).
  - rewrite list_lookup_insert_ne by done.
    destruct (decide (k = j)) as [->|Hkj].
    + by rewrite list_lookup_insert_eq.
    + by rewrite list_lookup_insert_ne.
Qed.

Lemma swap_Permutation {A} (x : list A) i j : swap x i j ≡ₚ x.
Proof.
  destruct (decide (i < length x)) as [Hi|Hi]; last first.
  { unfold swap. by rewrite (lookup_ge_None_2 x i) by lia. }
  destruct (decide (j < length x)) as [Hj|Hj]; last first.
  { unfold swap. rewrite (lookup_ge_None_2 x j) by lia. by destruct (x !! i). }
  apply Permutation_inj. split; [apply swap_length|].
  exists (λ k, if decide (k = i) then j else if decide (k = j) then i else k).
  split; [|intros k; by apply swap_lookup].
  intros a b. repeat case_decide; intros; subst; congruence.
Qed.

Lemma shuffle_loop_Permutation {A} i (x : list A) rs :
  (shuffle_loop i x rs).1 ≡ₚ x.
Proof.
  revert x rs. induction i as [|i IH]; intros x rs; simpl; [done|].
  rewrite IH. apply swap_Permutation.
Qed.

Lemma shuffle_Permutation {A} (x : list A) rs : (shuffle x rs).1 ≡ₚ x.
Proof. apply shuffle_loop_Permutation. Qed.

Section mutate_seq_facts.
Context `{Environment}.

Lemma choice_other_base c rs :
  two_bases →
  ∃ b rs', choice (filter (λ base, base ≠ c) DNA_BASES) rs = Ok (b, rs')
           ∧ b ∈ DNA_BASES ∧ b ≠ c.
Proof.
  intros (a & a' & Ha & Ha' & Hne).
  assert (∃ b, b ∈ filter (λ base, base ≠ c) DNA_BASES) as [b0 Hb0].
  { destruct (decide (a = c)) as [->|?].
    - exists a'. apply list_elem_of_filter. split; [congruence|done].
    - exists a. by apply list_elem_of_filter. }
  unfold choice.
  destruct (filter (λ base, base ≠ c) DNA_BASES) as [|b1 l] eqn:Hf.
  { by apply not_elem_of_nil in Hb0. }
  unfold rk_interval. simpl length.
  set (idx := N.to_nat _).
  assert (idx < S (length l)) as Hidx.
  { subst idx. replace (S (length l) - 1) with (length l) by lia.
    pose proof (N.mod_upper_bound
      (variates rs (consumed rs)) (N.of_nat (S (length l)))). lia. }
  destruct (lookup_lt_is_Some_2 (b1 :: l) idx Hidx) as [b Hb].
  rewrite Hb. eexists _, _. split; [done|].
  apply list_elem_of_lookup_2 in Hb. rewrite <- Hf in Hb.
  by apply list_elem_of_filter in Hb as [? ?].
Qed.

Lemma mutate_positions_spec positions l rs :
  two_bases → NoDup positions → Forall (λ i, i < length l) positions →
  ∃ l' rs', mutate_positions positions l rs = Ok (l', rs')
    ∧ length l' = length l
    ∧ (∀ i, i ∈ positions →
         ∃ c b, l !! i = Some c ∧ l' !! i = Some b ∧ b ∈ DNA_BASES ∧ b ≠ c)
    ∧ (∀ i, i ∉ positions → l' !! i = l !! i).
Proof.
  intros Hbases. revert l rs.
  induction positions as [|i rest IH]; intros l rs Hnd Hlt; simpl.
  { eexists _, _. split; [done|]. split; [done|]. split; [|done].
    intros i Hi. by apply not_elem_of_nil in Hi. }
  apply NoDup_cons in Hnd as [Hi Hnd]. apply Forall_cons in Hlt as [Hil Hlt].
  destruct (lookup_lt_is_Some_2 l i Hil) as [c Hc]. rewrite Hc.
  destruct (choice_other_base c rs Hbases) as (b & rs1 & -> & Hb & Hbc).
  destruct (IH (<[i:=b]> l) rs1 Hnd) as (l' & rs' & -> & Hlen & Hin & Hout).
  { by rewrite length_insert. }
  eexists _, _. split; [done|]. rewrite length_insert in Hlen.
  split; [done|]. split.
  - intros j [->|Hj]%elem_of_cons.
    + exists c, b. rewrite (Hout i Hi).
      by rewrite list_lookup_insert_eq.
    + destruct (Hin j Hj) as (c' & b' & Hc' & ? & ? & ?).
      exists c', b'.
      rewrite list_lookup_insert_ne in Hc' by (by intros ->). done.
  - intros j Hj. apply not_elem_of_cons in Hj as [? ?].
    rewrite Hout by done. by rewrite list_lookup_insert_ne.
Qed.

Lemma length_list_ascii_of_string s :
  length (list_ascii_of_string s) = String.length s.
Proof. induction s; simpl; congruence. Qed.

(** The positions [mutate_seq] picks: distinct, within the sequence, and
    [min num_mutations (len seq)] of them. *)
Lemma mutation_positions_spec (n k : nat) rs :
  let positions := take k (shuffle (List.seq 0 n) rs).1 in
  NoDup positions ∧ Forall (λ i, i < n) positions
  ∧ length positions = k `min` n.
Proof.
  intros positions. subst positions.
  pose proof (shuffle_Permutation (List.seq 0 n) rs) as Hp.
  split; [|split].
  - eapply sublist_NoDup; [|apply sublist_take].
    rewrite Hp. apply NoDup_seq.
  - apply Forall_forall. intros i Hi.
    apply (subseteq_take k) in Hi. rewrite Hp in Hi.
    apply elem_of_seq in Hi. lia.
  - rewrite length_take, Hp, length_seq. done.
Qed.

Lemma differing_positions_Permutation (l l' : list ascii) positions :
  NoDup positions → Forall (λ i, i < length l) positions →
  (∀ i, i ∈ positions → l' !! i ≠ l !! i) →
  (∀ i, i ∉ positions → l' !! i = l !! i) →
  differing_positions l l' ≡ₚ positions.
Proof.
  intros Hnd Hlt Hin Hout. apply NoDup_Permutation; [|done|].
  - apply NoDup_filter, NoDup_seq.
  - intros i. unfold differing_positions.
    rewrite list_elem_of_filter, elem_of_seq. split.
    + intros [Hne _]. destruct (decide (i ∈ positions)); [done|].
      by rewrite Hout in Hne.
    + intros Hi. split; [by apply not_symmetry, Hin|].
      rewrite Forall_forall in Hlt. specialize (Hlt i Hi). lia.
Qed.

(** What [mutate_seq] returns for any number of mutations. *)
Lemma mutate_seq_spec seq num_mutations rs :
  two_bases →
  ∃ seq' rs', mutate_seq seq num_mutations rs = Ok (seq', rs')
    ∧ String.length seq' = String.length seq
    ∧ hamming_distance seq seq' = num_mutations `min` String.length seq
    ∧ ∀ i c c', list_ascii_of_string seq !! i = Some c →
        list_ascii_of_string seq' !! i = Some c' → c' ≠ c → c' ∈ DNA_BASES.
Proof.
  intros Hbases. unfold mutate_seq.
  destruct (shuffle (List.seq 0 (String.length seq)) rs) as [pl rs1] eqn:Hsh.
  destruct (mutation_positions_spec (String.length seq) num_mutations rs)
    as (Hnd & Hlt & Hlen).
  rewrite Hsh in Hnd, Hlt, Hlen. simpl in Hnd, Hlt, Hlen.
  rewrite <- length_list_ascii_of_string in Hlt.
  destruct (mutate_positions_spec _ _ rs1 Hbases Hnd Hlt)
    as (l' & rs2 & -> & Hl' & Hin & Hout).
  eexists _, _. split; [done|].
  unfold hamming_distance. rewrite list_ascii_of_string_of_list_ascii.
  split; [|split].
  - by rewrite <- !length_list_ascii_of_string,
      list_ascii_of_string_of_list_ascii.
  - rewrite (differing_positions_Permutation _ l' (take num_mutations pl));
      [done..| |done].
    intros i Hi. destruct (Hin i Hi) as (c & b & -> & -> & _ & ?). congruence.
  - intros i c c' Hc Hc' Hne.
    destruct (decide (i ∈ take num_mutations pl)) as [Hi|Hi].
    + destruct (Hin i Hi) as (c0 & b & ? & ? & ? & ?). congruence.
    + rewrite Hout in Hc' by done. congruence.
Qed.

End mutate_seq_facts.

(** ** Minimum and sum of a list of scores *)

Lemma Qmin_list_le_head x l : (Qmin_list x l <= x)%Q.
Proof.
  revert x. induction l as [|y l IH]; intros x; simpl; [lra|].
  destruct (Qle_bool x y) eqn:E; [apply IH|].
  assert (¬ (x <= y)%Q) by (rewrite <- Qle_bool_iff; congruence).
  specialize (IH y). lra.
Qed.

Lemma Qmin_list_le_elem x l : Forall (λ y, (Qmin_list x l <= y)%Q) l.
Proof.
  revert x. induction l as [|y l IH]; intros x; simpl; constructor.
  - pose proof (Qmin_list_le_head (if Qle_bool x y then x else y) l) as Hm.
    destruct (Qle_bool x y) eqn:E; [|done].
    apply Qle_bool_iff in E. lra.
  - apply IH.
Qed.

Lemma Qsum_pos l : l ≠ [] → Forall (λ x, (0 < x)%Q) l → (0 < Qsum l)%Q.
Proof.
  intros Hne Hl. destruct l as [|x l]; [done|]. clear Hne.
  apply Forall_cons in Hl as [Hx Hl]. simpl.
  assert (0 <= Qsum l)%Q.
  { clear Hx. induction Hl as [|y l Hy _ IH]; simpl; lra. }
  lra.
Qed.

(** ** The rounding of binary64 *)

Lemma round_half_even_error (x : Q) :
  (Qabs (inject_Z (round_half_even x) - x) <= 1 # 2)%Q.
Proof.
  unfold round_half_even.
  pose proof (Qfloor_le x) as Hlo. pose proof (Qlt_floor x) as Hhi.
  rewrite inject_Z_plus in Hhi. change (inject_Z 1) with 1%Q in Hhi.
  apply Qabs_Qle_condition.
  destruct (Qcompare_spec (x - inject_Z (Qfloor x)) (1 # 2)) as [He|Hl|Hg].
  - destruct (Z.even (Qfloor x)); [|rewrite inject_Z_plus];
      change (inject_Z 1) with 1%Q in *; lra.
  - lra.
  - rewrite inject_Z_plus. change (inject_Z 1) with 1%Q in *. lra.
Qed.

Lemma round_half_even_nonneg (x : Q) :
  (0 <= x)%Q → (0 <= round_half_even x)%Z.
Proof.
  intros Hx. unfold round_half_even.
  assert (0 <= Qfloor x)%Z as Hf.
  { change 0%Z with (Qfloor 0). by apply Qfloor_resp_le. }
  destruct (_ ?= _)%Q; [destruct (Z.even _)|..]; lia.
Qed.

Lemma Qpower_2_pos (e : Z) : (0 < 2 ^ e)%Q.
Proof. by apply Qpower_0_lt. Qed.

Lemma Qpower_2_succ (e : Z) : (2 ^ (e + 1) == 2 * 2 ^ e)%Q.
Proof. rewrite Qpower_plus by done. change (2 ^ 1)%Q with 2%Q. ring. Qed.

Lemma Qpower_2_pred (e : Z) : (2 ^ (e - 1) == (1 # 2) * 2 ^ e)%Q.
Proof.
  replace e with ((e - 1) + 1)%Z at 2 by lia. rewrite Qpower_2_succ. ring.
Qed.

Lemma Qpower_2_log2 (n : Z) :
  (0 < n)%Z →
  (2 ^ Z.log2 n <= inject_Z n)%Q ∧ (inject_Z n < 2 ^ (Z.log2 n + 1))%Q.
Proof.
  intros Hn. destruct (Z.log2_spec n Hn) as [Hlo Hhi].
  pose proof (Z.log2_nonneg n) as H0.
  change 2%Q with (inject_Z 2).
  rewrite <- !Zpower_Qpower by lia. split.
  - by rewrite <- Zle_Qle.
  - rewrite <- Zlt_Qlt. replace (Z.log2 n + 1)%Z with (Z.succ (Z.log2 n)) by lia.
    done.
Qed.

Lemma quotient_binade (x y pa pb pab : Q) :
  (0 < y)%Q → (0 < pb)%Q → (0 < pab)%Q → (pa == pab * pb)%Q →
  (pa <= x)%Q → (x < 2 * pa)%Q → (pb <= y)%Q → (y < 2 * pb)%Q →
  (x / y < 2 * pab)%Q ∧ ((1 # 2) * pab <= x / y)%Q.
Proof.
  intros Hy Hpb Hpab Ha Hxlo Hxhi Hylo Hyhi. split.
  - apply Qlt_shift_div_r; [done|].
    assert (pab * pb <= pab * y)%Q by (by apply Qmult_le_l). lra.
  - apply Qle_shift_div_l; [done|].
    assert (pab * y <= pab * (2 * pb))%Q by (apply Qmult_le_l; lra).
    lra.
Qed.

Lemma Qlog2_spec (q : Q) :
  (0 < q)%Q → (2 ^ Qlog2 q <= q)%Q ∧ (q < 2 ^ (Qlog2 q + 1))%Q.
Proof.
  intros Hq. destruct q as [n d].
  assert (0 < n)%Z as Hn.
  { unfold Qlt in Hq. simpl in Hq. lia. }
  destruct (Qpower_2_log2 n Hn) as [Hnlo Hnhi].
  destruct (Qpower_2_log2 (Z.pos d) ltac:(lia)) as [Hdlo Hdhi].
  unfold Qlog2. cbn [Qnum Qden].
  set (a := Z.log2 n) in *. set (b := Z.log2 (Z.pos d)) in *.
  rewrite Qpower_2_succ in Hnhi, Hdhi.
  destruct (quotient_binade (inject_Z n) (inject_Z (Z.pos d))
              (2 ^ a) (2 ^ b) (2 ^ (a - b))) as [Hhi Hlo];
    [done|apply Qpower_2_pos|apply Qpower_2_pos| |done..|].
  { rewrite <- Qpower_plus by done. by replace (a - b + b)%Z with a by lia. }
  rewrite <- Qmake_Qdiv in Hhi, Hlo.
  destruct (Qle_bool (2 ^ (a - b)) (n # d)) eqn:Hle.
  - apply Qle_bool_iff in Hle. split; [done|]. by rewrite Qpower_2_succ.
  - replace (a - b - 1 + 1)%Z with (a - b)%Z by lia.
    split; [by rewrite Qpower_2_pred|].
    apply Qnot_le_lt. rewrite <- Qle_bool_iff. congruence.
Qed.


Lemma Qabs_of_nonneg (q : Q) : (0 <= q)%Q → Qabs q = q.
Proof.
  destruct q as [n d]. unfold Qle, Qabs. simpl. intros Hn.
  f_equal. apply Z.abs_eq. lia.
Qed.

Lemma scaled_error (n x s : Q) :
  (0 < s)%Q → (Qabs (n - x) <= 1 # 2)%Q →
  (Qabs (n * s - x * s) <= (1 # 2) * s)%Q.
Proof.
  intros Hs [Hlo Hhi]%Qabs_Qle_condition. apply Qabs_Qle_condition.
  assert (n * s - x * s == (n - x) * s)%Q as -> by ring.
  split.
  - assert (- (1 # 2) * s <= (n - x) * s)%Q by (by apply Qmult_le_compat_r; [|lra]).
    lra.
  - assert ((n - x) * s <= (1 # 2) * s)%Q by (by apply Qmult_le_compat_r; [|lra]).
    lra.
Qed.

Lemma round_to_ulp_error (q : Q) :
  (Qabs (round_to_ulp q - q) <= (1 # 2) * 2 ^ ulp_exponent q)%Q.
Proof.
  unfold round_to_ulp.
  pose proof (Qpower_2_pos (ulp_exponent q)) as Hs.
  set (s := (2 ^ ulp_exponent q)%Q) in *.
  set (n := inject_Z (round_half_even (q / s))).
  assert (n * s - q == n * s - q / s * s)%Q as Hq.
  { clearbody n s. field. lra. }
  rewrite Hq. apply scaled_error; [done|]. apply round_half_even_error.
Qed.

Lemma round_to_ulp_nonneg (q : Q) : (0 <= q)%Q → (0 <= round_to_ulp q)%Q.
Proof.
  intros Hq. unfold round_to_ulp.
  pose proof (Qpower_2_pos (ulp_exponent q)) as Hs.
  apply Qmult_le_0_compat; [|lra].
  change 0%Q with (inject_Z 0). rewrite <- Zle_Qle.
  apply round_half_even_nonneg. apply Qle_shift_div_l; [done|]. lra.
Qed.

Lemma half_of_2pow52 (p : Q) :
  ((1 # 2) * (p * (1 # 2 ^ 52)) == unit_roundoff * p)%Q.
Proof.
  change (1 # 2 ^ 52)%Q with (1 # 4503599627370496)%Q.
  unfold unit_roundoff. ring.
Qed.

Lemma Qpower_2_minus_52 (e : Z) : (2 ^ (e - 52) == 2 ^ e * (1 # 2 ^ 52))%Q.
Proof.
  replace (e - 52)%Z with (e + -52)%Z by lia.
  rewrite Qpower_plus by done. apply Qmult_comp; [done|]. reflexivity.
Qed.

(** Half a unit in the last place, relative to a number in the normal
    range, and in general. *)
Lemma half_ulp_normal (q : Q) :
  (2 ^ (-1022) <= q)%Q →
  ((1 # 2) * 2 ^ ulp_exponent q <= unit_roundoff * q)%Q.
Proof.
  intros Hq. pose proof (Qpower_2_pos (-1022)) as H0.
  assert (0 < q)%Q as Hpos by lra.
  unfold ulp_exponent. rewrite Qabs_of_nonneg by lra.
  destruct (Qlog2_spec q Hpos) as [Hlo Hhi].
  assert (-1022 < Qlog2 q + 1)%Z as He.
  { apply (Qpower_lt_compat_l_inv 2); [|done]. lra. }
  rewrite Z.max_l by lia.
  rewrite Qpower_2_minus_52, half_of_2pow52.
  apply Qmult_le_l; done.
Qed.

Lemma half_ulp (q : Q) :
  (0 < q)%Q →
  ((1 # 2) * 2 ^ ulp_exponent q <= unit_roundoff * q + eta)%Q.
Proof.
  intros Hpos. unfold ulp_exponent. rewrite Qabs_of_nonneg by lra.
  destruct (Qlog2_spec q Hpos) as [Hlo Hhi].
  assert (0 <= unit_roundoff * q)%Q.
  { apply Qmult_le_0_compat; [done|lra]. }
  assert (0 < eta)%Q by apply Qpower_2_pos.
  destruct (Z.max_spec (Qlog2 q - 52) (-1074)) as [[_ ->]|[_ ->]].
  - assert ((1 # 2) * 2 ^ (-1074) == eta)%Q as -> by reflexivity. lra.
  - rewrite Qpower_2_minus_52, half_of_2pow52.
    assert (unit_roundoff * 2 ^ Qlog2 q <= unit_roundoff * q)%Q
      by (by apply Qmult_le_l).
    lra.
Qed.

(** What [round64] returns on a positive number. *)
Lemma round64_pos (q : Q) :
  (0 < q)%Q →
  round64 q = Infinity false
  ∨ ∃ r, round64 q = Finite r
         ∧ (0 <= r)%Q ∧ (r < 2 ^ 1024)%Q
         ∧ (Qabs (r - q) <= (1 # 2) * 2 ^ ulp_exponent q)%Q.
Proof.
  intros Hq. unfold round64.
  destruct (Qeq_bool q 0) eqn:H0.
  { apply Qeq_bool_iff in H0. lra. }
  pose proof (round_to_ulp_nonneg q ltac:(lra)) as Hr.
  rewrite (Qabs_of_nonneg (round_to_ulp q)) by done.
  destruct (Qle_bool (2 ^ 1024) (round_to_ulp q)) eqn:Hov.
  - left. f_equal. apply negb_false_iff, Qle_bool_iff. lra.
  - right. exists (round_to_ulp q). split; [done|]. split; [done|]. split.
    + apply Qnot_le_lt. rewrite <- Qle_bool_iff. congruence.
    + apply round_to_ulp_error.
Qed.

(** ** Rounded sums *)

(** One step of a rounded summation. *)
Lemma rounded_sum_step (u a A S t S1 : Q) :
  (0 <= u)%Q → (u <= a)%Q → (a <= 1)%Q →
  (0 <= A)%Q → (0 <= S)%Q → (0 <= t)%Q →
  (a * A <= S)%Q → (a * S <= A)%Q →
  ((1 - u) * (S + t) <= S1)%Q → (S1 <= (1 + u) * (S + t))%Q →
  ((a - u) * (A + t) <= S1)%Q ∧ ((a - u) * S1 <= A + t)%Q.
Proof.
  intros Hu Hua Ha HA HS Ht H1 H2 H3 H4. split.
  - assert (0 <= (1 - u) * (S - a * A))%Q as P1
      by (apply Qmult_le_0_compat; lra).
    assert (0 <= u * A)%Q as P0 by (apply Qmult_le_0_compat; lra).
    assert (0 <= (1 - a) * (t + u * A))%Q as P2
      by (apply Qmult_le_0_compat; lra).
    lra.
  - assert (0 <= (a - u) * ((1 + u) * (S + t) - S1))%Q as P3
      by (apply Qmult_le_0_compat; lra).
    assert (0 <= u * (1 + u - a))%Q as P40
      by (apply Qmult_le_0_compat; lra).
    assert (0 <= u * (1 + u - a) * (S + t))%Q as P4
      by (apply Qmult_le_0_compat; lra).
    assert (0 <= (1 - a) * t)%Q as P5 by (apply Qmult_le_0_compat; lra).
    lra.
Qed.

(** The quotient of the exact and the rounded sum, and its effect on the
    sum of the weights. *)
Lemma weights_sum_bounds (u a T s W e : Q) :
  (0 <= u)%Q → (u <= 1 # 4)%Q → (1 # 2 <= a)%Q → (a <= 1)%Q → (0 < s)%Q → (0 <= T)%Q →
  (0 <= e)%Q →
  (a * T <= s)%Q → (a * s <= T)%Q →
  ((1 - u) * (T / s) - e <= W)%Q → (W <= (1 + u) * (T / s) + e)%Q →
  (a - u - e <= W)%Q ∧ (W <= 1 + 2 * (1 - a + u) + e)%Q.
Proof.
  intros Hu Hu4 Ha Ha1 Hs HT He H1 H2 H3 H4.
  assert (a <= T / s)%Q as Hlo by (apply Qle_shift_div_l; lra).
  assert (T / s * a <= 1)%Q as Hhi.
  { assert (T / s * a == (a * T) / s)%Q as -> by (field; lra).
    apply Qle_shift_div_r; lra. }
  set (r := (T / s)%Q) in *. clearbody r. split.
  - assert (0 <= (1 - u) * (r - a))%Q by (apply Qmult_le_0_compat; lra).
    assert (0 <= u * (1 - a))%Q by (apply Qmult_le_0_compat; lra).
    lra.
  - (* r <= 1/a <= 1 + 2(1-a) because a >= 1/2 *)
    assert (r <= 1 + 2 * (1 - a))%Q as Hr.
    { assert (0 <= (1 - a) * (2 * a - 1))%Q by (apply Qmult_le_0_compat; lra).
      assert (0 <= r)%Q by lra.
      (* r*a <= 1 and a*(1+2(1-a)) = 3a - 2a^2 >= 1 iff (1-a)(2a-1) >= 0 *)
      assert (0 <= (1 + 2 * (1 - a) - r) * a)%Q by lra.
      assert (0 <= 1 + 2 * (1 - a) - r)%Q; [|lra].
      apply Qnot_lt_le. intros Hneg.
      assert ((1 + 2 * (1 - a) - r) * a < 0 * a)%Q; [|lra].
      apply Qmult_lt_compat_r; lra. }
    assert (0 <= u * (1 + 2 * (1 - a) - r))%Q by (apply Qmult_le_0_compat; lra).
    assert (0 <= u * (2 * a - 1))%Q by (apply Qmult_le_0_compat; lra).
    lra.
Qed.

(** ** The rounding of binary64 on positive numbers *)

Lemma round64_Finite_pos (q r : Q) :
  (0 < q)%Q → round64 q = Finite r →
  (0 <= r)%Q ∧ (r < 2 ^ 1024)%Q
  ∧ (Qabs (r - q) <= (1 # 2) * 2 ^ ulp_exponent q)%Q.
Proof.
  intros Hq Hr. destruct (round64_pos q Hq) as [Hinf|(r' & Hr' & ?)].
  - congruence.
  - rewrite Hr in Hr'. by injection Hr' as <-.
Qed.

Lemma round64_Finite_bounds (q r : Q) :
  (0 < q)%Q → round64 q = Finite r →
  ((1 - unit_roundoff) * q - eta <= r)%Q
  ∧ (r <= (1 + unit_roundoff) * q + eta)%Q.
Proof.
  intros Hq Hr.
  destruct (round64_Finite_pos q r Hq Hr) as (_ & _ & He).
  pose proof (half_ulp q Hq) as Hu.
  apply Qabs_Qle_condition in He as [? ?]. split; lra.
Qed.

Lemma round64_Finite_bounds_normal (q r : Q) :
  (2 ^ (-1022) <= q)%Q → round64 q = Finite r →
  ((1 - unit_roundoff) * q <= r)%Q ∧ (r <= (1 + unit_roundoff) * q)%Q.
Proof.
  intros Hq Hr. pose proof (Qpower_2_pos (-1022)).
  destruct (round64_Finite_pos q r ltac:(lra) Hr) as (_ & _ & He).
  pose proof (half_ulp_normal q Hq) as Hu.
  apply Qabs_Qle_condition in He as [? ?]. split; lra.
Qed.

Lemma round64_no_overflow (q : Q) :
  (0 < q)%Q → ((1 + unit_roundoff) * q + eta < 2 ^ 1024)%Q →
  ∃ r, round64 q = Finite r.
Proof.
  intros Hq Hb. unfold round64.
  destruct (Qeq_bool q 0); [by eexists|].
  pose proof (round_to_ulp_nonneg q ltac:(lra)) as Hr.
  rewrite (Qabs_of_nonneg (round_to_ulp q)) by done.
  destruct (Qle_bool (2 ^ 1024) (round_to_ulp q)) eqn:Hov; [|by eexists].
  apply Qle_bool_iff in Hov.
  pose proof (round_to_ulp_error q) as He.
  pose proof (half_ulp q Hq) as Hu.
  apply Qabs_Qle_condition in He as [? ?]. lra.
Qed.

Lemma round64_nonneg (q r : Q) :
  (0 <= q)%Q → round64 q = Finite r → (0 <= r)%Q.
Proof.
  intros Hq Hr. destruct (Qeq_bool q 0) eqn:H0.
  - unfold round64 in Hr. rewrite H0 in Hr. injection Hr as <-. lra.
  - assert (0 < q)%Q as Hpos.
    { apply Qle_lteq in Hq as [?|Heq]; [done|].
      symmetry in Heq. apply Qeq_bool_iff in Heq. congruence. }
    by destruct (round64_Finite_pos q r Hpos Hr).
Qed.

(** ** Sums of floats *)

Lemma fadd_Finite (a b : float64) (r : Q) :
  fadd a b = Finite r →
  ∃ x y, a = Finite x ∧ b = Finite y ∧ round64 (x + y) = Finite r.
Proof.
  destruct a as [x|s|], b as [y|t|]; simpl; try done.
  - intros Hr. by exists x, y.
  - by destruct (Bool.eqb s t).
Qed.

Lemma foldl_fadd_Finite (l : list float64) (acc : float64) (σ : Q) :
  foldl fadd acc l = Finite σ →
  ∃ a ts, acc = Finite a ∧ l = Finite <$> ts.
Proof.
  revert acc. induction l as [|b l IH]; intros acc; simpl.
  - intros ->. by exists σ, [].
  - intros (r & ts & Hr & ->)%IH.
    apply fadd_Finite in Hr as (x & y & -> & -> & _).
    by exists x, (y :: ts).
Qed.

Lemma rounded_sum_bounds (ts : list Q) :
  ∀ a acc A σ,
    Forall (λ t, (least_shifted <= t)%Q) ts →
    (0 <= A)%Q → (0 <= acc)%Q → (a <= 1)%Q →
    ((1 # 2) <= a - inject_Z (Z.of_nat (length ts)) * unit_roundoff)%Q →
    (a * A <= acc)%Q → (a * acc <= A)%Q →
    foldl fadd (Finite acc) (Finite <$> ts) = Finite σ →
    ((a - inject_Z (Z.of_nat (length ts)) * unit_roundoff) * (A + Qsum ts)
       <= σ)%Q
    ∧ ((a - inject_Z (Z.of_nat (length ts)) * unit_roundoff) * σ
       <= A + Qsum ts)%Q
    ∧ (0 <= σ)%Q.
Proof.
  induction ts as [|t ts IH]; intros a acc A σ Hts HA Hacc Ha1 Ha H1 H2 Hsum.
  - injection Hsum as <-. cbn [length Qsum foldr] in *.
    change (inject_Z (Z.of_nat 0)) with 0%Q in *. unfold unit_roundoff in *.
    split; [|split]; [lra..|done].
  - apply Forall_cons in Hts as [Ht Hts].
    cbn [length] in *. rewrite Nat2Z.inj_succ, <- Z.add_1_r in *.
    rewrite inject_Z_plus in *. change (inject_Z 1) with 1%Q in *.
    set (n := inject_Z (Z.of_nat (length ts))) in *.
    assert (0 <= n)%Q as Hn.
    { subst n. change 0%Q with (inject_Z 0). rewrite <- Zle_Qle. lia. }
    clearbody n.
    rewrite fmap_cons in Hsum. cbn [foldl] in Hsum.
    destruct (foldl_fadd_Finite _ _ _ Hsum) as (S1 & ts' & HS1 & _).
    rewrite HS1 in Hsum. cbn [fadd] in HS1.
    assert (least_shifted = (1 # 262144)%Q) as Hls by reflexivity.
    rewrite Hls in *.
    assert (2 ^ (-1022) <= acc + t)%Q as Hnormal.
    { assert (2 ^ (-1022) <= 1 # 262144)%Q by (by vm_compute). lra. }
    destruct (round64_Finite_bounds_normal _ _ Hnormal HS1) as [Hlo Hhi].
    unfold unit_roundoff in *.
    destruct (rounded_sum_step (1 # 9007199254740992) a A acc t S1)
      as [H1' H2']; [lra..|].
    assert (0 <= S1)%Q as HS1pos.
    { assert (0 <= (1 - (1 # 9007199254740992)) * (acc + t))%Q
        by (apply Qmult_le_0_compat; lra). lra. }
    destruct (IH (a - (1 # 9007199254740992))%Q S1 (A + t)%Q σ)
      as (G1 & G2 & G3); [done|lra..|done|].
    cbn [Qsum foldr]. fold (Qsum ts).
    generalize dependent (Qsum ts). intros T G1 G2.
    split; [|split; [|done]].
    + assert ((a - (n + 1) * (1 # 9007199254740992)) * (A + (t + T))
              == (a - (1 # 9007199254740992) - n * (1 # 9007199254740992))
                 * (A + t + T))%Q as -> by ring.
      done.
    + assert ((a - (n + 1) * (1 # 9007199254740992)) * σ
              == (a - (1 # 9007199254740992) - n * (1 # 9007199254740992))
                 * σ)%Q as -> by ring.
      lra.
Qed.

(** ** The selection weights *)

Lemma epsilon_Finite : GeneticWalker.epsilon = Finite epsilon_value.
Proof. by vm_compute. Qed.

Lemma fsum_lt_overflow (ts : list Q) :
  ∀ acc σ,
    ts ≠ [] → (0 <= acc)%Q → Forall (λ t, (least_shifted <= t)%Q) ts →
    foldl fadd (Finite acc) (Finite <$> ts) = Finite σ →
    (0 < σ)%Q ∧ (σ < 2 ^ 1024)%Q.
Proof.
  induction ts as [|t ts IH]; intros acc σ Hne Hacc Hts Hsum; [done|].
  apply Forall_cons in Hts as [Ht Hts].
  rewrite fmap_cons in Hsum. cbn [foldl] in Hsum.
  destruct (foldl_fadd_Finite _ _ _ Hsum) as (S1 & ts' & HS1 & _).
  rewrite HS1 in Hsum. cbn [fadd] in HS1.
  assert (least_shifted = (1 # 262144)%Q) as Hls by reflexivity.
  assert (2 ^ (-1022) <= acc + t)%Q as Hnormal.
  { assert (2 ^ (-1022) <= 1 # 262144)%Q by (by vm_compute).
    rewrite Hls in Ht. lra. }
  destruct (round64_Finite_pos (acc + t) S1) as (_ & Hmax & _);
    [rewrite Hls in Ht; lra|done|].
  destruct (round64_Finite_bounds_normal _ _ Hnormal HS1) as [Hlo _].
  assert (0 < S1)%Q as Hpos.
  { unfold unit_roundoff in Hlo. rewrite Hls in Ht. lra. }
  destruct ts as [|t' ts].
  - injection Hsum as <-. done.
  - apply (IH S1); [done|lra|done|done].
Qed.

Lemma shifted_score_least (x m t : Q) :
  (m <= x)%Q →
  fadd (round64 (x - m)) GeneticWalker.epsilon = Finite t →
  (least_shifted <= t)%Q.
Proof.
  intros Hm (y & e & Hy & He & Ht)%fadd_Finite.
  rewrite epsilon_Finite in He. injection He as <-.
  apply round64_nonneg in Hy; [|lra].
  assert (2 ^ (-1022) <= y + epsilon_value)%Q as Hnormal.
  { assert (2 ^ (-1022) <= epsilon_value)%Q by (by vm_compute). lra. }
  destruct (round64_Finite_bounds_normal _ _ Hnormal Ht) as [Hlo _].
  assert (least_shifted <= (1 - unit_roundoff) * epsilon_value)%Q as Hc
    by (by vm_compute).
  assert (0 <= (1 - unit_roundoff) * y)%Q.
  { apply Qmult_le_0_compat; [by vm_compute|done]. }
  lra.
Qed.

Lemma shifted_scores_least (raw_scores ts : list Q) :
  GeneticWalker.shifted_scores raw_scores = Finite <$> ts →
  Forall (λ t, (least_shifted <= t)%Q) ts.
Proof.
  unfold GeneticWalker.shifted_scores.
  destruct raw_scores as [|x0 rest].
  { destruct ts; [constructor|done]. }
  pose proof (Qmin_list_le_head x0 rest) as H0.
  pose proof (Qmin_list_le_elem x0 rest) as Hrest.
  generalize dependent (Qmin_list x0 rest). intros m H0 Hrest.
  assert (Forall (λ x, (m <= x)%Q) (x0 :: rest)) as Hall by (by constructor).
  clear H0 Hrest. revert ts.
  induction Hall as [|x l Hx _ IH]; intros ts Heq.
  - destruct ts; [constructor|done].
  - destruct ts as [|t ts]; [done|].
    rewrite !fmap_cons in Heq. injection Heq as Ht Heq.
    constructor; [by eapply shifted_score_least|by apply IH].
Qed.

Lemma Qsum_nonneg (ts : list Q) :
  Forall (λ t, (0 <= t)%Q) ts → (0 <= Qsum ts)%Q.
Proof. induction 1 as [|t ts Ht _ IH]; simpl; lra. Qed.

Lemma Qsum_ge_elem (ts : list Q) :
  Forall (λ t, (0 <= t)%Q) ts → Forall (λ t, (t <= Qsum ts)%Q) ts.
Proof.
  induction 1 as [|t ts Ht Hts IH]; [constructor|].
  pose proof (Qsum_nonneg ts Hts). cbn [Qsum foldr]. fold (Qsum ts).
  constructor; [lra|].
  eapply Forall_impl; [exact IH|]. simpl. intros. lra.
Qed.

(** One weight: the quotient of a shifted score and of the sum. *)
Lemma weight_bounds (t σ : Q) :
  (least_shifted <= t)%Q → (t <= 2 * σ)%Q → (0 < σ)%Q → (σ < 2 ^ 1024)%Q →
  ∃ w, fdiv (Finite t) (Finite σ) = Ok (Finite w)
       ∧ (0 < w)%Q
       ∧ ((1 - unit_roundoff) * (t / σ) - eta <= w)%Q
       ∧ (w <= (1 + unit_roundoff) * (t / σ) + eta)%Q.
Proof.
  intros Ht Ht2 Hs Hmax. unfold fdiv.
  destruct (Qeq_bool σ 0) eqn:H0.
  { apply Qeq_bool_iff in H0. lra. }
  assert (least_shifted = (1 # 262144)%Q) as Hls by reflexivity.
  rewrite Hls in Ht.
  assert (t / σ <= 2)%Q as Hq2 by (apply Qle_shift_div_r; lra).
  assert ((1 # 262144) / 2 ^ 1024 <= t / σ)%Q as Hqlo.
  { apply Qle_shift_div_l; [done|].
    assert ((1 # 262144) / 2 ^ 1024 * σ <= (1 # 262144) / 2 ^ 1024 * 2 ^ 1024)%Q.
    { apply Qmult_le_l; [by vm_compute|lra]. }
    assert ((1 # 262144) / 2 ^ 1024 * 2 ^ 1024 == 1 # 262144)%Q
      by (by vm_compute).
    lra. }
  assert (0 < (1 # 262144) / 2 ^ 1024)%Q as Hc0 by (by vm_compute).
  assert (eta < (1 - unit_roundoff) * ((1 # 262144) / 2 ^ 1024))%Q as Hc1
    by (by vm_compute).
  assert (0 < eta)%Q as Heta by apply Qpower_2_pos.
  assert ((1 + unit_roundoff) * 2 + eta < 2 ^ 1024)%Q as Hc2
    by (by vm_compute).
  assert (0 < t / σ)%Q as Hq by lra.
  destruct (round64_no_overflow (t / σ) Hq) as [w Hw].
  { assert ((1 + unit_roundoff) * (t / σ) <= (1 + unit_roundoff) * 2)%Q
      by (apply Qmult_le_l; [by vm_compute|done]).
    lra. }
  exists w. split; [by rewrite Hw|].
  destruct (round64_Finite_bounds (t / σ) w Hq Hw) as [Hlo Hhi].
  split; [|exact (conj Hlo Hhi)].
  assert ((1 - unit_roundoff) * ((1 # 262144) / 2 ^ 1024)
          <= (1 - unit_roundoff) * (t / σ))%Q
    by (apply Qmult_le_l; [by vm_compute|done]).
  lra.
Qed.

Lemma weights_Forall2 (ts : list Q) (σ : Q) :
  Forall (λ t, (least_shifted <= t)%Q ∧ (t <= 2 * σ)%Q) ts →
  (0 < σ)%Q → (σ < 2 ^ 1024)%Q →
  ∃ ws, rmapM (λ x, fdiv x (Finite σ)) (Finite <$> ts) = Ok (Finite <$> ws)
        ∧ Forall2 (λ t w, (0 < w)%Q
                          ∧ ((1 - unit_roundoff) * (t / σ) - eta <= w)%Q
                          ∧ (w <= (1 + unit_roundoff) * (t / σ) + eta)%Q)
            ts ws.
Proof.
  intros Hts Hs Hmax. induction Hts as [|t ts [Ht Ht2] _ (ws & Hws & Hall)].
  - by exists [].
  - destruct (weight_bounds t σ Ht Ht2 Hs Hmax) as (w & Hw & Hbounds).
    exists (w :: ws). split; [|by constructor].
    rewrite !fmap_cons. cbn [rmapM]. rewrite Hw. cbn [rbind]. by rewrite Hws.
Qed.

Lemma Qsum_weights (ts ws : list Q) (σ : Q) :
  (0 < σ)%Q →
  Forall2 (λ t w, (0 < w)%Q
                  ∧ ((1 - unit_roundoff) * (t / σ) - eta <= w)%Q
                  ∧ (w <= (1 + unit_roundoff) * (t / σ) + eta)%Q) ts ws →
  ((1 - unit_roundoff) * (Qsum ts / σ)
     - inject_Z (Z.of_nat (length ts)) * eta <= Qsum ws)%Q
  ∧ (Qsum ws <= (1 + unit_roundoff) * (Qsum ts / σ)
                + inject_Z (Z.of_nat (length ts)) * eta)%Q.
Proof.
  intros Hs. induction 1 as [|t w ts ws (_ & Hlo & Hhi) _ [IHlo IHhi]].
  - cbn [Qsum foldr length]. change (inject_Z (Z.of_nat 0)) with 0%Q.
    assert (0 / σ == 0)%Q as -> by (field; lra). lra.
  - cbn [Qsum foldr length]. fold (Qsum ts) (Qsum ws).
    rewrite Nat2Z.inj_succ, <- Z.add_1_r, inject_Z_plus.
    change (inject_Z 1) with 1%Q.
    assert ((t + Qsum ts) / σ == t / σ + Qsum ts / σ)%Q as ->
      by (field; lra).
    generalize dependent (inject_Z (Z.of_nat (length ts))).
    generalize dependent (Qsum ts / σ)%Q. generalize dependent (t / σ)%Q.
    unfold unit_roundoff. intros. split; lra.
Qed.

(** When the sum of the shifted scores is finite, the weights are
    positive and their sum is within the tolerance of numpy of 1. *)
Lemma score_to_probability_near_distribution (raw_scores : list Q) (σ : Q) :
  raw_scores ≠ [] → (Z.of_nat (length raw_scores) < 2 ^ 25)%Z →
  fsum (GeneticWalker.shifted_scores raw_scores) = Finite σ →
  ∃ weights,
    GeneticWalker.score_to_probability raw_scores = Ok (Finite <$> weights)
    ∧ Forall (λ p, (0 < p)%Q) weights
    ∧ (Qabs (Qsum weights - 1) <= atol)%Q.
Proof.
  intros Hne Hlen Hsum. unfold GeneticWalker.score_to_probability.
  rewrite Hsum.
  destruct (foldl_fadd_Finite _ _ _ Hsum) as (z & ts & _ & Hts).
  rewrite Hts in *.
  assert (length ts = length raw_scores) as Hn.
  { apply (f_equal length) in Hts. rewrite length_fmap in Hts.
    rewrite <- Hts. unfold GeneticWalker.shifted_scores.
    destruct raw_scores; [done|]. by rewrite length_fmap. }
  assert (ts ≠ []) as Hne' by (intros ->; by destruct raw_scores).
  pose proof (shifted_scores_least _ _ Hts) as Hleast.
  assert (least_shifted = (1 # 262144)%Q) as Hls by reflexivity.
  assert (Forall (λ t, (0 <= t)%Q) ts) as Hpos.
  { eapply Forall_impl; [exact Hleast|]. simpl. intros t. rewrite Hls. lra. }
  destruct (fsum_lt_overflow ts 0 σ Hne' ltac:(lra) Hleast Hsum)
    as [Hs Hmax].
  set (n := inject_Z (Z.of_nat (length ts))) in *.
  assert (0 <= n)%Q as Hn0.
  { subst n. change 0%Q with (inject_Z 0). rewrite <- Zle_Qle. lia. }
  assert (n + 1 <= 33554432)%Q as Hn1.
  { subst n. change 1%Q with (inject_Z 1). rewrite <- inject_Z_plus.
    change 33554432%Q with (inject_Z (2 ^ 25)). rewrite <- Zle_Qle. lia. }
  destruct (rounded_sum_bounds ts 1 0 0 σ) as (H1 & H2 & _);
    [done|lra|lra|lra| |lra|lra|done|].
  { fold n. unfold unit_roundoff. lra. }
  fold n in H1, H2.
  pose proof (Qsum_nonneg ts Hpos) as HT.
  pose proof (Qsum_ge_elem ts Hpos) as Helem.
  assert ((0 + Qsum ts) == Qsum ts)%Q as HT0 by ring.
  rewrite HT0 in H1, H2. clear HT0.
  set (T := Qsum ts) in *.
  assert (T <= 2 * σ)%Q as HT2.
  { unfold unit_roundoff in H1.
    assert (0 <= ((1 # 2) - n * (1 # 9007199254740992)) * T)%Q
      by (apply Qmult_le_0_compat; lra).
    lra. }
  destruct (weights_Forall2 ts σ) as (ws & Hws & Hall); [|done..|].
  { apply Forall_forall. intros t Ht. rewrite Forall_forall in Hleast, Helem.
    split; [by apply Hleast|]. specialize (Helem t Ht). simpl in Helem. lra. }
  exists ws. split; [done|]. split.
  { clear -Hall. induction Hall as [|? ? ? ? (? & _)]; by constructor. }
  destruct (Qsum_weights ts ws σ Hs Hall) as [Wlo Whi].
  fold n T in Wlo, Whi.
  assert (0 < eta)%Q as Heta by apply Qpower_2_pos.
  assert (0 <= n * eta)%Q as Hne0 by (apply Qmult_le_0_compat; lra).
  assert (n * eta <= 33554432 * eta)%Q as Hne1
    by (apply Qmult_le_compat_r; lra).
  assert (33554432 * eta <= 1 # 134217728)%Q as Hne2 by (by vm_compute).
  destruct (weights_sum_bounds unit_roundoff
              (1 - n * unit_roundoff) T σ (Qsum ws) (n * eta))
    as [Glo Ghi]; unfold unit_roundoff in *; [lra..|done|done|].
  apply Qabs_Qle_condition. unfold atol.
  change (1 # 2 ^ 26)%Q with (1 # 67108864)%Q. split; lra.
Qed.

(** C7 (amended).  For a pool that is not empty, of fewer than [2^25]
    candidates, whose shifted scores have a finite sum in binary64 (the
    sum does not overflow): the selection weights of [make_children] (raw
    score minus the minimum of the pool plus epsilon, divided by the sum,
    every operation rounded) are finite and strictly positive, and their
    sum is 1 up to the rounding, within the tolerance [2^-26] of numpy;
    pools whose scores are all equal are included. *)
Theorem selection_weights_positive_sum_near_1 (raw_scores : list Q) (σ : Q) :
  raw_scores ≠ [] → (Z.of_nat (length raw_scores) < 2 ^ 25)%Z →
  fsum (GeneticWalker.shifted_scores raw_scores) = Finite σ →
  ∃ weights,
    GeneticWalker.score_to_probability raw_scores = Ok (Finite <$> weights)
    ∧ Forall (λ p, (0 < p)%Q) weights
    ∧ (Qabs (Qsum weights - 1) <= atol)%Q.
Proof. apply score_to_probability_near_distribution. Qed.

(** ** Scores that are bounded: no overflow *)

Lemma shifted_score_bounded (x m : Q) :
  (m <= x)%Q → (x - m <= 2 * score_bound)%Q →
  ∃ t, fadd (round64 (x - m)) GeneticWalker.epsilon = Finite t
       ∧ (t <= 5 * score_bound)%Q.
Proof.
  intros Hm Hb. rewrite epsilon_Finite.
  assert (0 < eta)%Q as Heta by apply Qpower_2_pos.
  assert (0 < epsilon_value)%Q as He0 by done.
  assert (epsilon_value <= 1)%Q as He1 by (by vm_compute).
  assert (2 ^ (-1022) <= epsilon_value)%Q as Hnormal0 by (by vm_compute).
  assert (1 <= score_bound)%Q as HB1 by (by vm_compute).
  assert (eta <= 1 # 2)%Q as Heta1 by (by vm_compute).
  assert (8 * score_bound < 2 ^ 1024)%Q as HB by (by vm_compute).
  generalize dependent score_bound. intros B Hb HB1 HB.
  assert (∃ y, round64 (x - m) = Finite y
               ∧ (0 <= y)%Q ∧ (y <= 2 * B + B)%Q) as (y & -> & Hy0 & Hy).
  { destruct (Qeq_bool (x - m) 0) eqn:H0.
    - exists 0%Q. unfold round64. rewrite H0. split; [done|]. lra.
    - assert (0 < x - m)%Q as Hpos.
      { assert (¬ (x - m == 0)%Q) by (rewrite <- Qeq_bool_iff; congruence).
        lra. }
      assert (unit_roundoff * (x - m) <= unit_roundoff * (2 * B))%Q as Hu
        by (apply Qmult_le_l; [by vm_compute|done]).
      unfold unit_roundoff in Hu.
      destruct (round64_no_overflow (x - m) Hpos) as [y Hy].
      { unfold unit_roundoff. lra. }
      exists y. split; [done|].
      destruct (round64_Finite_bounds _ _ Hpos Hy) as [_ Hhi].
      split; [by eapply round64_nonneg; [|exact Hy]; lra|].
      unfold unit_roundoff in Hhi. lra. }
  cbn [fadd].
  assert (unit_roundoff * (y + epsilon_value)
          <= unit_roundoff * (3 * B + 1))%Q as Hu
    by (apply Qmult_le_l; [by vm_compute|lra]).
  unfold unit_roundoff in Hu.
  destruct (round64_no_overflow (y + epsilon_value)) as [t Ht]; [lra| |].
  { unfold unit_roundoff. lra. }
  exists t. split; [done|].
  destruct (round64_Finite_bounds_normal (y + epsilon_value) t) as [_ Hhi];
    [lra|done|].
  unfold unit_roundoff in Hhi.
  lra.
Qed.

Lemma Qmin_list_ge (c x : Q) (l : list Q) :
  (c <= x)%Q → Forall (λ y, (c <= y)%Q) l → (c <= Qmin_list x l)%Q.
Proof.
  intros Hx Hl. revert x Hx.
  induction Hl as [|y l Hy _ IH]; intros x Hx; simpl; [done|].
  apply IH. by destruct (Qle_bool x y).
Qed.

Lemma shifted_scores_bounded (raw_scores : list Q) :
  Forall (λ x, (Qabs x <= score_bound)%Q) raw_scores →
  ∃ ts, GeneticWalker.shifted_scores raw_scores = Finite <$> ts
        ∧ Forall (λ t, (least_shifted <= t)%Q ∧ (t <= 5 * score_bound)%Q) ts.
Proof.
  intros Hb. unfold GeneticWalker.shifted_scores.
  destruct raw_scores as [|x0 rest]; [by exists []|].
  assert (Forall (λ x, (- score_bound <= x)%Q ∧ (x <= score_bound)%Q)
            (x0 :: rest)) as Hb'.
  { eapply Forall_impl; [exact Hb|]. simpl. intros x Hx.
    by apply Qabs_Qle_condition in Hx. }
  clear Hb.
  pose proof (Qmin_list_le_head x0 rest) as H0.
  pose proof (Qmin_list_le_elem x0 rest) as Hrest.
  assert (- score_bound <= Qmin_list x0 rest)%Q as Hm.
  { apply Forall_cons in Hb' as [[? _] Hb'].
    apply Qmin_list_ge; [done|].
    eapply Forall_impl; [exact Hb'|]. simpl. by intros x [? _]. }
  generalize dependent (Qmin_list x0 rest). intros m H0 Hrest Hm.
  assert (Forall (λ x, (m <= x)%Q ∧ (x - m <= 2 * score_bound)%Q)
            (x0 :: rest)) as Hall.
  { apply Forall_cons in Hb' as [[? ?] Hb'].
    constructor; [split; lra|].
    rewrite Forall_forall in Hb', Hrest. apply Forall_forall.
    intros x Hx. destruct (Hb' x Hx). specialize (Hrest x Hx).
    simpl in Hrest. split; lra. }
  clear H0 Hrest Hb'.
  induction Hall as [|x l [Hx Hx2] _ (ts & Hts & Hall')].
  - by exists [].
  - destruct (shifted_score_bounded x m Hx Hx2) as (t & Ht & Htb).
    exists (t :: ts). rewrite !fmap_cons, Ht, Hts. split; [done|].
    constructor; [|done]. split; [|done].
    exact (shifted_score_least x m t Hx Ht).
Qed.

(** A rounded sum of bounded terms is finite. *)
Lemma rounded_sum_Finite (ts : list Q) :
  ∀ a acc A,
    Forall (λ t, (least_shifted <= t)%Q) ts →
    (0 <= A)%Q → (0 <= acc)%Q → (a <= 1)%Q →
    ((1 # 2) <= a - inject_Z (Z.of_nat (length ts)) * unit_roundoff)%Q →
    (a * A <= acc)%Q → (a * acc <= A)%Q →
    (A + Qsum ts <= 2 ^ 1021)%Q →
    ∃ σ, foldl fadd (Finite acc) (Finite <$> ts) = Finite σ.
Proof.
  induction ts as [|t ts IH]; intros a acc A Hts HA Hacc Ha1 Ha H1 H2 Hsum.
  { by exists acc. }
  apply Forall_cons in Hts as [Ht Hts].
  cbn [length Qsum foldr] in *. fold (Qsum ts) in *.
  rewrite Nat2Z.inj_succ, <- Z.add_1_r in *.
  rewrite inject_Z_plus in *. change (inject_Z 1) with 1%Q in *.
  set (n := inject_Z (Z.of_nat (length ts))) in *.
  assert (0 <= n)%Q as Hn.
  { subst n. change 0%Q with (inject_Z 0). rewrite <- Zle_Qle. lia. }
  clearbody n.
  assert (least_shifted = (1 # 262144)%Q) as Hls by reflexivity.
  rewrite Hls in *.
  assert (0 <= Qsum ts)%Q as HT.
  { apply Qsum_nonneg. eapply Forall_impl; [exact Hts|]. simpl. intros. lra. }
  rewrite fmap_cons. cbn [foldl fadd].
  assert (0 < eta)%Q as Heta by apply Qpower_2_pos.
  assert (eta <= 1)%Q as Heta1 by (by vm_compute).
  assert (8 * 2 ^ 1021 <= 2 ^ 1024)%Q as Htop by (by vm_compute).
  assert (1 <= 2 ^ 1021)%Q as Htop1 by (by vm_compute).
  assert (2 ^ (-1022) <= 1 # 262144)%Q as Hlow by (by vm_compute).
  unfold unit_roundoff in *.
  assert (acc <= 2 * A)%Q as Hacc2.
  { assert (0 <= (a - (1 # 2)) * acc)%Q by (apply Qmult_le_0_compat; lra).
    lra. }
  destruct (round64_no_overflow (acc + t)) as [S1 HS1]; [lra| |].
  { unfold unit_roundoff. lra. }
  rewrite HS1.
  destruct (round64_Finite_bounds_normal (acc + t) S1) as [Hlo Hhi];
    [lra|done|].
  unfold unit_roundoff in *.
  destruct (rounded_sum_step (1 # 9007199254740992) a A acc t S1)
    as [H1' H2']; [lra..|].
  assert (0 <= S1)%Q as HS1pos.
  { assert (0 <= (1 - (1 # 9007199254740992)) * (acc + t))%Q
      by (apply Qmult_le_0_compat; lra). lra. }
  apply (IH (a - (1 # 9007199254740992))%Q S1 (A + t)%Q);
    [done|lra..].
Qed.

Lemma fsum_shifted_scores_Finite (raw_scores : list Q) :
  Forall (λ x, (Qabs x <= score_bound)%Q) raw_scores →
  (Z.of_nat (length raw_scores) < 2 ^ 25)%Z →
  ∃ σ, fsum (GeneticWalker.shifted_scores raw_scores) = Finite σ.
Proof.
  intros Hb Hlen.
  destruct (shifted_scores_bounded raw_scores Hb) as (ts & Hts & Hall).
  assert (length ts = length raw_scores) as Hn.
  { apply (f_equal length) in Hts. rewrite length_fmap in Hts.
    rewrite <- Hts. unfold GeneticWalker.shifted_scores.
    destruct raw_scores; [done|]. by rewrite length_fmap. }
  rewrite Hts. unfold fsum.
  set (n := inject_Z (Z.of_nat (length ts))).
  assert (0 <= n)%Q as Hn0.
  { subst n. change 0%Q with (inject_Z 0). rewrite <- Zle_Qle. lia. }
  assert (n <= 33554432)%Q as Hn1.
  { subst n. change 33554432%Q with (inject_Z (2 ^ 25)).
    rewrite <- Zle_Qle. lia. }
  assert (Qsum ts <= n * (5 * score_bound))%Q as Hsum.
  { subst n. clear -Hall. induction Hall as [|t ts [_ Ht] _ IH].
    - cbn [Qsum foldr length]. change (inject_Z (Z.of_nat 0)) with 0%Q.
      generalize dependent score_bound. intros. lra.
    - cbn [Qsum foldr length]. fold (Qsum ts).
      rewrite Nat2Z.inj_succ, <- Z.add_1_r, inject_Z_plus.
      change (inject_Z 1) with 1%Q.
      generalize dependent (inject_Z (Z.of_nat (length ts))).
      generalize dependent score_bound. intros. lra. }
  apply (rounded_sum_Finite ts 1 0 0).
  - eapply Forall_impl; [exact Hall|]. simpl. by intros t [? _].
  - lra.
  - lra.
  - lra.
  - fold n. unfold unit_roundoff. lra.
  - lra.
  - lra.
  - assert (n * (5 * score_bound) <= 33554432 * (5 * score_bound))%Q.
    { apply Qmult_le_compat_r; [done|by vm_compute]. }
    assert (33554432 * (5 * score_bound) <= 2 ^ 1021)%Q by (by vm_compute).
    lra.
Qed.

(** ** The model of binary64 against the floats of the kernel *)

(** On the example pairs, [round64] gives the quotient and the sum that
    the binary64 arithmetic of the kernel gives. *)
Lemma round64_as_the_kernel : forallb same_rounding example_pairs = true.
Proof. vm_compute. reflexivity. Qed.

(** On the example pools, the weights of [score_to_probability] are those
    that the three lines of [make_children] give on the floats of the
    kernel. *)
Lemma score_to_probability_as_the_kernel :
  forallb same_weights example_pools = true.
Proof. vm_compute. reflexivity. Qed.

(** The division by the sum never raises: a sum that is finite is
    positive. *)
Lemma score_to_probability_Ok (raw_scores : list Q) :
  ∃ p, GeneticWalker.score_to_probability raw_scores = Ok p
       ∧ length p = length raw_scores.
Proof.
  unfold GeneticWalker.score_to_probability.
  assert (length (GeneticWalker.shifted_scores raw_scores)
          = length raw_scores) as <-.
  { unfold GeneticWalker.shifted_scores.
    destruct raw_scores; [done|]. by rewrite length_fmap. }
  assert (∀ x, x ∈ GeneticWalker.shifted_scores raw_scores →
            ∃ y, fdiv x (fsum (GeneticWalker.shifted_scores raw_scores))
                 = Ok y) as Hdiv.
  { intros x Hx.
    destruct (fsum (GeneticWalker.shifted_scores raw_scores))
      as [σ|s|] eqn:Hsum.
    - destruct (foldl_fadd_Finite _ _ _ Hsum) as (z & ts & _ & Hts).
      pose proof (shifted_scores_least _ _ Hts) as Hleast.
      rewrite Hts in Hsum, Hx.
      destruct (fsum_lt_overflow ts 0 σ) as [Hs _];
        [by intros ->; apply elem_of_nil in Hx|lra|done|done|].
      unfold fdiv. destruct (Qeq_bool σ 0) eqn:H0.
      { apply Qeq_bool_iff in H0. lra. }
      destruct x; by eexists.
    - destruct x; by eexists.
    - by eexists. }
  generalize dependent (fsum (GeneticWalker.shifted_scores raw_scores)).
  intros total.
  induction (GeneticWalker.shifted_scores raw_scores) as [|x l IH];
    intros Hdiv.
  - by exists [].
  - destruct (Hdiv x) as [y Hy]; [by left|].
    destruct IH as (p & Hp & Hlen); [intros x' Hx'; apply Hdiv; by right|].
    exists (y :: p). cbn [rmapM]. rewrite Hy. cbn [rbind]. rewrite Hp.
    split; [done|]. simpl. by rewrite Hlen.
Qed.

(** ** The monad *)

Lemma bind_Ok {A B} (m : M A) (k : A → M B) w b w' :
  bind m k w = Ok (b, w') ↔ ∃ a w1, m w = Ok (a, w1) ∧ k a w1 = Ok (b, w').
Proof.
  unfold bind. destruct (m w) as [[a w1]|e]; split.
  - intros Hk. by exists a, w1.
  - by intros (a' & w2 & [= <- <-] & Hk).
  - intros [=].
  - by intros (a' & w2 & [=] & _).
Qed.

Lemma lift_Ok {A} (r : result A) w a w' :
  lift r w = Ok (a, w') ↔ r = Ok a ∧ w' = w.
Proof.
  unfold lift. destruct r; split.
  - by intros [= <- <-].
  - by intros [[= <-] ->].
  - intros [=].
  - by intros [[=] _].
Qed.

Lemma ret_Ok {A} (a : A) w b w' : ret a w = Ok (b, w') ↔ b = a ∧ w' = w.
Proof.
  unfold ret. split.
  - by intros [= <- <-].
  - by intros [-> ->].
Qed.

Lemma rbind_Ok {A B} (r : result A) (k : A → result B) b :
  rbind r k = Ok b ↔ ∃ a, r = Ok a ∧ k a = Ok b.
Proof.
  unfold rbind. destruct r as [a|e]; split.
  - intros Hk. by exists a.
  - by intros (a' & [= <-] & Hk).
  - intros [=].
  - by intros (a' & [=] & _).
Qed.

Lemma rmapM_length {A B} (f : A → result B) l l' :
  rmapM f l = Ok l' → length l' = length l.
Proof.
  revert l'. induction l as [|a l IH]; intros l'; simpl.
  - by intros [= <-].
  - intros (b & _ & (bs & Hbs & [= <-])%rbind_Ok)%rbind_Ok.
    simpl. f_equal. by apply IH.
Qed.

Lemma foldM_app {A S} (body : A → S → M S) l1 l2 s w :
  foldM body (l1 ++ l2) s w =
    bind (foldM body l1 s) (foldM body l2) w.
Proof.
  revert s w. induction l1 as [|a l1 IH]; intros s w; simpl.
  - reflexivity.
  - unfold bind. destruct (body a s w) as [[s1 w1]|e]; [|done].
    rewrite IH. reflexivity.
Qed.


(** ** Sorting *)

Lemma insert_desc_Permutation k m l : insert_desc k m l ≡ₚ (k, m) :: l.
Proof.
  induction l as [|[k' m'] l IH]; simpl; [done|].
  destruct (Qle_bool k' k); [done|].
  rewrite IH. apply Permutation_swap.
Qed.

Lemma insertion_sort_Permutation (keyed : list (Q * Mutant)) :
  foldr (λ km, insert_desc km.1 km.2) [] keyed ≡ₚ keyed.
Proof.
  induction keyed as [|[k m] l IH]; simpl; [done|].
  by rewrite insert_desc_Permutation, IH.
Qed.

Lemma mapM_keyed_snd (l : list Mutant) keyed :
  mapM (λ m, (λ k, (k, m)) <$> score m) l = Some keyed → keyed.*2 = l.
Proof.
  revert keyed. induction l as [|m l IH]; intros keyed; simpl.
  - by intros [= <-].
  - destruct (score m); simpl; [|done].
    destruct (mapM _ l) as [keyed'|]; simpl; [|done].
    intros [= <-]. simpl. f_equal. by apply IH.
Qed.

Lemma mapM_keyed_scored (l : list Mutant) :
  Forall scored l →
  is_Some (mapM (λ m, (λ k, (k, m)) <$> score m) l).
Proof.
  induction 1 as [|m l [q Hq] _ [keyed IH]]; simpl; [done|].
  rewrite Hq. simpl. rewrite IH. done.
Qed.

Lemma sort_by_score_Permutation l l' : sort_by_score l = Ok l' → l' ≡ₚ l.
Proof.
  unfold sort_by_score. destruct l as [|m1 [|m2 l]]; try by intros [= <-].
  destruct (mapM _ _) as [keyed|] eqn:Hk; [|done].
  intros [= <-]. apply mapM_keyed_snd in Hk. rewrite <- Hk.
  apply fmap_Permutation, insertion_sort_Permutation.
Qed.

Lemma sort_by_score_Ok l :
  Forall scored l → ∃ l', sort_by_score l = Ok l'.
Proof.
  intros Hl. unfold sort_by_score. destruct l as [|m1 [|m2 l]]; eauto.
  destruct (mapM_keyed_scored _ Hl) as [keyed ->]. eauto.
Qed.

Lemma with_random_state_Ok {A} (f : RandomState → result (A * RandomState))
    w a w' :
  with_random_state f w = Ok (a, w') ↔
    ∃ rs, f (random_state w) = Ok (a, rs) ∧ w' = mkWorld rs (py_random w).
Proof.
  unfold with_random_state. destruct (f (random_state w)) as [[a' rs]|e]; split.
  - intros [= <- <-]. by exists rs.
  - by intros (rs' & [= <- <-] & ->).
  - intros [=].
  - by intros (rs' & [=] & _).
Qed.

Lemma rmapM_Forall {A B} (f : A → result B) (P : B → Prop) l l' :
  (∀ a b, f a = Ok b → P b) → rmapM f l = Ok l' → Forall P l'.
Proof.
  intros Hf. revert l'. induction l as [|a l IH]; intros l'; simpl.
  - intros [= <-]. constructor.
  - intros (b & Hb & (bs & Hbs & [= <-])%rbind_Ok)%rbind_Ok.
    constructor; eauto.
Qed.

(** ** The weighted choice *)

Lemma draw_without_replacement_length {A} size (items : list (A * Q)) rs l rs' :
  draw_without_replacement size items rs = Ok (l, rs') → length l = size.
Proof.
  revert items rs l rs'.
  induction size as [|size IH]; intros items rs l rs'; simpl.
  - by intros [= <- <-].
  - destruct (searchsorted _ items) as [[a rest]|]; [|done].
    destruct (draw_without_replacement size rest _) as [[l0 rs2]|] eqn:Hd;
      [|done].
    intros [= <- <-]. simpl. f_equal. by eapply IH.
Qed.

Lemma choice_without_replacement_Ok {A} (a : list A) size p rs l rs' :
  choice_without_replacement a size p rs = Ok (l, rs') →
  length l = size ∧ size ≤ length a.
Proof.
  unfold choice_without_replacement. repeat case_match; try done.
  intros Hd%draw_without_replacement_length. lia.
Qed.

(** A weighted choice that returns was made on finite weights. *)
Lemma choice_weighted_Ok {A} (a : list A) size p rs l rs' :
  choice_weighted a size p rs = Ok (l, rs') →
  ∃ q, finite_values p = Some q
       ∧ choice_without_replacement a size q rs = Ok (l, rs').
Proof.
  unfold choice_weighted. destruct (finite_values p) as [q|].
  - intros Hc. by exists q.
  - repeat case_match; done.
Qed.

(** ** [GeneticWalker] *)

Section genetic_walker_facts.
Context `{Environment}.
Import GeneticWalker.

Lemma make_children_Ok self pool w children w' :
  make_children self pool w = Ok (children, w') →
  length children = n_parents self
  ∧ n_parents self ≤ length pool
  ∧ Forall scored children.
Proof.
  unfold make_children. intros Hm.
  apply bind_Ok in Hm as (raw & w1 & _ & Hm).
  apply bind_Ok in Hm as (p & w1' & _ & Hm).
  apply bind_Ok in Hm as (parents & w2 & Hp & Hm).
  apply bind_Ok in Hm as (child_seqs & w3 & _ & Hm).
  apply bind_Ok in Hm as (child_scores & w4 & _ & Hm).
  apply lift_Ok in Hm as [Hm ->].
  apply with_random_state_Ok in Hp as (rs & Hp & _).
  apply choice_weighted_Ok in Hp as (q & _ & Hp).
  apply choice_without_replacement_Ok in Hp as [Hlen Hle].
  split; [|split; [done|]].
  - apply rmapM_length in Hm. by rewrite Hm, length_seq.
  - eapply rmapM_Forall; [|exact Hm]. simpl. intros i m Hi.
    apply rbind_Ok in Hi as (? & _ & Hi). apply rbind_Ok in Hi as (? & _ & Hi).
    apply rbind_Ok in Hi as (? & _ & [= <-]). by eexists.
Qed.

Lemma generation_Ok self generation_counts g st w st' w' :
  generation self generation_counts g st w = Ok (st', w') →
  Forall scored (population st) →
  length (population st') = length (population st) + n_parents self
  ∧ n_parents self ≤ length (take (n_possible_parents self) (population st))
  ∧ Forall scored (population st').
Proof.
  unfold generation. intros Hg Hsc.
  apply bind_Ok in Hg as (children & w1 & Hc & Hg).
  apply bind_Ok in Hg as (pop & w2 & Hs & Hg).
  apply lift_Ok in Hs as [Hs ->]. apply ret_Ok in Hg as [-> ->]. simpl.
  apply make_children_Ok in Hc as (Hlen & Hle & Hcs).
  apply sort_by_score_Permutation in Hs.
  split; [|split; [done|]].
  - by rewrite Hs, length_app, Hlen.
  - rewrite Hs. by apply Forall_app.
Qed.

Lemma generations_Ok self generation_counts numbers st w st' w' :
  generations self generation_counts numbers st w = Ok (st', w') →
  Forall scored (population st) →
  length (population st')
    = length (population st) + length numbers * n_parents self
  ∧ Forall scored (population st').
Proof.
  unfold generations. revert st w.
  induction numbers as [|g numbers IH]; intros st w; simpl.
  - intros [-> ->]%ret_Ok Hsc. split; [lia|done].
  - intros (st1 & w1 & Hg & Hrest)%bind_Ok Hsc.
    apply generation_Ok in Hg as (Hlen & _ & Hsc1); [|done].
    destruct (IH _ _ Hrest Hsc1) as [Hlen' ?]. split; [lia|done].
Qed.

Lemma batch_scores_Ok inferer target seqs w :
  ∃ scores w', batch_scores inferer target seqs w = Ok (scores, w').
Proof.
  unfold batch_scores. destruct inferer; [by eexists _, _|].
  unfold with_random_state. destruct (rand _ _). by eexists _, _.
Qed.

Lemma initial_population_Ok self seeds w :
  ∃ population w',
    initial_population self seeds w = Ok (population, w')
    ∧ Forall scored population.
Proof.
  unfold initial_population.
  destruct (batch_scores_Ok (inferer self) (target_mol self) seeds w)
    as (scores & w' & Hb).
  assert (Forall scored
            ((λ '(seed_seq, seed_score),
                mkMutant seed_seq seed_seq seed_seq (Some seed_score))
               <$> zip seeds scores)) as Hsc.
  { apply Forall_fmap, Forall_forall. intros [s q] _. by eexists. }
  destruct (sort_by_score_Ok _ Hsc) as [pop' Hs].
  exists pop', w'. split.
  - apply bind_Ok. exists scores, w'. split; [done|].
    rewrite Hs. done.
  - apply sort_by_score_Permutation in Hs. by rewrite Hs.
Qed.

End genetic_walker_facts.

Lemma choice_without_replacement_too_large {A} (a : list A) size p rs :
  length a < size →
  ∃ why, choice_without_replacement a size p rs = Raise (ValueError why)
         ∧ why ∈ choice_errors.
Proof.
  intros Hlt. unfold choice_without_replacement, choice_errors.
  repeat case_match; try lia; eexists; (split; [done|]);
    repeat (first [by left | right]).
Qed.

Lemma choice_weighted_too_large {A} (a : list A) size p rs :
  length a < size →
  ∃ why, choice_weighted a size p rs = Raise (ValueError why)
         ∧ why ∈ choice_errors.
Proof.
  intros Hlt. unfold choice_weighted.
  destruct (finite_values p) as [q|];
    [by apply choice_without_replacement_too_large|].
  unfold choice_errors.
  repeat case_match; eexists; (split; [done|]);
    repeat (first [by left | right]).
Qed.

Lemma py_max_empty : py_max ∅ = Raise (ValueError "max: empty").
Proof. reflexivity. Qed.

Lemma py_max_nonempty (d : gmap nat nat) : d ≠ ∅ → ∃ n, py_max d = Ok n.
Proof.
  intros Hd. unfold py_max.
  destruct (elements (dom d)) as [|k ks] eqn:He; [|by eexists].
  apply elements_empty_inv, leibniz_equiv, dom_empty_inv_L in He. done.
Qed.

Lemma seq_split (g n : nat) :
  g ≤ n → List.seq 0 n = List.seq 0 g ++ List.seq g (n - g).
Proof.
  intros Hg. replace n with (g + (n - g)) at 1 by lia. by rewrite seq_app.
Qed.

Section genetic_walker_claims.
Context `{Environment}.
Import GeneticWalker.

Lemma raw_scores_of_Ok pool :
  Forall scored pool → ∃ raw, raw_scores_of pool = Ok raw.
Proof.
  intros Hs. unfold raw_scores_of.
  destruct (mapM_is_Some_2 score pool) as [raw ->]; [|by eexists].
  eapply Forall_impl; [exact Hs|]. done.
Qed.

Lemma make_children_too_few self pool w :
  Forall scored pool → length pool < n_parents self →
  ∃ why, make_children self pool w = Raise (ValueError why)
         ∧ why ∈ choice_errors.
Proof.
  intros Hs Hlt. destruct (raw_scores_of_Ok pool Hs) as [raw Hraw].
  destruct (score_to_probability_Ok raw) as (p & Hp & _).
  destruct (choice_weighted_too_large pool (n_parents self) p
              (random_state w) Hlt)
    as (why & Hc & Hwhy).
  exists why. split; [|done].
  unfold make_children, bind, lift, with_random_state.
  by rewrite Hraw, Hp, Hc.
Qed.

Lemma generations_app self generation_counts l1 l2 st w st' w' :
  generations self generation_counts (l1 ++ l2) st w = Ok (st', w') →
  ∃ st1 w1, generations self generation_counts l1 st w = Ok (st1, w1)
          ∧ generations self generation_counts l2 st1 w1 = Ok (st', w').
Proof. unfold generations. rewrite foldM_app. apply bind_Ok. Qed.

End genetic_walker_claims.

Section genetic_walker_theorems.
Context `{Environment}.
Import GeneticWalker.

(** C6.  In a run of [GeneticWalker] that completes [g] generations (the
    generations numbered [0 .. g-1]), the population after [k] generations,
    for every [k <= g], has the size of the initial population plus
    [k * n_parents]: it grows by [n_parents] a generation and never
    shrinks. *)
Theorem population_size_after_generations
    self seeds generation_counts w population0 w0 g st w' :
  initial_population self seeds w = Ok (population0, w0) →
  generations self generation_counts (List.seq 0 g)
    (mkWalk population0 []) w0 = Ok (st, w') →
  ∀ k, k ≤ g →
    ∃ st_k w_k,
      generations self generation_counts (List.seq 0 k)
        (mkWalk population0 []) w0 = Ok (st_k, w_k)
      ∧ length (population st_k) = length population0 + k * n_parents self.
Proof.
  intros Hinit Hrun k Hk.
  destruct (initial_population_Ok self seeds w) as (pop & w1 & Hinit' & Hsc).
  rewrite Hinit in Hinit'. injection Hinit' as <- <-.
  rewrite (seq_split k g Hk) in Hrun.
  apply generations_app in Hrun as (st_k & w_k & Hpre & _).
  exists st_k, w_k. split; [done|].
  apply generations_Ok in Hpre as [Hlen _]; [|done].
  by rewrite length_seq in Hlen.
Qed.

(** C10.  In [GeneticWalker.generate_mutants], when [n_parents] exceeds
    the size of the eligible pool of the initial population (its first
    [n_possible_parents] members), the run raises a [ValueError], raised by
    the weighted choice unless [generation_counts] is empty; and a run that
    returns had, at every generation, an eligible pool of at least
    [n_parents] members. *)
Theorem too_few_possible_parents
    self seeds generation_counts w population0 w0 :
  initial_population self seeds w = Ok (population0, w0) →
  (length (take (n_possible_parents self) population0) < n_parents self →
   ∃ why,
     generate_mutants self seeds generation_counts w = Raise (ValueError why)
     ∧ (generation_counts ≠ ∅ → why ∈ choice_errors))
  ∧ (∀ protos w',
       generate_mutants self seeds generation_counts w = Ok (protos, w') →
       ∃ last_generation,
         py_max generation_counts = Ok last_generation
         ∧ ∀ g, g ≤ last_generation →
             ∃ st w1,
               generations self generation_counts (List.seq 0 g)
                 (mkWalk population0 []) w0 = Ok (st, w1)
               ∧ n_parents self
                 ≤ length (take (n_possible_parents self) (population st))).
Proof.
  intros Hinit.
  destruct (initial_population_Ok self seeds w) as (pop & w1 & Hinit' & Hsc).
  rewrite Hinit in Hinit'. injection Hinit' as <- <-.
  split.
  - intros Hlt. unfold generate_mutants, bind at 1. rewrite Hinit.
    destruct (decide (generation_counts = ∅)) as [->|Hne].
    { exists "max: empty". split; [|done]. reflexivity. }
    destruct (py_max_nonempty _ Hne) as [last Hlast].
    destruct (make_children_too_few self
                (take (n_possible_parents self) population0) w0)
      as (why & Hc & Hwhy); [by apply Forall_take|done|].
    exists why. split; [|done].
    unfold bind at 1, lift. rewrite Hlast.
    replace (last + 1) with (S last) by lia.
    unfold generations. simpl. unfold bind, generation, bind. simpl.
    by rewrite Hc.
  - intros protos w' Hrun. unfold generate_mutants in Hrun.
    apply bind_Ok in Hrun as (pop & w2 & Hinit' & Hrun).
    rewrite Hinit in Hinit'. injection Hinit' as <- <-.
    apply bind_Ok in Hrun as (last & w3 & [Hlast ->]%lift_Ok & Hrun).
    apply bind_Ok in Hrun as (st_end & w4 & Hrun & _).
    exists last. split; [done|]. intros g Hg.
    rewrite (seq_split g (last + 1)) in Hrun by lia.
    apply generations_app in Hrun as (st & w5 & Hpre & Hpost).
    exists st, w5. split; [done|].
    replace (last + 1 - g) with (S (last - g)) in Hpost by lia.
    simpl in Hpost. unfold generations in Hpost. simpl in Hpost.
    apply bind_Ok in Hpost as (st' & w6 & Hgen & _).
    apply generations_Ok in Hpre as [_ Hsc']; [|done].
    by apply generation_Ok in Hgen as (_ & ? & _).
Qed.

End genetic_walker_theorems.

(** ** [SamplingWalker] *)

Lemma set_add_Forall (P : Mutant → Prop) s m :
  Forall P s → P m → Forall P (set_add s m).
Proof.
  intros Hs Hm. unfold set_add. destruct (existsb _ s); [done|].
  apply Forall_app. split; [done|]. by constructor.
Qed.

Lemma rmapM_Forall2 {A B} (f : A → result B) (R : A → B → Prop) l l' :
  (∀ a b, f a = Ok b → R a b) → rmapM f l = Ok l' → Forall2 R l l'.
Proof.
  intros Hf. revert l'. induction l as [|a l IH]; intros l'; simpl.
  - intros [= <-]. constructor.
  - intros (b & Hb & (bs & Hbs & [= <-])%rbind_Ok)%rbind_Ok.
    constructor; eauto.
Qed.

Section sampling_walker_facts.
Context `{Environment}.
Import SamplingWalker.

Lemma sample_loop_avoids self remaining parents to_avoid mutant_set w ms w' :
  sample_loop self remaining parents to_avoid mutant_set w = Ok (ms, w') →
  Forall (λ m, sequence m ∉ to_avoid) mutant_set →
  Forall (λ m, sequence m ∉ to_avoid) ms.
Proof.
  revert mutant_set w.
  induction remaining as [|remaining IH]; intros mutant_set w; simpl.
  - by intros [-> ->]%ret_Ok.
  - case_decide; [|by intros [-> ->]%ret_Ok].
    intros (p & w1 & _ & Hl)%bind_Ok Hs.
    apply bind_Ok in Hl as (distance & w2 & _ & Hl).
    apply bind_Ok in Hl as (mutant_seq & w3 & _ & Hl).
    apply IH in Hl; [done|].
    case_decide; [done|]. by apply set_add_Forall.
Qed.

Lemma assign_score_sequence mutant_seqs mutant_scores m m' :
  assign_score mutant_seqs mutant_scores m = Ok m' →
  sequence m' = sequence m ∧ parent m' = parent m ∧ seed m' = seed m
  ∧ scored m'.
Proof.
  unfold assign_score. intros (i & _ & (s & _ & [= <-])%rbind_Ok)%rbind_Ok.
  simpl. repeat split; by eexists.
Qed.

Lemma one_generation_avoids self n_sequences parents to_avoid w mutants w' :
  one_generation self n_sequences parents to_avoid w = Ok (mutants, w') →
  Forall (λ m, sequence m ∉ to_avoid) mutants
  ∧ length mutants ≤ n_sequences.
Proof.
  unfold one_generation. intros (ms & w1 & Hl & Hg)%bind_Ok.
  apply bind_Ok in Hg as (scores & w2 & _ & Hg).
  apply bind_Ok in Hg as (ms' & w3 & [Ha ->]%lift_Ok & Hg).
  apply bind_Ok in Hg as (sorted & w4 & [Hs ->]%lift_Ok & [-> ->]%ret_Ok).
  split; [|rewrite length_take; lia].
  apply Forall_take. rewrite (sort_by_score_Permutation _ _ Hs).
  apply sample_loop_avoids in Hl; [|constructor].
  rewrite <- (set_iteration_perm ms) in Hl.
  eapply rmapM_Forall2 in Ha;
    [|intros a b Hab; exact (proj1 (assign_score_sequence _ _ _ _ Hab))].
  clear -Hl Ha. induction Ha as [|a b l l' Hab _ IH]; [constructor|].
  apply Forall_cons in Hl as [? ?]. constructor; [by rewrite Hab|by apply IH].
Qed.

Lemma foldl_add_sequence_mono (picked : list Mutant) (s : gset string) x :
  x ∈ s → x ∈ foldl (λ s mutant, {[sequence mutant]} ∪ s) s picked.
Proof.
  revert s. induction picked as [|m picked IH]; intros s Hx; simpl; [done|].
  apply IH. apply elem_of_union. by right.
Qed.

Lemma emitted_at_app step l1 l2 :
  emitted_at step (l1 ++ l2) = emitted_at step l1 + emitted_at step l2.
Proof. unfold emitted_at. by rewrite filter_app, length_app. Qed.

Lemma emitted_at_choice_of self i step picked :
  emitted_at step (choice_of self i <$> picked)
    = if decide (step = i + 1) then length picked else 0.
Proof.
  unfold emitted_at. induction picked as [|m picked IH].
  - by case_decide.
  - rewrite fmap_cons, filter_cons. cbn [choice_of mutation_step].
    destruct (decide (step = i + 1)) as [->|Hne].
    + rewrite decide_True by done. simpl. by rewrite IH.
    + rewrite decide_False by done. by rewrite IH.
Qed.

(** What one generation of the walk of a seed adds. *)
Lemma generation_emits self generation_counts i st w st' w' x :
  generation self generation_counts i st w = Ok (st', w') →
  x ∈ selected_seq_set st →
  Forall (λ r, aptamer_sequence r ≠ x) (mutant_protos st) →
  x ∈ selected_seq_set st'
  ∧ Forall (λ r, aptamer_sequence r ≠ x) (mutant_protos st')
  ∧ ∀ step,
      emitted_at step (mutant_protos st')
        ≤ emitted_at step (mutant_protos st)
          + (if decide (step = i + 1) then count_at generation_counts i
             else 0).
Proof.
  unfold generation. intros (mutants & w1 & Hg & [-> ->]%ret_Ok)%bind_Ok Hx Hp.
  simpl. apply one_generation_avoids in Hg as [Hav _].
  split; [by apply foldl_add_sequence_mono|]. split.
  - apply Forall_app. split; [done|]. apply Forall_fmap, Forall_take.
    eapply Forall_impl; [exact Hav|]. simpl. intros m Hm Heq.
    by rewrite Heq in Hm.
  - intros step. rewrite emitted_at_app, emitted_at_choice_of.
    case_decide; [|lia]. rewrite length_take. lia.
Qed.

Lemma generations_emit self generation_counts numbers st w st' w' x :
  foldM (generation self generation_counts) numbers st w = Ok (st', w') →
  NoDup numbers →
  x ∈ selected_seq_set st →
  Forall (λ r, aptamer_sequence r ≠ x) (mutant_protos st) →
  Forall (λ r, aptamer_sequence r ≠ x) (mutant_protos st')
  ∧ ∀ i,
      emitted_at (i + 1) (mutant_protos st')
        ≤ emitted_at (i + 1) (mutant_protos st)
          + (if decide (i ∈ numbers) then count_at generation_counts i
             else 0).
Proof.
  revert st w. induction numbers as [|g numbers IH]; intros st w; simpl.
  - intros [-> ->]%ret_Ok _ _ Hp. split; [done|]. intros i. lia.
  - intros (st1 & w1 & Hg & Hrest)%bind_Ok [Hg_notin Hnd]%NoDup_cons Hx Hp.
    destruct (generation_emits _ _ _ _ _ _ _ x Hg Hx Hp) as (Hx1 & Hp1 & Hc1).
    destruct (IH _ _ Hrest Hnd Hx1 Hp1) as [Hp' Hc']. split; [done|].
    intros i. specialize (Hc' i). specialize (Hc1 (i + 1)).
    destruct (decide (i = g)) as [->|Hne].
    + rewrite decide_True in Hc1 by done.
      rewrite decide_False in Hc' by done.
      rewrite decide_True by (by left). lia.
    + rewrite decide_False in Hc1 by lia.
      destruct (decide (i ∈ numbers)) as [Hin|Hin].
      * rewrite decide_True by (by right). lia.
      * rewrite decide_False by (by intros [?|?]%elem_of_cons). lia.
Qed.

(** The records of the walk of one seed. *)
Lemma one_seed_emits self seed generation_counts w protos w' :
  generate_one_seed_mutants self seed generation_counts w = Ok (protos, w') →
  Forall (λ r, aptamer_sequence r ≠ seed) protos
  ∧ ∀ i, emitted_at (i + 1) protos ≤ count_at generation_counts i.
Proof.
  unfold generate_one_seed_mutants.
  intros (last & w1 & _ & Hrun)%bind_Ok.
  apply bind_Ok in Hrun as (st & w2 & Hrun & [-> ->]%ret_Ok).
  apply (generations_emit _ _ _ _ _ _ _ seed) in Hrun as [Hp Hc].
  - split; [done|]. intros i. specialize (Hc i).
    cbn [mutant_protos] in Hc.
    change (emitted_at (i + 1) []) with 0 in Hc. case_decide; lia.
  - apply NoDup_seq.
  - simpl. by apply elem_of_singleton.
  - constructor.
Qed.

End sampling_walker_facts.

Section sampling_walker_all_seeds.
Context `{Environment}.
Import SamplingWalker.

(** The records of a run are those of the walks of the seeds, in order. *)
Lemma generate_mutants_per_seed self seeds generation_counts acc w protos w' :
  foldM (λ seed mutant_protos,
           let* protos :=
             generate_one_seed_mutants self seed generation_counts in
           ret (mutant_protos ++ protos)) seeds acc w = Ok (protos, w') →
  ∃ per_seed,
    protos = acc ++ concat per_seed
    ∧ Forall2 (λ seed ps, ∃ w1 w2,
                 generate_one_seed_mutants self seed generation_counts w1
                 = Ok (ps, w2)) seeds per_seed.
Proof.
  revert acc w. induction seeds as [|seed seeds IH]; intros acc w; simpl.
  - intros [-> ->]%ret_Ok. exists []. split; [by rewrite app_nil_r|constructor].
  - intros (acc1 & w1 & Hs & Hrest)%bind_Ok.
    apply bind_Ok in Hs as (ps & w2 & Hps & [-> ->]%ret_Ok).
    destruct (IH _ _ Hrest) as (per_seed & -> & Hall).
    exists (ps :: per_seed). split; [by rewrite <- app_assoc|].
    constructor; [by exists w, w2|done].
Qed.

(** C8.  The records of a run of [SamplingWalker] are those of the walks
    of its seeds; the walk of a seed never emits the seed itself, and emits
    at most [generation_counts[i]] records (none when [i] is not a key) at
    generation [i], that is with [mutation_step = i + 1]. *)
Theorem sampling_walker_emits self seeds generation_counts w protos w' :
  generate_mutants self seeds generation_counts w = Ok (protos, w') →
  ∃ per_seed,
    protos = concat per_seed
    ∧ Forall2 (λ seed ps,
                 Forall (λ r, aptamer_sequence r ≠ seed) ps
                 ∧ ∀ i, emitted_at (i + 1) ps
                        ≤ count_at generation_counts i) seeds per_seed.
Proof.
  intros Hrun. unfold generate_mutants in Hrun.
  apply generate_mutants_per_seed in Hrun as (per_seed & -> & Hall).
  exists per_seed. split; [done|].
  eapply Forall2_impl; [exact Hall|]. simpl.
  intros seed ps (w1 & w2 & Hps). by eapply one_seed_emits.
Qed.

End sampling_walker_all_seeds.

(** ** Scores that do not match the batch *)




Lemma mapM_M_length {A B} (f : A → M B) l w l' w' :
  mapM_M f l w = Ok (l', w') → length l' = length l.
Proof.
  revert w l'. induction l as [|a l IH]; intros w l'; simpl.
  - by intros [-> ->]%ret_Ok.
  - intros (b & w1 & _ & (bs & w2 & Hbs & [-> ->]%ret_Ok)%bind_Ok)%bind_Ok.
    simpl. f_equal. by eapply IH.
Qed.


Lemma list_index_NoDup x l i :
  NoDup l → l !! i = Some x → list_index x l = Ok i.
Proof.
  intros Hnd Hi. unfold list_index.
  destruct (list_find (λ y, y = x) l) as [[j y]|] eqn:Hf.
  - apply list_find_Some in Hf as (Hj & -> & _).
    by rewrite (NoDup_lookup l i j x Hnd Hi Hj).
  - apply list_find_None in Hf. rewrite Forall_forall in Hf.
    destruct (Hf x); [by eapply list_elem_of_lookup_2|done].
Qed.

Lemma set_add_NoDup s m :
  NoDup (sequence <$> s) → NoDup (sequence <$> set_add s m).
Proof.
  intros Hs. unfold set_add. destruct (existsb _ s) eqn:He; [done|].
  rewrite fmap_app. apply NoDup_app. split; [done|]. split.
  - intros x Hx [->|[]%not_elem_of_nil]%elem_of_cons.
    apply list_elem_of_fmap in Hx as (m' & Hm' & Hin).
    assert (existsb (Mutant_eqb m) s = true) as Ht; [|congruence].
    apply existsb_exists. exists m'. split; [by apply list_elem_of_In|].
    unfold Mutant_eqb. by apply bool_decide_eq_true.
  - apply NoDup_singleton.
Qed.



Lemma bind_ext {A B} (m m' : M A) (k k' : A → M B) w :
  m w = m' w → (∀ a w1, k a w1 = k' a w1) → bind m k w = bind m' k' w.
Proof.
  intros Hm Hk. unfold bind. rewrite Hm.
  destruct (m' w) as [[a w1]|e]; [apply Hk|done].
Qed.

Section score_count_facts.
Context `{Environment}.

Lemma sample_loop_NoDup self remaining parents to_avoid mutant_set w ms w' :
  SamplingWalker.sample_loop self remaining parents to_avoid mutant_set w
    = Ok (ms, w') →
  NoDup (sequence <$> mutant_set) → NoDup (sequence <$> ms).
Proof.
  revert mutant_set w.
  induction remaining as [|remaining IH]; intros mutant_set w; simpl.
  - by intros [-> ->]%ret_Ok.
  - case_decide; [|by intros [-> ->]%ret_Ok].
    intros (p & w1 & _ & Hl)%bind_Ok Hs.
    apply bind_Ok in Hl as (distance & w2 & _ & Hl).
    apply bind_Ok in Hl as (mutant_seq & w3 & _ & Hl).
    apply IH in Hl; [done|].
    case_decide; [done|]. by apply set_add_NoDup.
Qed.





End score_count_facts.

Section genetic_score_count_facts.
Context `{Environment}.
Import GeneticWalker.






End genetic_score_count_facts.

(** ** Runs that return *)

Lemma length_rand n rs : length (rand n rs).1 = n.
Proof.
  revert rs. induction n as [|n IH]; intros rs; [done|].
  cbn [rand]. destruct (random_sample rs) as [x rs1].
  specialize (IH rs1). destruct (rand n rs1) as [xs rs2].
  cbn [fst length] in *. by rewrite IH.
Qed.

Lemma batch_scores_enough inferer target_mol seqs w scores w' :
  enough_scores inferer →
  batch_scores inferer target_mol seqs w = Ok (scores, w') →
  length seqs ≤ length scores.
Proof.
  intros Hf. unfold batch_scores. destruct inferer as [f|].
  - intros [-> ->]%ret_Ok. by apply Hf.
  - intros (rs & [= Hr] & ->)%with_random_state_Ok.
    pose proof (length_rand (length seqs) (random_state w)) as Hl.
    rewrite Hr in Hl. simpl in Hl. lia.
Qed.

Lemma rmapM_Ok {A B} (f : A → result B) l :
  Forall (λ a, ∃ b, f a = Ok b) l → ∃ l', rmapM f l = Ok l'.
Proof.
  induction 1 as [|a l [b Hb] _ [l' IH]]; simpl; [by eexists|].
  rewrite Hb. simpl. rewrite IH. simpl. by eexists.
Qed.

Lemma randint_Ok a b rs :
  a ≤ b → ∃ d rs', randint a b rs = Ok (d, rs') ∧ a ≤ d ≤ b.
Proof.
  intros Hab. unfold randint. rewrite decide_False by lia.
  unfold rk_interval. eexists _, _. split; [done|].
  pose proof (N.mod_upper_bound (variates rs (consumed rs))
                (N.of_nat (S (b - a)))) as Hm.
  set (d := (_ `mod` _)%N) in *.
  assert (d < N.of_nat (S (b - a)))%N by (apply Hm; lia). lia.
Qed.

Section sampling_returns.
Context `{Environment}.
Import SamplingWalker.

Lemma sample_loop_Ok self remaining parents to_avoid mutant_set w :
  two_bases → parents ≠ [] → min_distance self ≤ max_distance self →
  ∃ ms w', sample_loop self remaining parents to_avoid mutant_set w
           = Ok (ms, w').
Proof.
  intros Hbases Hp Hd. revert mutant_set w.
  induction remaining as [|remaining IH]; intros mutant_set w; simpl.
  { by eexists _, _. }
  case_decide; [|by eexists _, _].
  rewrite decide_False by (by destruct parents).
  destruct (lookup_lt_is_Some_2 parents
              ((max_trials self - remaining) `mod` length parents))
    as [p Hpi].
  { apply Nat.mod_upper_bound. by destruct parents. }
  unfold py_index. rewrite Hpi. unfold bind at 1, lift.
  destruct (randint_Ok (min_distance self) (max_distance self)
              (py_random w) Hd) as (d & rs1 & Hr & _).
  unfold bind at 1, with_py_random. rewrite Hr.
  destruct (mutate_seq_spec (sequence p) d (random_state w) Hbases)
    as (s & rs2 & Hm & _).
  unfold bind at 1, with_random_state. simpl. rewrite Hm.
  apply IH.
Qed.

(** Running out of trials is absorbed: with a parent to start from,
    [one_generation] returns, whatever number of mutants it found. *)
Lemma one_generation_returns self n_sequences parents to_avoid w :
  two_bases → parents ≠ [] → min_distance self ≤ max_distance self →
  enough_scores (inferer self) →
  ∃ mutants w',
    one_generation self n_sequences parents to_avoid w = Ok (mutants, w').
Proof.
  intros Hbases Hp Hd Hf. unfold one_generation.
  destruct (sample_loop_Ok self (max_trials self) parents to_avoid [] w
              Hbases Hp Hd) as (ms & w1 & Hl).
  unfold bind at 1. rewrite Hl.
  destruct (batch_scores_Ok (inferer self) (target_mol self)
              (sequence <$> set_iteration ms) w1) as (scores & w2 & Hb).
  unfold bind at 1. rewrite Hb.
  pose proof (batch_scores_enough _ _ _ _ _ _ Hf Hb) as Hlen.
  assert (NoDup (sequence <$> set_iteration ms)) as Hnd.
  { rewrite set_iteration_perm.
    eapply sample_loop_NoDup; [exact Hl|]. simpl. constructor. }
  destruct (rmapM_Ok (assign_score (sequence <$> set_iteration ms) scores)
              (set_iteration ms)) as [scored_ms Ha].
  { apply Forall_forall. intros m Hm.
    apply list_elem_of_lookup_1 in Hm as [j Hj].
    unfold assign_score.
    rewrite (list_index_NoDup _ _ j Hnd) by (by rewrite list_lookup_fmap, Hj).
    simpl. unfold py_index.
    destruct (lookup_lt_is_Some_2 scores j) as [s ->]; [|by eexists].
    apply lookup_lt_Some in Hj. rewrite length_fmap in Hlen. lia. }
  unfold bind at 1, lift. rewrite Ha.
  destruct (sort_by_score_Ok scored_ms) as [sorted Hs].
  { eapply rmapM_Forall; [|exact Ha]. intros m m' Hmm'.
    by apply assign_score_sequence in Hmm' as (_ & _ & _ & ?). }
  unfold bind, lift, ret. rewrite Hs. by eexists _, _.
Qed.

End sampling_returns.

Lemma filter_Forall_id {A} (P : A → Prop) `{!∀ x, Decision (P x)} l :
  Forall P l → filter P l = l.
Proof.
  induction 1 as [|x l Hx _ IH]; [done|].
  by rewrite filter_cons_True, IH.
Qed.

Lemma random_sample_range rs :
  (0 <= (random_sample rs).1)%Q ∧ ((random_sample rs).1 < 1)%Q.
Proof.
  unfold random_sample, Qle, Qlt. simpl.
  pose proof (N.mod_upper_bound (variates rs (consumed rs)) (2 ^ 53)) as Hm.
  set (d := (_ `mod` _)%N) in *.
  assert (d < 2 ^ 53)%N as Hd by (by apply Hm).
  change (2 ^ 53)%N with 9007199254740992%N in Hd.
  change (Z.pos (2 ^ 53)) with 9007199254740992%Z. lia.
Qed.

Lemma searchsorted_Some {A} (items : list (A * Q)) x :
  Forall (λ aw, (0 < aw.2)%Q) items →
  (0 <= x)%Q → (x < Qsum (items.*2))%Q →
  ∃ a rest, searchsorted x items = Some (a, rest)
            ∧ length items = S (length rest)
            ∧ Forall (λ aw, (0 < aw.2)%Q) rest.
Proof.
  intros Hpos. revert x.
  induction Hpos as [|[a w] items Hw Hpos IH]; intros x Hx0 Hx.
  - change (Qsum ([] : list (A * Q)).*2) with 0%Q in Hx. lra.
  - change (Qsum (((a, w) :: items).*2)) with (w + Qsum (items.*2))%Q in Hx.
    cbn [searchsorted snd] in *.
    destruct (Qle_bool w x) eqn:Hwx.
    + apply Qle_bool_iff in Hwx.
      destruct (IH (x - w)%Q) as (b & rest & -> & Hlen & Hrest); [lra..|].
      eexists _, _. split; [done|]. simpl. split; [lia|by constructor].
    + eexists _, _. split; [done|]. split; [done|done].
Qed.

Lemma draw_without_replacement_Ok {A} size (items : list (A * Q)) rs :
  size ≤ length items → Forall (λ aw, (0 < aw.2)%Q) items →
  ∃ l rs', draw_without_replacement size items rs = Ok (l, rs').
Proof.
  revert items rs. induction size as [|size IH]; intros items rs Hlen Hpos.
  { by eexists _, _. }
  cbn [draw_without_replacement].
  pose proof (random_sample_range rs) as [Hu0 Hu1].
  destruct (random_sample rs) as [u rs1]. simpl in Hu0, Hu1.
  assert (0 < Qsum (items.*2))%Q as Hsum.
  { apply Qsum_pos; [destruct items; [simpl in Hlen; lia|done]|].
    apply Forall_fmap.
    eapply Forall_impl; [exact Hpos|]. by intros [? ?]. }
  destruct (searchsorted_Some items (u * Qsum (items.*2))%Q Hpos)
    as (a & rest & -> & Hl & Hrest).
  { apply Qmult_le_0_compat; lra. }
  { rewrite <- (Qmult_1_l (Qsum (items.*2))) at 2.
    apply Qmult_lt_compat_r; lra. }
  destruct (IH rest rs1) as (l & rs2 & ->); [lia|done|]. by eexists _, _.
Qed.

Lemma choice_without_replacement_returns {A} (a : list A) size p rs :
  a ≠ [] → length p = length a → Forall (λ x, (0 < x)%Q) p →
  (Qabs (Qsum p - 1) <= atol)%Q → size ≤ length a →
  ∃ l rs', choice_without_replacement a size p rs = Ok (l, rs').
Proof.
  intros Ha Hlen Hpos Hsum Hsize. unfold choice_without_replacement.
  rewrite decide_False by (by destruct a).
  rewrite decide_False by (intros Hne; by apply Hne).
  replace (existsb _ p) with false; last first.
  { symmetry. apply not_true_is_false. intros (x & Hx & Hneg)%existsb_exists.
    apply negb_true_iff, not_true_iff_false in Hneg. apply Hneg.
    apply Qle_bool_iff. rewrite Forall_forall in Hpos.
    apply list_elem_of_In, Hpos in Hx. lra. }
  replace (Qle_bool _ atol) with true; last first.
  { symmetry. by apply Qle_bool_iff. }
  simpl. rewrite decide_False by lia.
  rewrite decide_False; last first.
  { rewrite filter_Forall_id, Hlen; [lia|].
    eapply Forall_impl; [exact Hpos|]. simpl. intros x Hx.
    apply negb_true_iff, not_true_iff_false. rewrite Qle_bool_iff. lra. }
  apply draw_without_replacement_Ok.
  - rewrite length_zip. lia.
  - apply Forall_forall. intros [x q] Hin. apply elem_of_zip_r in Hin.
    rewrite Forall_forall in Hpos. by apply Hpos.
Qed.

Lemma mapM_M_Ok {A B} (f : A → M B) l w :
  (∀ a w, ∃ b w', f a w = Ok (b, w')) →
  ∃ l' w', mapM_M f l w = Ok (l', w').
Proof.
  intros Hf. revert w. induction l as [|a l IH]; intros w; simpl.
  { by eexists _, _. }
  destruct (Hf a w) as (b & w1 & Hb). destruct (IH w1) as (bs & w2 & Hbs).
  unfold bind, ret. rewrite Hb, Hbs. by eexists _, _.
Qed.

Section genetic_returns.
Context `{Environment}.
Import GeneticWalker.

Lemma raw_scores_of_length pool raw_scores :
  raw_scores_of pool = Ok raw_scores → length raw_scores = length pool.
Proof.
  unfold raw_scores_of. destruct (mapM score pool) as [raw|] eqn:Hm; [|done].
  intros [= <-]. symmetry. by eapply length_mapM.
Qed.

Lemma finite_values_fmap (ws : list Q) :
  finite_values (Finite <$> ws) = Some ws.
Proof.
  unfold finite_values. induction ws as [|w ws IH]; [done|].
  rewrite fmap_cons. simpl. simpl in IH. by rewrite IH.
Qed.

Lemma raw_scores_of_within pool raw_scores :
  Forall score_within pool → raw_scores_of pool = Ok raw_scores →
  Forall (λ x, (Qabs x <= score_bound)%Q) raw_scores.
Proof.
  unfold raw_scores_of. destruct (mapM score pool) as [raw|] eqn:Hm; [|done].
  intros Hw [= <-]. apply mapM_Some_1 in Hm.
  induction Hm as [|m x pool raw Hx _ IH]; [constructor|].
  apply Forall_cons in Hw as [(s & Hs & Hb) Hw].
  constructor; [|by apply IH]. rewrite Hs in Hx. by injection Hx as <-.
Qed.

Lemma score_within_scored m : score_within m → scored m.
Proof. intros (s & Hs & _). by exists s. Qed.

Lemma rand_within n rs :
  Forall (λ x, (Qabs x <= score_bound)%Q) (rand n rs).1.
Proof.
  revert rs. induction n as [|n IH]; intros rs; [constructor|].
  cbn [rand]. pose proof (random_sample_range rs) as [Hlo Hhi].
  destruct (random_sample rs) as [x rs1]. specialize (IH rs1).
  destruct (rand n rs1) as [xs rs2]. cbn [fst] in *. constructor; [|done].
  apply Qabs_Qle_condition.
  assert (1 <= score_bound)%Q by (by vm_compute).
  generalize dependent score_bound. intros. split; lra.
Qed.

Lemma batch_scores_within inferer target_mol seqs w scores w' :
  bounded_scores inferer →
  batch_scores inferer target_mol seqs w = Ok (scores, w') →
  Forall (λ x, (Qabs x <= score_bound)%Q) scores.
Proof.
  intros Hf. unfold batch_scores. destruct inferer as [f|].
  - intros [-> ->]%ret_Ok. by apply Hf.
  - intros (rs & [= Hr] & ->)%with_random_state_Ok.
    pose proof (rand_within (length seqs) (random_state w)) as Hl.
    by rewrite Hr in Hl.
Qed.

(** The children carry scores of the model. *)
Lemma make_children_within self pool w children w' :
  bounded_scores (inferer self) →
  make_children self pool w = Ok (children, w') →
  Forall score_within children.
Proof.
  intros Hf. unfold make_children. intros Hm.
  apply bind_Ok in Hm as (raw & w1 & _ & Hm).
  apply bind_Ok in Hm as (p & w1' & _ & Hm).
  apply bind_Ok in Hm as (parents & w2 & _ & Hm).
  apply bind_Ok in Hm as (child_seqs & w3 & _ & Hm).
  apply bind_Ok in Hm as (child_scores & w4 & Hb & Hm).
  apply lift_Ok in Hm as [Hm ->].
  apply batch_scores_within in Hb; [|done].
  eapply rmapM_Forall; [|exact Hm]. simpl. intros i m Hi.
  apply rbind_Ok in Hi as (? & _ & Hi). apply rbind_Ok in Hi as (? & _ & Hi).
  apply rbind_Ok in Hi as (sc & Hsc & [= <-]).
  exists sc. split; [done|]. unfold py_index in Hsc.
  destruct (child_scores !! i) as [sc'|] eqn:Hl; [|done].
  injection Hsc as ->. rewrite Forall_forall in Hb.
  by eapply Hb, list_elem_of_lookup_2.
Qed.

Lemma initial_population_within self seeds w population w' :
  bounded_scores (inferer self) →
  initial_population self seeds w = Ok (population, w') →
  Forall score_within population.
Proof.
  intros Hf. unfold initial_population.
  intros (scores & w1 & Hb & [Hs ->]%lift_Ok)%bind_Ok.
  apply batch_scores_within in Hb; [|done].
  apply sort_by_score_Permutation in Hs. rewrite Hs.
  apply Forall_fmap, Forall_forall. intros [seed_seq seed_score] Hin.
  apply elem_of_zip_r in Hin. rewrite Forall_forall in Hb.
  exists seed_score. split; [done|]. by apply Hb.
Qed.

Lemma make_children_returns self pool w :
  two_bases → min_distance self ≤ max_distance self →
  enough_scores (inferer self) →
  Forall score_within pool → (Z.of_nat (length pool) < 2 ^ 25)%Z →
  pool ≠ [] → n_parents self ≤ length pool →
  ∃ children w', make_children self pool w = Ok (children, w').
Proof.
  intros Hbases Hd Hf Hsc Hsize Hne Hn. unfold make_children.
  destruct (raw_scores_of_Ok pool) as [raw Hraw].
  { eapply Forall_impl; [exact Hsc|]. apply score_within_scored. }
  pose proof (raw_scores_of_length _ _ Hraw) as Hrl.
  pose proof (raw_scores_of_within _ _ Hsc Hraw) as Hrb.
  unfold bind at 1, lift. rewrite Hraw.
  destruct (fsum_shifted_scores_Finite raw Hrb) as [σ Hsum]; [by rewrite Hrl|].
  destruct (score_to_probability_near_distribution raw σ)
    as (ws & Hws & Hpos & Hnear); [|by rewrite Hrl|done|].
  { intros ->. by destruct pool. }
  unfold bind at 1. rewrite Hws.
  assert (length ws = length pool) as Hwl.
  { destruct (score_to_probability_Ok raw) as (p & Hp & Hpl).
    rewrite Hws in Hp. injection Hp as <-.
    by rewrite length_fmap, Hrl in Hpl. }
  destruct (choice_without_replacement_returns pool (n_parents self)
              ws (random_state w))
    as (parents & rs1 & Hc); [done..|].
  unfold bind at 1, with_random_state, choice_weighted.
  rewrite finite_values_fmap, Hc.
  edestruct (mapM_M_Ok (λ p,
      let* distance := with_py_random
          (randint (min_distance self) (max_distance self)) in
      with_random_state (mutate_seq (sequence p) distance)) parents)
    as (child_seqs & w2 & Hcs).
  { intros p w0.
    destruct (randint_Ok (min_distance self) (max_distance self)
                (py_random w0) Hd) as (d & rs2 & Hr & _).
    destruct (mutate_seq_spec (sequence p) d (random_state w0) Hbases)
      as (s & rs3 & Hm & _).
    unfold bind, with_py_random, with_random_state. rewrite Hr. simpl.
    rewrite Hm. by eexists _, _. }
  unfold bind at 1. rewrite Hcs.
  destruct (batch_scores_Ok (inferer self) (target_mol self) child_seqs w2)
    as (child_scores & w3 & Hb).
  unfold bind at 1. rewrite Hb.
  pose proof (batch_scores_enough _ _ _ _ _ _ Hf Hb) as Hlen.
  pose proof (mapM_M_length _ _ _ _ _ Hcs) as Hcl.
  edestruct (rmapM_Ok (λ i,
      rbind (py_index "child_seqs[i]" child_seqs i) (λ child_seq,
      rbind (py_index "parents[i]" parents i) (λ p,
      rbind (py_index "child_scores[i]" child_scores i) (λ child_score,
      Ok (mkMutant child_seq (sequence p) (seed p) (Some child_score))))))
    (List.seq 0 (length parents))) as [children Hch].
  { apply Forall_forall. intros i Hi%elem_of_seq.
    destruct (lookup_lt_is_Some_2 child_seqs i) as [c Hci]; [lia|].
    destruct (lookup_lt_is_Some_2 parents i) as [p Hpi]; [lia|].
    destruct (lookup_lt_is_Some_2 child_scores i) as [s Hsi]; [lia|].
    unfold py_index. rewrite Hci, Hpi, Hsi. simpl. by eexists. }
  unfold lift. rewrite Hch. by eexists _, _.
Qed.

Lemma generation_returns self generation_counts g st w :
  two_bases → min_distance self ≤ max_distance self →
  enough_scores (inferer self) →
  (Z.of_nat (n_possible_parents self) < 2 ^ 25)%Z →
  Forall score_within (population st) →
  0 < length (take (n_possible_parents self) (population st)) →
  n_parents self ≤ length (take (n_possible_parents self) (population st)) →
  ∃ st' w', generation self generation_counts g st w = Ok (st', w').
Proof.
  intros Hbases Hd Hf Hnpp Hsc Hne Hn. unfold generation.
  destruct (make_children_returns self
              (take (n_possible_parents self) (population st)) w)
    as (children & w1 & Hc); [done..|by apply Forall_take| | |done|].
  { rewrite length_take. lia. }
  { intros Hnil. rewrite Hnil in Hne. simpl in Hne. lia. }
  unfold bind at 1. rewrite Hc.
  destruct (sort_by_score_Ok (population st ++ children)) as [pop Hs].
  { apply Forall_app. split.
    - eapply Forall_impl; [exact Hsc|]. apply score_within_scored.
    - by apply make_children_Ok in Hc as (_ & _ & ?). }
  unfold bind, lift, ret. rewrite Hs. by eexists _, _.
Qed.

Lemma generation_within self generation_counts g st w st' w' :
  bounded_scores (inferer self) →
  generation self generation_counts g st w = Ok (st', w') →
  Forall score_within (population st) →
  Forall score_within (population st').
Proof.
  intros Hf. unfold generation. intros Hg Hsc.
  apply bind_Ok in Hg as (children & w1 & Hc & Hg).
  apply bind_Ok in Hg as (pop & w2 & Hs & Hg).
  apply lift_Ok in Hs as [Hs ->]. apply ret_Ok in Hg as [-> ->]. simpl.
  apply sort_by_score_Permutation in Hs. rewrite Hs.
  apply Forall_app. split; [done|]. by eapply make_children_within.
Qed.

Lemma generations_return self generation_counts numbers st w :
  two_bases → min_distance self ≤ max_distance self →
  enough_scores (inferer self) → bounded_scores (inferer self) →
  (Z.of_nat (n_possible_parents self) < 2 ^ 25)%Z →
  Forall score_within (population st) →
  0 < length (take (n_possible_parents self) (population st)) →
  n_parents self ≤ length (take (n_possible_parents self) (population st)) →
  ∃ st' w', generations self generation_counts numbers st w = Ok (st', w').
Proof.
  intros Hbases Hd Hf Hfb Hnpp. revert st w. unfold generations.
  induction numbers as [|g numbers IH]; intros st w Hsc Hne Hn; simpl.
  { by eexists _, _. }
  destruct (generation_returns self generation_counts g st w)
    as (st1 & w1 & Hg); [done..|].
  unfold bind. rewrite Hg.
  pose proof (generation_within _ _ _ _ _ _ _ Hfb Hg Hsc) as Hsc1.
  apply generation_Ok in Hg as (Hlen & _ & _).
  { rewrite length_take in Hne, Hn.
    apply IH; [done|..]; rewrite length_take; lia. }
  eapply Forall_impl; [exact Hsc|]. apply score_within_scored.
Qed.

(** A run of [GeneticWalker] returns when the alphabet has two symbols,
    the distances form a range, the model scores every sequence with
    scores within [score_bound], fewer than [2^25] candidates are
    eligible, there is a generation to run, and [n_parents] is at most the
    size of the eligible pool of the initial population, which is not
    empty. *)
Lemma genetic_generate_mutants_returns self seeds generation_counts w
    population0 w0 :
  two_bases → min_distance self ≤ max_distance self →
  enough_scores (inferer self) → bounded_scores (inferer self) →
  (Z.of_nat (n_possible_parents self) < 2 ^ 25)%Z →
  generation_counts ≠ ∅ →
  initial_population self seeds w = Ok (population0, w0) →
  0 < length (take (n_possible_parents self) population0) →
  n_parents self ≤ length (take (n_possible_parents self) population0) →
  ∃ protos w', generate_mutants self seeds generation_counts w
               = Ok (protos, w').
Proof.
  intros Hbases Hd Hf Hfb Hnpp Hgc Hinit Hne Hn.
  pose proof (initial_population_within _ _ _ _ _ Hfb Hinit) as Hsc.
  destruct (py_max_nonempty _ Hgc) as [last Hlast].
  destruct (generations_return self generation_counts
              (List.seq 0 (last + 1)) (mkWalk population0 []) w0)
    as (st & w2 & Hrun); [done..|].
  unfold generate_mutants, bind, lift, ret. rewrite Hinit, Hlast, Hrun.
  by eexists _, _.
Qed.

End genetic_returns.

Section no_parents.
Context `{Environment}.

(** A generation that starts without parents divides by zero at its first
    trial. *)
Lemma generation_without_parents self generation_counts i st w :
  SamplingWalker.parents st = [] →
  0 < SamplingWalker.sampling_limit self →
  0 < SamplingWalker.max_trials self →
  SamplingWalker.generation self generation_counts i st w
    = Raise (ZeroDivisionError "attempts % len(parents)").
Proof.
  intros Hp Hs Ht. unfold SamplingWalker.generation, bind at 1.
  unfold SamplingWalker.one_generation, bind at 1. rewrite Hp.
  destruct (SamplingWalker.max_trials self) as [|remaining]; [lia|].
  simpl. rewrite decide_True by (simpl; lia). reflexivity.
Qed.

End no_parents.

(** ** A walk that runs out of sequences *)

Lemma size_list_to_set_le (l : list string) :
  size (list_to_set l : gset string) ≤ length l.
Proof.
  induction l as [|x l IH].
  - by rewrite list_to_set_nil, size_empty.
  - rewrite list_to_set_cons, size_union_alt, size_singleton. simpl.
    assert (size ((list_to_set l : gset string) ∖ {[x]})
              ≤ size (list_to_set l : gset string)).
    { apply subseteq_size. intros y [Hy _]%elem_of_difference. done. }
    lia.
Qed.

Lemma foldl_add_sequence (picked : list Mutant) (s : gset string) x :
  x ∈ foldl (λ s mutant, {[sequence mutant]} ∪ s) s picked
  ↔ x ∈ s ∨ x ∈ sequence <$> picked.
Proof.
  revert s. induction picked as [|m picked IH]; intros s; simpl.
  - split; [by left|]. intros [?|Hx]; [done|]. by apply not_elem_of_nil in Hx.
  - rewrite IH, elem_of_union, elem_of_singleton, elem_of_cons. tauto.
Qed.

Section running_out.
Context `{Environment}.
Import SamplingWalker.

Lemma size_one_letter (X : gset string) :
  (∀ x, x ∈ X → one_letter x) → size X ≤ length DNA_BASES.
Proof.
  intros HX.
  etrans; [apply (subseteq_size X
    (list_to_set ((λ c, String c EmptyString) <$> DNA_BASES)))|].
  - intros x Hx. apply elem_of_list_to_set, list_elem_of_fmap.
    destruct (HX x Hx) as (c & Hc & ->). by exists c.
  - etrans; [apply size_list_to_set_le|]. by rewrite length_fmap.
Qed.

Lemma mutate_seq_one_letter s d rs s' rs' :
  two_bases → one_letter s → mutate_seq s d rs = Ok (s', rs') →
  one_letter s'.
Proof.
  intros Hbases (c & Hc & ->) Hm.
  destruct (mutate_seq_spec (String c EmptyString) d rs Hbases)
    as (s2 & rs2 & Hm2 & Hlen & _ & Hsym).
  rewrite Hm in Hm2. injection Hm2 as <- <-.
  destruct s' as [|c' [|? ?]]; try done.
  destruct (decide (c' = c)) as [->|Hne]; [by exists c|].
  exists c'. split; [|done]. by apply (Hsym 0 c c').
Qed.

Lemma sample_loop_one_letter
    self remaining parents to_avoid mutant_set w ms w' :
  two_bases →
  sample_loop self remaining parents to_avoid mutant_set w = Ok (ms, w') →
  Forall (λ m, one_letter (sequence m)) parents →
  Forall (λ m, one_letter (sequence m)) mutant_set →
  Forall (λ m, one_letter (sequence m)) ms.
Proof.
  intros Hbases. revert mutant_set w.
  induction remaining as [|remaining IH]; intros mutant_set w; simpl.
  - by intros [-> ->]%ret_Ok.
  - case_decide; [|by intros [-> ->]%ret_Ok].
    intros (p & w1 & [Hp ->]%lift_Ok & Hl)%bind_Ok Hps Hs.
    apply bind_Ok in Hl as (distance & w2 & _ & Hl).
    apply bind_Ok in Hl as (mutant_seq & w3 & Hm & Hl).
    apply IH in Hl; [done..|].
    case_decide; [done|]. apply set_add_Forall; [done|]. simpl.
    apply with_random_state_Ok in Hm as (rs & Hm & _).
    eapply mutate_seq_one_letter; [done| |exact Hm].
    case_decide; [done|]. unfold py_index in Hp.
    destruct (parents !! _) as [p'|] eqn:Hpi; [|done].
    injection Hp as ->. rewrite Forall_forall in Hps.
    by eapply Hps, list_elem_of_lookup_2.
Qed.

(** The mutants of a generation are those sampled, scored. *)
Lemma one_generation_sampled self n_sequences parents to_avoid w mutants w' :
  one_generation self n_sequences parents to_avoid w = Ok (mutants, w') →
  ∃ ms w1,
    sample_loop self (max_trials self) parents to_avoid [] w = Ok (ms, w1)
    ∧ length mutants = n_sequences `min` length ms
    ∧ ∀ m, m ∈ mutants → ∃ m0, m0 ∈ ms ∧ sequence m = sequence m0.
Proof.
  unfold one_generation. intros (ms & w1 & Hl & Hg)%bind_Ok.
  apply bind_Ok in Hg as (scores & w2 & _ & Hg).
  apply bind_Ok in Hg as (ms' & w3 & [Ha ->]%lift_Ok & Hg).
  apply bind_Ok in Hg as (sorted & w4 & [Hs ->]%lift_Ok & [-> ->]%ret_Ok).
  exists ms, w1. split; [done|].
  apply sort_by_score_Permutation in Hs.
  pose proof (rmapM_length _ _ _ Ha) as Hlen.
  eapply rmapM_Forall2 in Ha;
    [|intros a b Hab; exact (proj1 (assign_score_sequence _ _ _ _ Hab))].
  split.
  - by rewrite length_take, Hs, Hlen, set_iteration_perm.
  - intros m Hm%(subseteq_take n_sequences). rewrite Hs in Hm.
    apply list_elem_of_lookup_1 in Hm as [j Hj].
    destruct (Forall2_lookup_r _ _ _ _ _ Ha Hj) as (m0 & Hm0 & Heq).
    exists m0. split; [|done].
    apply list_elem_of_lookup_2 in Hm0. by rewrite set_iteration_perm in Hm0.
Qed.

End running_out.

Section running_out_of_sequences.
Context `{Environment}.
Import SamplingWalker.

(** One generation from parents of one letter: it returns, and either it
    leaves no parent or it visits at least one more sequence. *)
Lemma generation_visits self generation_counts i st w :
  two_bases → min_distance self ≤ max_distance self →
  enough_scores (inferer self) →
  parents st ≠ [] →
  Forall (λ m, one_letter (sequence m)) (parents st) →
  (∀ x, x ∈ selected_seq_set st → one_letter x) →
  1 ≤ count_at generation_counts i →
  ∃ st' w',
    generation self generation_counts i st w = Ok (st', w')
    ∧ (parents st' = []
       ∨ (Forall (λ m, one_letter (sequence m)) (parents st')
          ∧ (∀ x, x ∈ selected_seq_set st' → one_letter x)
          ∧ size (selected_seq_set st) + 1 ≤ size (selected_seq_set st'))).
Proof.
  intros Hbases Hd Hf Hp Hpl Hsel Hc. unfold generation.
  destruct (one_generation_returns self
              (count_at generation_counts i `max` n_parents self)
              (parents st) (selected_seq_set st) w Hbases Hp Hd Hf)
    as (mutants & w1 & Hg).
  unfold bind, ret. rewrite Hg. eexists _, _. split; [done|]. simpl.
  pose proof (one_generation_avoids _ _ _ _ _ _ _ Hg) as [Hav _].
  apply one_generation_sampled in Hg as (ms & w2 & Hl & _ & Hsub).
  apply sample_loop_one_letter in Hl; [|done..|constructor].
  assert (Forall (λ m, one_letter (sequence m)) mutants) as Hml.
  { apply Forall_forall. intros m Hm.
    destruct (Hsub m Hm) as (m0 & Hm0 & ->).
    rewrite Forall_forall in Hl. by apply Hl. }
  destruct (take (n_parents self) mutants) as [|p ps] eqn:Htake; [by left|].
  right. split; [|split].
  - rewrite <- Htake. by apply Forall_take.
  - intros x [Hx|Hx]%foldl_add_sequence; [by apply Hsel|].
    apply list_elem_of_fmap in Hx as (m & -> & Hm%subseteq_take).
    rewrite Forall_forall in Hml. by apply Hml.
  - destruct mutants as [|m1 rest]; [by rewrite take_nil in Htake|].
    apply Forall_cons in Hav as [Hm1 _].
    rewrite <- (size_singleton (C:=gset string) (sequence m1)).
    rewrite Nat.add_comm, <- size_union by (by apply disjoint_singleton_l).
    apply subseteq_size. intros x Hx. apply foldl_add_sequence.
    apply elem_of_union in Hx as [->%elem_of_singleton|Hx]; [|by left].
    right. destruct (count_at generation_counts i) as [|c]; [lia|].
    simpl. by left.
Qed.

Lemma walk_runs_out self generation_counts k i st w :
  two_bases → min_distance self ≤ max_distance self →
  enough_scores (inferer self) →
  0 < sampling_limit self → 0 < max_trials self →
  (∀ j, j < length DNA_BASES → 1 ≤ count_at generation_counts j) →
  parents st ≠ [] →
  Forall (λ m, one_letter (sequence m)) (parents st) →
  (∀ x, x ∈ selected_seq_set st → one_letter x) →
  i + 1 ≤ size (selected_seq_set st) →
  length DNA_BASES < i + k →
  foldM (generation self generation_counts) (List.seq i k) st w
    = Raise (ZeroDivisionError "attempts % len(parents)").
Proof.
  intros Hbases Hd Hf Hsl Hmt Hc. revert i st w.
  induction k as [|k IH]; intros i st w Hp Hpl Hsel Hsize Hk;
    pose proof (size_one_letter _ Hsel) as Hn; [lia|].
  destruct (generation_visits self generation_counts i st w)
    as (st' & w' & Hg & Hst'); [done..|apply Hc; lia|].
  simpl. unfold bind at 1. rewrite Hg.
  destruct Hst' as [Hnil|(Hpl' & Hsel' & Hsize')].
  - destruct k as [|k]; [lia|]. simpl. unfold bind.
    by rewrite generation_without_parents.
  - destruct (parents st') as [|p ps] eqn:Hps.
    + destruct k as [|k].
      * pose proof (size_one_letter _ Hsel'). lia.
      * simpl. unfold bind. by rewrite generation_without_parents.
    + apply IH; [by rewrite Hps|by rewrite Hps|done|lia|lia].
Qed.

(** From a seed of one letter, a walk over more generations than the
    alphabet has symbols raises [ZeroDivisionError]: the sequences run out,
    a generation finds no mutant, and the next one has no parent. *)
Lemma one_letter_walk_raises self seed generation_counts last_generation w :
  two_bases → min_distance self ≤ max_distance self →
  enough_scores (inferer self) →
  0 < sampling_limit self → 0 < max_trials self →
  one_letter seed →
  py_max generation_counts = Ok last_generation →
  length DNA_BASES ≤ last_generation →
  (∀ j, j < length DNA_BASES → 1 ≤ count_at generation_counts j) →
  generate_one_seed_mutants self seed generation_counts w
    = Raise (ZeroDivisionError "attempts % len(parents)").
Proof.
  intros Hbases Hd Hf Hsl Hmt Hseed Hmax Hlast Hc.
  unfold generate_one_seed_mutants, bind at 1, lift. rewrite Hmax.
  unfold bind. rewrite (walk_runs_out self generation_counts); try done.
  - cbn [parents]. by constructor.
  - cbn [selected_seq_set]. by intros x ->%elem_of_singleton.
  - cbn [selected_seq_set]. rewrite size_singleton. lia.
  - lia.
Qed.

End running_out_of_sequences.

(** ** [mutate_seq]: the claims *)

Section mutate_seq_claims.
Context `{Environment}.

(** C3.  For a sequence [seq] of length [L] and [1 <= k <= L],
    [mutate_seq seq k] returns a string of length [L] at Hamming distance
    exactly [k] from [seq], and a position whose symbol changed holds a
    symbol of the alphabet (different from the original one). *)
Theorem mutate_seq_exact_distance seq k rs :
  two_bases → 1 ≤ k → k ≤ String.length seq →
  ∃ seq' rs', mutate_seq seq k rs = Ok (seq', rs')
    ∧ String.length seq' = String.length seq
    ∧ hamming_distance seq seq' = k
    ∧ ∀ i c c', list_ascii_of_string seq !! i = Some c →
        list_ascii_of_string seq' !! i = Some c' → c' ≠ c → c' ∈ DNA_BASES.
Proof.
  intros Hbases _ Hk.
  destruct (mutate_seq_spec seq k rs Hbases) as (seq' & rs' & Hm & Hl & Hd & Hc).
  exists seq', rs'. rewrite Nat.min_l in Hd by done. done.
Qed.

(** For [k] greater than the length [L] of [seq], the slice
    [position_list[:num_mutations]] is the whole shuffled list:
    [mutate_seq seq k] raises nothing and returns a string of length [L]
    that differs from [seq] at every one of the [L] positions, at a Hamming
    distance that is [L] and not the [k] its docstring states. *)
Lemma mutate_seq_distance_beyond_length seq k rs :
  two_bases → String.length seq < k →
  ∃ seq' rs', mutate_seq seq k rs = Ok (seq', rs')
    ∧ String.length seq' = String.length seq
    ∧ hamming_distance seq seq' = String.length seq.
Proof.
  intros Hbases Hk.
  destruct (mutate_seq_spec seq k rs Hbases) as (seq' & rs' & Hm & Hl & Hd & _).
  exists seq', rs'. rewrite Nat.min_r in Hd by lia. done.
Qed.

End mutate_seq_claims.

Lemma example_two_bases : two_bases.
Proof.
  exists "A"%char, "C"%char. unfold DNA_BASES, example_environment, ACGT.
  repeat split; [by left|by right; left|done].
Defined.

Lemma mutate_seq_exact_distance_witness :
  ∃ seq' rs',
    mutate_seq "AAAA" 2 (mkRandomState (example_variates (Some 5%N)) 0)
      = Ok (seq', rs')
    ∧ String.length seq' = String.length "AAAA"
    ∧ hamming_distance "AAAA" seq' = 2
    ∧ ∀ i c c', list_ascii_of_string "AAAA" !! i = Some c →
        list_ascii_of_string seq' !! i = Some c' → c' ≠ c → c' ∈ DNA_BASES.
Proof.
  apply (mutate_seq_exact_distance "AAAA" 2
           (mkRandomState (example_variates (Some 5%N)) 0)).
  - exact example_two_bases.
  - lia.
  - simpl. lia.
Defined.

(** C2.  Asked for 5 mutations of the sequence AC, of length 2,
    [mutate_seq] raises nothing: it returns GA, at Hamming distance 2 from
    AC, where its docstring states a distance of [num_mutations]. *)
Theorem mutate_seq_beyond_length_returns :
  String.length "AC" < 5
  ∧ value (mutate_seq "AC" 5 (mkRandomState (example_variates (Some 5%N)) 0))
    = Ok "GA"
  ∧ hamming_distance "AC" "GA" = 2.
Proof. split; [simpl; lia|]. split; vm_compute; reflexivity. Qed.

Lemma mutate_seq_distance_beyond_length_witness :
  ∃ seq' rs',
    mutate_seq "AC" 5 (mkRandomState (example_variates (Some 5%N)) 0)
      = Ok (seq', rs')
    ∧ String.length seq' = String.length "AC"
    ∧ hamming_distance "AC" seq' = String.length "AC".
Proof.
  apply (mutate_seq_distance_beyond_length "AC" 5
           (mkRandomState (example_variates (Some 5%N)) 0)).
  - exact example_two_bases.
  - simpl. lia.
Defined.

(** ** Errors: the claims *)

Section error_claims.
Context `{Environment}.

(** C4 (amended).  With an empty [generation_counts], [max] of the empty
    mapping raises [ValueError] before any generation runs: in
    [GeneticWalker.generate_mutants] for every list of seeds, once the
    seeds are scored, and in [SamplingWalker.generate_mutants] at the first
    seed.  [SamplingWalker.generate_mutants] with no seed returns the empty
    list. *)
Theorem empty_generation_counts :
  (∀ self seeds w,
     GeneticWalker.generate_mutants self seeds ∅ w
       = Raise (ValueError "max: empty"))
  ∧ (∀ self seed seeds w,
       SamplingWalker.generate_mutants self (seed :: seeds) ∅ w
         = Raise (ValueError "max: empty"))
  ∧ (∀ self w, SamplingWalker.generate_mutants self [] ∅ w = Ok ([], w)).
Proof.
  split; [|split].
  - intros self seeds w. unfold GeneticWalker.generate_mutants, bind at 1.
    destruct (initial_population_Ok self seeds w) as (pop & w' & -> & _).
    reflexivity.
  - reflexivity.
  - reflexivity.
Qed.


End error_claims.

(** ** Closed instances *)

(** C7, as stated, fails in binary64.  Six candidates with the same score
    have weights a little above [1/6]: their sum is not 1, neither exactly
    nor when it is computed in binary64.  And when the sum of the shifted
    scores overflows, the weights are not positive. *)
Lemma selection_weights_not_a_distribution :
  (GeneticWalker.score_to_probability [1; 1; 1; 1; 1; 1]%Q
     = Ok (Finite <$> replicate 6 (6004799503160662 # 2 ^ 55)%Q)
   ∧ (1 < Qsum (replicate 6 (6004799503160662 # 2 ^ 55)%Q))%Q
   ∧ fsum (Finite <$> replicate 6 (6004799503160662 # 2 ^ 55)%Q)
     = Finite (4503599627370497 # 2 ^ 52))
  ∧ GeneticWalker.score_to_probability [0; 2 ^ 1023; 2 ^ 1023]%Q
    = Ok [Finite 0; Finite 0; Finite 0].
Proof. vm_compute. repeat split; reflexivity. Qed.

Lemma selection_weights_positive_sum_near_1_witness :
  ∃ weights,
    GeneticWalker.score_to_probability [1; 1; 1; 1; 1; 1]%Q
      = Ok (Finite <$> weights)
    ∧ Forall (λ p, (0 < p)%Q) weights
    ∧ (Qabs (Qsum weights - 1) <= atol)%Q.
Proof.
  eapply (selection_weights_positive_sum_near_1 [1; 1; 1; 1; 1; 1]%Q).
  - done.
  - vm_compute. reflexivity.
  - vm_compute. reflexivity.
Defined.

Lemma population_size_after_generations_witness :
  ∃ population0 w0,
    GeneticWalker.initial_population genetic_1_or_2 ["AAAA"; "CCCC"]
      (mkWorld (GeneticWalker.initial_random_state genetic_1_or_2)
         (py_random_from 1))
      = Ok (population0, w0)
    ∧ ∀ k, k ≤ 2 →
        ∃ st_k w_k,
          GeneticWalker.generations genetic_1_or_2 {[0 := 1]} (List.seq 0 k)
            (GeneticWalker.mkWalk population0 []) w0 = Ok (st_k, w_k)
          ∧ length (GeneticWalker.population st_k)
            = length population0
              + k * GeneticWalker.n_parents genetic_1_or_2.
Proof.
  eexists _, _. split; [vm_compute; reflexivity|].
  eapply (population_size_after_generations genetic_1_or_2 ["AAAA"; "CCCC"]
            {[0 := 1]} _ _ _ 2).
  - vm_compute. reflexivity.
  - vm_compute. reflexivity.
Defined.

Lemma too_few_possible_parents_witness :
  ∃ why,
    GeneticWalker.generate_mutants genetic_3_parents ["AAAA"; "CCCC"]
      {[0 := 1]}
      (mkWorld (GeneticWalker.initial_random_state genetic_3_parents)
         (py_random_from 1))
      = Raise (ValueError why)
    ∧ (({[0 := 1]} : gmap nat nat) ≠ ∅ → why ∈ choice_errors).
Proof.
  edestruct (too_few_possible_parents genetic_3_parents ["AAAA"; "CCCC"]
               {[0 := 1]}
               (mkWorld (GeneticWalker.initial_random_state genetic_3_parents)
                  (py_random_from 1))) as [Hraise _].
  - vm_compute. reflexivity.
  - apply Hraise. vm_compute. lia.
Defined.

Lemma sampling_walker_emits_witness :
  ∃ protos w',
    SamplingWalker.generate_mutants sampling_20_trials ["A"]
      {[0 := 3; 1 := 1]}
      (mkWorld (SamplingWalker.initial_random_state sampling_20_trials)
         (py_random_from 1))
      = Ok (protos, w')
    ∧ ∃ per_seed,
        protos = concat per_seed
        ∧ Forall2 (λ seed ps,
                     Forall (λ r, aptamer_sequence r ≠ seed) ps
                     ∧ ∀ i, emitted_at (i + 1) ps
                            ≤ count_at ({[0 := 3; 1 := 1]} : gmap nat nat) i)
            ["A"] per_seed.
Proof.
  eexists _, _. split; [vm_compute; reflexivity|].
  eapply (sampling_walker_emits sampling_20_trials ["A"] {[0 := 3; 1 := 1]}
            (mkWorld (SamplingWalker.initial_random_state sampling_20_trials)
               (py_random_from 1))).
  vm_compute. reflexivity.
Defined.


(** C4, as stated, fails: a sampling walker given no seed and an empty
    [generation_counts] returns the empty list. *)
Lemma sampling_no_seed_empty_counts_returns :
  SamplingWalker.run sampling_1_or_2 [] ∅ (py_random_from 1) = Ok [].
Proof. reflexivity. Qed.


(** C1.  Two runs of a walker on the same seeds, built with the same
    [random_seed] and the same deterministic model, return different
    records when the generator of the module [random], from which
    [random.randint] draws the distances, is in different states. *)
Theorem runs_differ_on_module_random :
  emitted_sequences
    (SamplingWalker.run sampling_1_or_2 ["AAAA"] {[0 := 1]}
       (py_random_from 1)) = Ok ["ATAA"]
  ∧ emitted_sequences
      (SamplingWalker.run sampling_1_or_2 ["AAAA"] {[0 := 1]}
         (py_random_from 2)) = Ok ["ATCA"]
  ∧ emitted_sequences
      (GeneticWalker.run genetic_1_or_2 ["AAAA"; "CCCC"] {[0 := 1]}
         (py_random_from 1)) = Ok ["AAAA"]
  ∧ emitted_sequences
      (GeneticWalker.run genetic_1_or_2 ["AAAA"; "CCCC"] {[0 := 1]}
         (py_random_from 2)) = Ok ["CAGA"].
Proof. repeat split; vm_compute; reflexivity. Qed.

(** An instance with 20 trials a generation.  With the seed "A" every
    sequence at distance 1 is visited after generation 0; generation 1
    uses up its trials without a new mutant.  That is no error when
    generation 1 is the last one, and a [ZeroDivisionError] in generation 2
    otherwise. *)
Example no_mutant_then_next_generation_raises :
  emitted_sequences
    (SamplingWalker.run sampling_20_trials ["A"] {[0 := 3; 1 := 1]}
       (py_random_from 1)) = Ok ["G"; "T"; "C"]
  ∧ SamplingWalker.run sampling_20_trials ["A"] {[0 := 3; 2 := 1]}
      (py_random_from 1)
    = Raise (ZeroDivisionError "attempts % len(parents)").
Proof. split; vm_compute; reflexivity. Qed.

Lemma count_G_enough_scores : enough_scores (Some count_G).
Proof.
  intros f [= <-] seqs target_mol. unfold count_G. by rewrite length_fmap.
Qed.

(** C9.  Whatever the two random sources produce, the walk of the seed "A"
    over the generations 0 to 4, with one record asked at each, raises
    [ZeroDivisionError]: once the four sequences of one letter are visited,
    a generation uses up its trials without a new mutant, which is absorbed,
    and the generation after it has no parent to index. *)
Theorem five_generations_from_A_raise (w : World) :
  SamplingWalker.generate_mutants sampling_single_trial ["A"]
    {[0 := 1; 1 := 1; 2 := 1; 3 := 1; 4 := 1]} w
  = Raise (ZeroDivisionError "attempts % len(parents)").
Proof.
  unfold SamplingWalker.generate_mutants. cbn [foldM]. unfold bind at 1 2.
  rewrite (one_letter_walk_raises sampling_single_trial "A" _ 4); try done.
  - exact example_two_bases.
  - exact count_G_enough_scores.
  - simpl. lia.
  - simpl. lia.
  - exists "A"%char. split; [by left|done].
  - intros j Hj. simpl in Hj.
    destruct j as [|[|[|[|j]]]]; [by vm_compute..|lia].
Qed.

(** * Further properties *)

(** ** More on [sort_by_score] *)

Lemma insert_desc_sorted k m l :
  StronglySorted key_ge l → StronglySorted key_ge (insert_desc k m l).
Proof.
  induction 1 as [|[k' m'] t Ht IH Hall]; simpl.
  - repeat constructor.
  - destruct (Qle_bool k' k) eqn:Hk.
    + apply Qle_bool_iff in Hk. constructor; [by constructor|].
      constructor; [done|].
      eapply Forall_impl; [exact Hall|]. unfold key_ge. simpl.
      intros [k2 m2] H2. simpl in *. lra.
    + assert (k < k')%Q as Hlt.
      { apply Qnot_le_lt. rewrite <- Qle_bool_iff. congruence. }
      constructor; [done|].
      rewrite insert_desc_Permutation. constructor; [|done].
      unfold key_ge. simpl. lra.
Qed.

Lemma insertion_sort_sorted (keyed : list (Q * Mutant)) :
  StronglySorted key_ge (foldr (λ km, insert_desc km.1 km.2) [] keyed).
Proof.
  induction keyed as [|[k m] l IH]; simpl; [constructor|].
  by apply insert_desc_sorted.
Qed.

Lemma mapM_keyed_score (l : list Mutant) keyed :
  mapM (λ m, (λ k, (k, m)) <$> score m) l = Some keyed →
  Forall (λ km, score km.2 = Some km.1) keyed.
Proof.
  revert keyed. induction l as [|m l IH]; intros keyed; simpl.
  - intros [= <-]. constructor.
  - destruct (score m) as [k|] eqn:Hm; simpl; [|done].
    destruct (mapM _ l) as [keyed'|]; simpl; [|done].
    intros [= <-]. constructor; [done|]. by apply IH.
Qed.

Lemma keyed_sorted_by_score (keyed : list (Q * Mutant)) :
  Forall (λ km, score km.2 = Some km.1) keyed →
  StronglySorted key_ge keyed → StronglySorted score_ge (keyed.*2).
Proof.
  intros Hk Hs. induction Hs as [|[k m] t Ht IH Hall]; simpl; [constructor|].
  apply Forall_cons in Hk as [Hm Hk]. simpl in Hm.
  constructor; [by apply IH|].
  apply Forall_fmap. rewrite Forall_forall in Hk, Hall.
  apply Forall_forall. intros [k2 m2] Hin.
  specialize (Hk _ Hin). specialize (Hall _ Hin). simpl in *.
  unfold score_ge. by rewrite Hm, Hk.
Qed.

Lemma sort_by_score_StronglySorted l l' :
  sort_by_score l = Ok l' → StronglySorted score_ge l'.
Proof.
  intros Hs. unfold sort_by_score in Hs. destruct l as [|m1 [|m2 l]].
  - injection Hs as <-. constructor.
  - injection Hs as <-. repeat constructor.
  - destruct (mapM _ _) as [keyed|] eqn:Hk; [|done]. injection Hs as <-.
    apply keyed_sorted_by_score; [|apply insertion_sort_sorted].
    apply mapM_keyed_score in Hk.
    by rewrite insertion_sort_Permutation.
Qed.

(** X1.  When [sort_by_score] returns, the result holds the members of the
    input, each as often as the input, in an order where no member is
    scored above one before it. *)
Theorem sort_by_score_sorted l l' :
  sort_by_score l = Ok l' → l' ≡ₚ l ∧ StronglySorted score_ge l'.
Proof.
  intros Hs. split; [by apply sort_by_score_Permutation|].
  by eapply sort_by_score_StronglySorted.
Qed.

Lemma filter_key_is_cons q k m (l : list (Q * Mutant)) :
  filter (key_is q) ((k, m) :: l)
  = if Qeq_bool k q then (k, m) :: filter (key_is q) l
    else filter (key_is q) l.
Proof.
  destruct (Qeq_bool k q) eqn:Hkq.
  - by rewrite filter_cons_True.
  - rewrite filter_cons_False; [done|]. unfold key_is. simpl. congruence.
Qed.

Lemma filter_has_score_cons q m k (l : list Mutant) :
  score m = Some k →
  filter (has_score q) (m :: l)
  = if Qeq_bool k q then m :: filter (has_score q) l
    else filter (has_score q) l.
Proof.
  intros Hm. destruct (Qeq_bool k q) eqn:Hkq.
  - rewrite filter_cons_True; [done|]. unfold has_score. by rewrite Hm.
  - rewrite filter_cons_False; [done|]. unfold has_score. rewrite Hm.
    congruence.
Qed.

Lemma filter_insert_desc q k m l :
  filter (key_is q) (insert_desc k m l)
  = if Qeq_bool k q then (k, m) :: filter (key_is q) l
    else filter (key_is q) l.
Proof.
  induction l as [|[k' m'] t IH]; simpl.
  - apply filter_key_is_cons.
  - destruct (Qle_bool k' k) eqn:Hk.
    + apply filter_key_is_cons.
    + rewrite !(filter_key_is_cons q k' m'), IH.
      destruct (Qeq_bool k q) eqn:Hkq; [|done].
      destruct (Qeq_bool k' q) eqn:Hk'q; [|done].
      apply Qeq_bool_iff in Hkq, Hk'q.
      assert (k' <= k)%Q as Hle by (rewrite Hkq, Hk'q; apply Qle_refl).
      apply Qle_bool_iff in Hle. congruence.
Qed.

Lemma filter_insertion_sort q (keyed : list (Q * Mutant)) :
  filter (key_is q) (foldr (λ km, insert_desc km.1 km.2) [] keyed)
  = filter (key_is q) keyed.
Proof.
  induction keyed as [|[k m] l IH]; simpl; [done|].
  by rewrite filter_insert_desc, IH, filter_key_is_cons.
Qed.

Lemma filter_has_score_keyed q (keyed : list (Q * Mutant)) :
  Forall (λ km, score km.2 = Some km.1) keyed →
  filter (has_score q) (keyed.*2) = (filter (key_is q) keyed).*2.
Proof.
  induction 1 as [|[k m] l Hm _ IH]; [done|]. simpl in Hm.
  rewrite fmap_cons. simpl.
  rewrite (filter_has_score_cons q m k) by done.
  rewrite filter_key_is_cons, IH. by destruct (Qeq_bool k q).
Qed.

(** X2.  [sort_by_score] is stable: the members with a given score come
    out in the order they went in. *)
Theorem sort_by_score_stable l l' q :
  sort_by_score l = Ok l' →
  filter (has_score q) l' = filter (has_score q) l.
Proof.
  unfold sort_by_score. destruct l as [|m1 [|m2 l]].
  - by intros [= <-].
  - by intros [= <-].
  - destruct (mapM _ _) as [keyed|] eqn:Hk; [|done]. intros [= <-].
    pose proof (mapM_keyed_score _ _ Hk) as Hsc.
    rewrite filter_has_score_keyed
      by (by rewrite insertion_sort_Permutation).
    rewrite filter_insertion_sort, <- filter_has_score_keyed by done.
    by rewrite (mapM_keyed_snd _ _ Hk).
Qed.

Lemma insertion_sort_of_sorted (keyed : list (Q * Mutant)) :
  StronglySorted key_ge keyed →
  foldr (λ km, insert_desc km.1 km.2) [] keyed = keyed.
Proof.
  induction 1 as [|[k m] t Ht IH Hall]; simpl; [done|].
  rewrite IH. destruct t as [|[k' m'] t]; simpl; [done|].
  apply Forall_cons in Hall as [Hk _]. unfold key_ge in Hk. simpl in Hk.
  apply Qle_bool_iff in Hk. by rewrite Hk.
Qed.

Lemma mapM_cons_keyed (m : Mutant) (l : list Mutant) :
  mapM (λ m, (λ k, (k, m)) <$> score m) (m :: l)
  = match score m with
    | Some k =>
        match mapM (λ m, (λ k, (k, m)) <$> score m) l with
        | Some keyed => Some ((k, m) :: keyed)
        | None => None
        end
    | None => None
    end.
Proof. simpl. destruct (score m); simpl; [|done]. by destruct (mapM _ l). Qed.

Lemma mapM_keyed_of_keyed (keyed : list (Q * Mutant)) :
  Forall (λ km, score km.2 = Some km.1) keyed →
  mapM (λ m, (λ k, (k, m)) <$> score m) (keyed.*2) = Some keyed.
Proof.
  induction 1 as [|[k m] l Hm _ IH]; [done|]. simpl in Hm.
  rewrite fmap_cons. cbn [snd]. rewrite mapM_cons_keyed, Hm. simpl.
  by rewrite IH.
Qed.

(** X3.  Sorting again what [sort_by_score] returned changes nothing. *)
Theorem sort_by_score_idempotent l l' :
  sort_by_score l = Ok l' → sort_by_score l' = Ok l'.
Proof.
  unfold sort_by_score at 1. destruct l as [|m1 [|m2 l]].
  - by intros [= <-].
  - by intros [= <-].
  - destruct (mapM _ _) as [keyed|] eqn:Hk; [|done]. intros [= <-].
    pose proof (mapM_keyed_score _ _ Hk) as Hsc.
    set (sorted := foldr _ [] keyed).
    assert (Forall (λ km, score km.2 = Some km.1) sorted) as Hsc'.
    { subst sorted. by rewrite insertion_sort_Permutation. }
    unfold sort_by_score. rewrite (mapM_keyed_of_keyed _ Hsc').
    rewrite insertion_sort_of_sorted by apply insertion_sort_sorted.
    by destruct sorted as [|? [|? ?]].
Qed.

(** ** What [mutate_seq] returns, without assuming it returns *)

Lemma choice_Ok {A} (a : list A) rs v rs' :
  choice a rs = Ok (v, rs') → v ∈ a.
Proof.
  unfold choice. destruct a as [|x a]; [done|].
  destruct (rk_interval _ rs) as [idx rs1].
  destruct (_ !! idx) as [y|] eqn:Hy; [|done].
  intros [= <- <-]. by eapply list_elem_of_lookup_2.
Qed.

Section mutate_seq_returns.
Context `{Environment}.

Lemma mutate_positions_Ok positions l rs l' rs' :
  NoDup positions →
  mutate_positions positions l rs = Ok (l', rs') →
  length l' = length l
  ∧ (∀ i, i ∈ positions →
       ∃ c b, l !! i = Some c ∧ l' !! i = Some b ∧ b ∈ DNA_BASES ∧ b ≠ c)
  ∧ (∀ i, i ∉ positions → l' !! i = l !! i).
Proof.
  revert l rs. induction positions as [|i rest IH]; intros l rs Hnd; simpl.
  { intros [= <- <-]. split; [done|]. split; [|done].
    intros i Hi. by apply not_elem_of_nil in Hi. }
  apply NoDup_cons in Hnd as [Hi Hnd].
  destruct (l !! i) as [c|] eqn:Hc; [|done].
  destruct (choice _ rs) as [[b rs1]|] eqn:Hb; [|done].
  intros Hrest. apply choice_Ok, list_elem_of_filter in Hb as [Hbc Hb].
  destruct (IH _ _ Hnd Hrest) as (Hlen & Hin & Hout).
  rewrite length_insert in Hlen. split; [done|]. split.
  - intros j [->|Hj]%elem_of_cons.
    + exists c, b. rewrite (Hout i Hi).
      rewrite list_lookup_insert_eq by (by eapply lookup_lt_Some). done.
    + destruct (Hin j Hj) as (c' & b' & Hc' & ? & ? & ?).
      exists c', b'.
      rewrite list_lookup_insert_ne in Hc' by (by intros ->). done.
  - intros j Hj. apply not_elem_of_cons in Hj as [? ?].
    rewrite Hout by done. by rewrite list_lookup_insert_ne.
Qed.

Lemma mutate_seq_Ok seq num_mutations rs seq' rs' :
  mutate_seq seq num_mutations rs = Ok (seq', rs') →
  String.length seq' = String.length seq
  ∧ hamming_distance seq seq' = num_mutations `min` String.length seq
  ∧ ∀ i c c', list_ascii_of_string seq !! i = Some c →
      list_ascii_of_string seq' !! i = Some c' → c' ≠ c → c' ∈ DNA_BASES.
Proof.
  unfold mutate_seq.
  destruct (shuffle (List.seq 0 (String.length seq)) rs) as [pl rs1] eqn:Hsh.
  destruct (mutation_positions_spec (String.length seq) num_mutations rs)
    as (Hnd & Hlt & Hlen).
  rewrite Hsh in Hnd, Hlt, Hlen. simpl in Hnd, Hlt, Hlen.
  rewrite <- length_list_ascii_of_string in Hlt.
  destruct (mutate_positions _ _ rs1) as [[l' rs2]|] eqn:Hm; [|done].
  intros [= <- <-].
  destruct (mutate_positions_Ok _ _ _ _ _ Hnd Hm) as (Hl' & Hin & Hout).
  unfold hamming_distance. rewrite list_ascii_of_string_of_list_ascii.
  split; [|split].
  - by rewrite <- !length_list_ascii_of_string,
      list_ascii_of_string_of_list_ascii.
  - rewrite (differing_positions_Permutation _ l' (take num_mutations pl));
      [done..| |done].
    intros i Hi. destruct (Hin i Hi) as (c & b & -> & -> & _ & ?). congruence.
  - intros i c c' Hc Hc' Hne.
    destruct (decide (i ∈ take num_mutations pl)) as [Hi|Hi].
    + destruct (Hin i Hi) as (c0 & b & ? & ? & ? & ?). congruence.
    + rewrite Hout in Hc' by done. congruence.
Qed.

End mutate_seq_returns.

(** ** The mutants of one generation of [SamplingWalker] *)

Lemma randint_range a b rs d rs' :
  randint a b rs = Ok (d, rs') → a ≤ d ≤ b.
Proof.
  unfold randint. case_decide; [done|].
  destruct (rk_interval (b - a) rs) as [x rs1] eqn:Hx. intros [= <- <-].
  unfold rk_interval in Hx. injection Hx as <- _.
  pose proof (N.mod_upper_bound (variates rs (consumed rs))
                (N.of_nat (S (b - a)))) as Hm.
  set (v := (_ `mod` _)%N) in *.
  assert (v < N.of_nat (S (b - a)))%N by (apply Hm; lia). lia.
Qed.

Lemma with_py_random_Ok {A} (f : RandomState → result (A * RandomState))
    w a w' :
  with_py_random f w = Ok (a, w') ↔
    ∃ rs, f (py_random w) = Ok (a, rs) ∧ w' = mkWorld (random_state w) rs.
Proof.
  unfold with_py_random. destruct (f (py_random w)) as [[a' rs]|e]; split.
  - intros [= <- <-]. by exists rs.
  - by intros (rs' & [= <- <-] & ->).
  - intros [=].
  - by intros (rs' & [=] & _).
Qed.

Lemma set_add_length s m : length (set_add s m) ≤ S (length s).
Proof.
  unfold set_add. destruct (existsb _ s); [lia|].
  rewrite length_app. simpl. lia.
Qed.

Lemma StronglySorted_take {A} (R : A → A → Prop) n l :
  StronglySorted R l → StronglySorted R (take n l).
Proof.
  intros Hl. rewrite <- (take_drop n l) in Hl.
  by apply StronglySorted_app_1_l in Hl.
Qed.

Section sampling_generation.
Context `{Environment}.
Import SamplingWalker.

(** The members of the set the [while] loop builds, and their number. *)
Lemma sample_loop_members
    self remaining parents to_avoid mutant_set w ms w' :
  sample_loop self remaining parents to_avoid mutant_set w = Ok (ms, w') →
  Forall (λ m, m ∈ mutant_set
               ∨ ((sequence m ∉ to_avoid)
                  ∧ ∃ p, p ∈ parents
                         ∧ child_of (min_distance self) (max_distance self)
                             p m)) ms
  ∧ length ms ≤ length mutant_set + remaining
  ∧ length ms ≤ (length mutant_set `max` sampling_limit self).
Proof.
  revert mutant_set w.
  induction remaining as [|remaining IH]; intros mutant_set w; simpl.
  { intros [-> ->]%ret_Ok. split; [|lia].
    apply Forall_forall. intros m Hm. by left. }
  case_decide as Hlim; last first.
  { intros [-> ->]%ret_Ok. split; [|lia].
    apply Forall_forall. intros m Hm. by left. }
  intros (p & w1 & [Hp ->]%lift_Ok & Hl)%bind_Ok.
  apply bind_Ok in Hl as (distance & w2 & Hd & Hl).
  apply bind_Ok in Hl as (mutant_seq & w3 & Hm & Hl).
  apply IH in Hl as (Hall & Hlen1 & Hlen2).
  assert (p ∈ parents) as Hpin.
  { destruct (decide (length parents = 0)); [done|]. unfold py_index in Hp.
    destruct (parents !! _) as [p'|] eqn:Hpi; [|done].
    injection Hp as ->. by eapply list_elem_of_lookup_2. }
  apply with_py_random_Ok in Hd as (rs0 & Hd%randint_range & _).
  apply with_random_state_Ok in Hm as (rs & Hm%mutate_seq_Ok & _).
  destruct Hm as (Hlen & Hham & _).
  case_decide as Havoid.
  { split; [done|]. lia. }
  pose proof (set_add_length mutant_set
    (mkMutant mutant_seq (sequence p) (seed p) (Some 100000%Q))) as Hadd.
  split; [|lia].
  eapply Forall_impl; [exact Hall|]. simpl. intros m [Hin|Hnew]; [|by right].
  unfold set_add in Hin. destruct (existsb _ mutant_set); [by left|].
  apply elem_of_app in Hin as [Hin|Hin%list_elem_of_singleton]; [by left|].
  right. subst m. simpl. split; [done|]. exists p. split; [done|].
  repeat split; try done. by exists distance.
Qed.

End sampling_generation.

Section sampling_generation_mutants.
Context `{Environment}.
Import SamplingWalker.

(** The steps of [one_generation], when it returns. *)
Lemma one_generation_inv self n_sequences parents to_avoid w mutants w' :
  one_generation self n_sequences parents to_avoid w = Ok (mutants, w') →
  ∃ ms w1 scored_ms sorted,
    sample_loop self (max_trials self) parents to_avoid [] w = Ok (ms, w1)
    ∧ Forall2 (λ m m', sequence m' = sequence m ∧ parent m' = parent m
                       ∧ seed m' = seed m ∧ scored m')
        (set_iteration ms) scored_ms
    ∧ sort_by_score scored_ms = Ok sorted
    ∧ mutants = take n_sequences sorted.
Proof.
  unfold one_generation. intros (ms & w1 & Hl & Hg)%bind_Ok.
  apply bind_Ok in Hg as (scores & w2 & _ & Hg).
  apply bind_Ok in Hg as (ms' & w3 & [Ha ->]%lift_Ok & Hg).
  apply bind_Ok in Hg as (sorted & w4 & [Hs ->]%lift_Ok & [-> ->]%ret_Ok).
  exists ms, w1, ms', sorted. repeat split; try done.
  eapply rmapM_Forall2; [|exact Ha]. intros a b Hab.
  by apply assign_score_sequence in Hab.
Qed.

Lemma one_generation_spec
    self n_sequences parents to_avoid w mutants w' :
  one_generation self n_sequences parents to_avoid w = Ok (mutants, w') →
  length mutants ≤ n_sequences
  ∧ length mutants ≤ sampling_limit self
  ∧ length mutants ≤ max_trials self
  ∧ NoDup (sequence <$> mutants)
  ∧ StronglySorted score_ge mutants
  ∧ Forall (λ m, scored m
                 ∧ (sequence m ∉ to_avoid)
                 ∧ ∃ p, p ∈ parents
                        ∧ child_of (min_distance self) (max_distance self)
                            p m) mutants.
Proof.
  intros (ms & w1 & scored_ms & sorted & Hl & Hsc & Hs & ->)%one_generation_inv.
  pose proof (sort_by_score_Permutation _ _ Hs) as Hperm.
  pose proof (sample_loop_members _ _ _ _ _ _ _ _ Hl) as (Hmem & Hn1 & Hn2).
  pose proof (Forall2_length _ _ _ Hsc) as Hlen.
  rewrite set_iteration_perm in Hlen. simpl in Hn1, Hn2.
  assert (sequence <$> scored_ms = sequence <$> set_iteration ms) as Hseqs.
  { clear -Hsc. induction Hsc as [|a b l l' (Hab & _) _ IH]; [done|].
    by rewrite !fmap_cons, Hab, IH. }
  split; [rewrite length_take; lia|].
  split; [rewrite length_take, Hperm; lia|].
  split; [rewrite length_take, Hperm; lia|].
  split; [|split].
  - rewrite fmap_take. eapply sublist_NoDup; [|apply sublist_take].
    rewrite Hperm, Hseqs, set_iteration_perm.
    eapply sample_loop_NoDup; [exact Hl|]. simpl. constructor.
  - apply StronglySorted_take. by eapply sort_by_score_StronglySorted.
  - apply Forall_take. rewrite Hperm.
    rewrite <- (set_iteration_perm ms) in Hmem.
    clear -Hsc Hmem. induction Hsc as [|a b l l' Hab _ IH]; [constructor|].
    apply Forall_cons in Hmem as [Ha Hmem]. constructor; [|by apply IH].
    destruct Hab as (Hs & Hp & Hd & Hscored).
    destruct Ha as [Ha|(Hav & p & Hpin & Hpar & Hseed & Hlen & Hham)].
    { by apply not_elem_of_nil in Ha. }
    split; [done|]. split; [by rewrite Hs|]. exists p. split; [done|].
    unfold child_of. by rewrite Hs, Hp, Hd.
Qed.

(** X4.  The mutants [one_generation] returns: at most [n_sequences],
    [sampling_limit] and [max_trials] of them; their sequences differ from
    each other and are none of those to avoid; they are scored and in
    descending order of their scores; and each was made from one of the
    parents, at a distance drawn between [min_distance] and
    [max_distance]. *)
Theorem one_generation_mutants
    self n_sequences parents to_avoid w mutants w' :
  one_generation self n_sequences parents to_avoid w = Ok (mutants, w') →
  length mutants ≤ n_sequences
  ∧ length mutants ≤ sampling_limit self
  ∧ length mutants ≤ max_trials self
  ∧ NoDup (sequence <$> mutants)
  ∧ StronglySorted score_ge mutants
  ∧ Forall (λ m, scored m
                 ∧ (sequence m ∉ to_avoid)
                 ∧ ∃ p, p ∈ parents
                        ∧ child_of (min_distance self) (max_distance self)
                            p m) mutants.
Proof. apply one_generation_spec. Qed.

End sampling_generation_mutants.

(** ** The records of the walk of a seed *)

Lemma fmap_StronglySorted {A B} (R : A → A → Prop) (S : B → B → Prop)
    (f : A → B) l :
  (∀ a b, R a b → S (f a) (f b)) →
  StronglySorted R l → StronglySorted S (f <$> l).
Proof.
  intros Hf. induction 1 as [|a l Hl IH Hall]; simpl; constructor; [done|].
  apply Forall_fmap. eapply Forall_impl; [exact Hall|]. simpl. auto.
Qed.

Lemma filter_Forall_not {A} (P : A → Prop) `{!∀ x, Decision (P x)} l :
  Forall (λ x, ¬ P x) l → filter P l = [].
Proof.
  induction 1 as [|x l Hx _ IH]; [done|]. by rewrite filter_cons_False.
Qed.

Section sampling_walk.
Context `{Environment}.
Import SamplingWalker.

Lemma filter_step_choice_of self i step picked :
  filter (λ r, mutation_step r = step) (choice_of self i <$> picked)
  = if decide (step = i + 1) then choice_of self i <$> picked else [].
Proof.
  induction picked as [|m picked IH]; [by case_decide|].
  rewrite fmap_cons, filter_cons. cbn [choice_of mutation_step].
  destruct (decide (step = i + 1)) as [->|Hne].
  - rewrite decide_True by done. by rewrite IH.
  - rewrite decide_False by done. by rewrite IH.
Qed.

Lemma generation_keeps_invariant self seed0 generation_counts i st w st' w' :
  generation self generation_counts i st w = Ok (st', w') →
  walk_invariant self seed0 i st → walk_invariant self seed0 (S i) st'.
Proof.
  unfold generation.
  intros (mutants & w1 & Hg & [-> ->]%ret_Ok)%bind_Ok
    (Hpar & Hsel & Hnd & Hrec & Hsort).
  apply one_generation_spec in Hg
    as (_ & _ & _ & Hmnd & Hmsort & Hmall).
  set (n := count_at generation_counts i).
  assert (Forall (λ m, scored m
                       ∧ (sequence m ∉ selected_seq_set st)
                       ∧ seed m = seed0
                       ∧ String.length (sequence m) = String.length seed0
                       ∧ String.length (parent m) = String.length seed0
                       ∧ (i = 0 → parent m = seed0)
                       ∧ ∃ d, min_distance self ≤ d ≤ max_distance self
                              ∧ hamming_distance (parent m) (sequence m)
                                = d `min` String.length (parent m))
            mutants) as Hm.
  { eapply Forall_impl; [exact Hmall|]. simpl.
    intros m (Hsc & Hav & p & Hp & Hpa & Hse & Hlen & d & Hd & Hham).
    rewrite Forall_forall in Hpar.
    destruct (Hpar p Hp) as (Hps & Hpl & Hp0).
    split_and!; try done; try congruence.
    - intros Hi. rewrite Hpa. by apply Hp0.
    - exists d. by rewrite Hpa. }
  unfold walk_invariant. simpl. split; [|split; [|split; [|split]]].
  - apply Forall_take. eapply Forall_impl; [exact Hm|]. simpl.
    intros m (_ & _ & ? & ? & _). split_and!; [done..|lia].
  - intros r [Hr|Hr]%elem_of_app; apply foldl_add_sequence.
    + left. by apply Hsel.
    + right. apply list_elem_of_fmap in Hr as (m & -> & Hmin).
      apply list_elem_of_fmap. by exists m.
  - rewrite fmap_app. apply NoDup_app. split; [done|]. split.
    + intros x Hx Hx'.
      apply list_elem_of_fmap in Hx as (r & -> & Hr%Hsel).
      apply list_elem_of_fmap in Hx' as (r' & Hrr' & Hr').
      apply list_elem_of_fmap in Hr' as (m & -> & Hmin%subseteq_take).
      rewrite Forall_forall in Hm. destruct (Hm m Hmin) as (_ & Hav & _).
      simpl in Hrr'. by rewrite Hrr' in Hr.
    + rewrite <- list_fmap_compose.
      eapply sublist_NoDup; [exact Hmnd|].
      change (sequence <$> take n mutants) with
        ((aptamer_sequence ∘ choice_of self i) <$> take n mutants).
      rewrite fmap_take. apply sublist_take.
  - apply Forall_app. split.
    + eapply Forall_impl; [exact Hrec|]. simpl.
      intros r (? & ? & ? & ? & ? & ? & [? ?] & ?). split_and!; try done; lia.
    + apply Forall_fmap, Forall_take. eapply Forall_impl; [exact Hm|].
      simpl. intros m (Hsc & _ & Hse & Hl & Hpl & Hp0 & Hd).
      unfold mutated_record. cbn [choice_of aptamer_sequence
        previous_sequence seed_sequence model_score model_name mutation_type
        mutation_step].
      split_and!; try done; try lia.
      intros Hi. apply Hp0. lia.
  - intros step. rewrite filter_app, filter_step_choice_of.
    destruct (decide (step = i + 1)) as [->|Hne];
      [|rewrite app_nil_r; apply Hsort].
    replace (filter _ (mutant_protos st)) with (@nil Choice); last first.
    { symmetry. apply filter_Forall_not. apply Forall_forall. intros r Hr.
      rewrite Forall_forall in Hrec.
      destruct (Hrec r Hr) as (_ & _ & _ & _ & _ & _ & ? & _). lia. }
    simpl. eapply fmap_StronglySorted; [|by apply StronglySorted_take].
    intros a b. unfold score_ge, record_score_ge. simpl. done.
Qed.

End sampling_walk.

Section sampling_walk_records.
Context `{Environment}.

Lemma generations_keep_invariant
    self seed0 generation_counts k i st w st' w' :
  foldM (SamplingWalker.generation self generation_counts) (List.seq i k)
    st w = Ok (st', w') →
  walk_invariant self seed0 i st → walk_invariant self seed0 (i + k) st'.
Proof.
  revert i st w. induction k as [|k IH]; intros i st w; simpl.
  - intros [-> ->]%ret_Ok. by rewrite Nat.add_0_r.
  - intros (st1 & w1 & Hg & Hrest)%bind_Ok Hinv.
    replace (i + S k) with (S i + k) by lia.
    eapply IH; [exact Hrest|]. by eapply generation_keeps_invariant.
Qed.

Lemma initial_walk_invariant self seed0 :
  walk_invariant self seed0 0
    (SamplingWalker.mkWalk [mkMutant seed0 seed0 seed0 None] {[seed0]} []).
Proof.
  unfold walk_invariant. simpl. split_and!.
  - by repeat constructor.
  - intros r Hr. by apply not_elem_of_nil in Hr.
  - constructor.
  - constructor.
  - intros step. constructor.
Qed.

(** The walk of a seed ends in a state that satisfies the invariant. *)
Lemma generate_one_seed_mutants_inv self seed0 generation_counts w protos w' :
  SamplingWalker.generate_one_seed_mutants self seed0 generation_counts w
    = Ok (protos, w') →
  ∃ last_generation st,
    py_max generation_counts = Ok last_generation
    ∧ protos = SamplingWalker.mutant_protos st
    ∧ walk_invariant self seed0 (last_generation + 1) st.
Proof.
  unfold SamplingWalker.generate_one_seed_mutants.
  intros (last & w1 & [Hlast ->]%lift_Ok & Hrun)%bind_Ok.
  apply bind_Ok in Hrun as (st & w2 & Hrun & [-> ->]%ret_Ok).
  exists last, st. split; [done|]. split; [done|].
  apply (generations_keep_invariant self seed0) in Hrun;
    [done|apply initial_walk_invariant].
Qed.

(** X5.  Every record of the walk of a seed names that seed, has a
    sequence of the seed's length, carries a score, the walker's model name
    and the sampling method, and a [mutation_step] between 1 and the last
    generation number plus 1. *)
Theorem sampling_records_tagged self seed0 generation_counts w protos w' :
  SamplingWalker.generate_one_seed_mutants self seed0 generation_counts w
    = Ok (protos, w') →
  ∃ last_generation,
    py_max generation_counts = Ok last_generation
    ∧ Forall (λ r, seed_sequence r = seed0
                   ∧ String.length (aptamer_sequence r) = String.length seed0
                   ∧ is_Some (model_score r)
                   ∧ model_name r = SamplingWalker.model_name self
                   ∧ mutation_type r = METHOD_SIMPLE_SAMPLING
                   ∧ 1 ≤ mutation_step r ≤ last_generation + 1) protos.
Proof.
  intros (last & st & Hlast & -> & (_ & _ & _ & Hrec & _))
    %generate_one_seed_mutants_inv.
  exists last. split; [done|].
  eapply Forall_impl; [exact Hrec|]. simpl.
  intros r (? & ? & _ & ? & ? & ? & ? & _). done.
Qed.

(** X6.  In the walk of a seed, the sequence of every record has the
    length of its previous sequence and differs from it at [d] positions
    (at all of them if the sequence is shorter), for a [d] between
    [min_distance] and [max_distance]; the previous sequence of a record of
    the first generation is the seed. *)
Theorem sampling_records_distance self seed0 generation_counts w protos w' :
  SamplingWalker.generate_one_seed_mutants self seed0 generation_counts w
    = Ok (protos, w') →
  Forall (λ r, mutated_record (SamplingWalker.min_distance self)
                 (SamplingWalker.max_distance self) r
               ∧ (mutation_step r = 1 → previous_sequence r = seed0)) protos.
Proof.
  intros (last & st & Hlast & -> & (_ & _ & _ & Hrec & _))
    %generate_one_seed_mutants_inv.
  eapply Forall_impl; [exact Hrec|]. simpl.
  intros r (_ & _ & ? & _ & _ & _ & _ & ?). done.
Qed.

(** X7.  The walk of a seed emits no sequence twice. *)
Theorem sampling_records_distinct self seed0 generation_counts w protos w' :
  SamplingWalker.generate_one_seed_mutants self seed0 generation_counts w
    = Ok (protos, w') →
  NoDup (aptamer_sequence <$> protos).
Proof.
  by intros (last & st & Hlast & -> & (_ & _ & ? & _))
    %generate_one_seed_mutants_inv.
Qed.

(** X8.  In the walk of a seed, the records of one generation come in
    descending order of their scores. *)
Theorem sampling_records_sorted
    self seed0 generation_counts w protos w' step :
  SamplingWalker.generate_one_seed_mutants self seed0 generation_counts w
    = Ok (protos, w') →
  StronglySorted record_score_ge
    (filter (λ r, mutation_step r = step) protos).
Proof.
  intros (last & st & Hlast & -> & (_ & _ & _ & _ & Hsort))
    %generate_one_seed_mutants_inv.
  apply Hsort.
Qed.

End sampling_walk_records.

(** ** The children of one generation of [GeneticWalker] *)

Lemma searchsorted_Permutation {A} (x : Q) (items : list (A * Q)) a rest :
  searchsorted x items = Some (a, rest) → ∃ w, items ≡ₚ (a, w) :: rest.
Proof.
  revert x rest. induction items as [|[b w] t IH]; intros x rest; simpl.
  { done. }
  destruct (Qle_bool w x).
  - destruct (searchsorted _ t) as [[c rest']|] eqn:Hs; [|done].
    intros [= -> <-]. destruct (IH _ _ Hs) as [w' Hp].
    exists w'. rewrite Hp. apply Permutation_swap.
  - intros [= -> <-]. by exists w.
Qed.

Lemma draw_without_replacement_submseteq {A} size (items : list (A * Q))
    rs l rs' :
  draw_without_replacement size items rs = Ok (l, rs') → l ⊆+ items.*1.
Proof.
  revert items rs l rs'.
  induction size as [|size IH]; intros items rs l rs'; simpl.
  { intros [= <- <-]. apply submseteq_nil_l. }
  destruct (searchsorted _ items) as [[a rest]|] eqn:Hs; [|done].
  destruct (draw_without_replacement size rest _) as [[l0 rs2]|] eqn:Hd;
    [|done].
  intros [= <- <-]. apply searchsorted_Permutation in Hs as [w Hp].
  rewrite Hp. simpl. apply submseteq_skip. by eapply IH.
Qed.

Lemma choice_without_replacement_submseteq {A} (a : list A) size p rs l rs' :
  choice_without_replacement a size p rs = Ok (l, rs') → l ⊆+ a.
Proof.
  unfold choice_without_replacement. repeat case_match; try done.
  intros Hd%draw_without_replacement_submseteq.
  rewrite fst_zip in Hd; [done|]. lia.
Qed.

Lemma mapM_M_Forall2 {A B} (f : A → M B) (R : A → B → Prop) l w l' w' :
  (∀ a w b w', f a w = Ok (b, w') → R a b) →
  mapM_M f l w = Ok (l', w') → Forall2 R l l'.
Proof.
  intros Hf. revert w l'. induction l as [|a l IH]; intros w l'; simpl.
  - intros [-> ->]%ret_Ok. constructor.
  - intros (b & w1 & Hb & (bs & w2 & Hbs & [-> ->]%ret_Ok)%bind_Ok)%bind_Ok.
    constructor; eauto.
Qed.

Section genetic_children.
Context `{Environment}.

Lemma make_children_spec self pool w children w' :
  GeneticWalker.make_children self pool w = Ok (children, w') →
  ∃ parents,
    parents ⊆+ pool
    ∧ length parents = GeneticWalker.n_parents self
    ∧ Forall2 (λ p c, scored c
                      ∧ child_of (GeneticWalker.min_distance self)
                          (GeneticWalker.max_distance self) p c)
        parents children.
Proof.
  unfold GeneticWalker.make_children. intros Hm.
  apply bind_Ok in Hm as (raw & w1 & _ & Hm).
  apply bind_Ok in Hm as (weights & w1' & _ & Hm).
  apply bind_Ok in Hm as (parents & w2 & Hp & Hm).
  apply bind_Ok in Hm as (child_seqs & w3 & Hcs & Hm).
  apply bind_Ok in Hm as (child_scores & w4 & _ & Hm).
  apply lift_Ok in Hm as [Hm ->].
  apply with_random_state_Ok in Hp as (rs & Hp & _).
  apply choice_weighted_Ok in Hp as (probabilities & _ & Hp).
  exists parents. split; [by eapply choice_without_replacement_submseteq|].
  split; [by apply choice_without_replacement_Ok in Hp as [? _]|].
  eapply (mapM_M_Forall2 _ (λ p s,
            String.length s = String.length (sequence p)
            ∧ ∃ d, GeneticWalker.min_distance self ≤ d
                     ≤ GeneticWalker.max_distance self
                   ∧ hamming_distance (sequence p) s
                     = d `min` String.length (sequence p))) in Hcs;
    last first.
  { intros p w0 s w0' (d & w5 & Hd & Hs)%bind_Ok.
    apply with_py_random_Ok in Hd as (rs1 & Hd%randint_range & _).
    apply with_random_state_Ok in Hs as (rs2 & Hs%mutate_seq_Ok & _).
    destruct Hs as (Hlen & Hham & _). split; [done|]. by exists d. }
  pose proof (rmapM_length _ _ _ Hm) as Hlen. rewrite length_seq in Hlen.
  apply Forall2_same_length_lookup_2; [done|].
  intros i p c Hpi Hci.
  eapply (rmapM_Forall2 _ (λ i c, ∃ s p,
            child_seqs !! i = Some s ∧ parents !! i = Some p
            ∧ scored c ∧ sequence c = s ∧ parent c = sequence p
            ∧ seed c = seed p)) in Hm; last first.
  { intros j m Hj. unfold py_index in Hj.
    destruct (child_seqs !! j) as [s|]; [|done].
    destruct (parents !! j) as [q|]; [|done].
    destruct (child_scores !! j) as [x|]; [|done].
    simpl in Hj. injection Hj as <-. exists s, q. simpl.
    split_and!; try done. by eexists. }
  destruct (Forall2_lookup_r _ _ _ _ _ Hm Hci) as (j & Hj & s & q & Hs & Hq
    & Hsc & Hseq & Hpar & Hseed).
  apply lookup_seq in Hj as [-> _]. simpl in *.
  rewrite Hpi in Hq. injection Hq as <-.
  destruct (Forall2_lookup_l _ _ _ _ _ Hcs Hpi) as (s' & Hs' & Hl & d & Hd
    & Hham).
  rewrite Hs in Hs'. injection Hs' as <-.
  split; [done|]. unfold child_of. rewrite Hseq.
  split_and!; try done. by exists d.
Qed.

(** X9.  [make_children] returns [n_parents] children.  The parents it
    selects are members of [possible_parents], none selected more often
    than it occurs there; each child is scored, records its parent's
    sequence and seed, has the parent's length, and differs from the parent
    at as many positions as a distance drawn between [min_distance] and
    [max_distance] (at all of them if the sequence is shorter). *)
Theorem make_children_from_distinct_parents self pool w children w' :
  GeneticWalker.make_children self pool w = Ok (children, w') →
  length children = GeneticWalker.n_parents self
  ∧ ∃ parents,
      parents ⊆+ pool
      ∧ Forall2 (λ p c, scored c
                        ∧ child_of (GeneticWalker.min_distance self)
                            (GeneticWalker.max_distance self) p c)
          parents children.
Proof.
  intros (parents & Hsub & Hlen & Hall)%make_children_spec.
  split; [by rewrite <- (Forall2_length _ _ _ Hall)|].
  by exists parents.
Qed.

End genetic_children.

(** ** The population and the records of [GeneticWalker] *)

Section genetic_walk.
Context `{Environment}.

Lemma filter_step_genetic_choice_of self g step picked :
  filter (λ r, mutation_step r = step)
    (GeneticWalker.choice_of self g <$> picked)
  = if decide (step = g) then GeneticWalker.choice_of self g <$> picked
    else [].
Proof.
  induction picked as [|m picked IH]; [by case_decide|].
  rewrite fmap_cons, filter_cons.
  cbn [GeneticWalker.choice_of mutation_step].
  destruct (decide (step = g)) as [->|Hne].
  - rewrite decide_True by done. by rewrite IH.
  - rewrite decide_False by done. by rewrite IH.
Qed.

(** The steps of a generation, when it returns. *)
Lemma genetic_generation_inv self generation_counts g st w st' w' :
  GeneticWalker.generation self generation_counts g st w = Ok (st', w') →
  ∃ children w1,
    GeneticWalker.make_children self
      (take (GeneticWalker.n_possible_parents self)
         (GeneticWalker.population st)) w = Ok (children, w1)
    ∧ sort_by_score (GeneticWalker.population st ++ children)
      = Ok (GeneticWalker.population st')
    ∧ GeneticWalker.mutant_protos st'
      = GeneticWalker.mutant_protos st
          ++ (GeneticWalker.choice_of self g
                <$> take (count_at generation_counts g)
                      (GeneticWalker.population st')).
Proof.
  unfold GeneticWalker.generation. intros Hg.
  apply bind_Ok in Hg as (children & w1 & Hc & Hg).
  apply bind_Ok in Hg as (pop & w2 & [Hs ->]%lift_Ok & [-> ->]%ret_Ok).
  exists children, w1. simpl. split; [done|]. split; [done|].
  unfold count_at. destruct (generation_counts !! g); simpl; [done|].
  by rewrite app_nil_r.
Qed.

Lemma genetic_generation_keeps_invariant
    self seeds generation_counts population0 i st w st' w' :
  GeneticWalker.generation self generation_counts i st w = Ok (st', w') →
  genetic_invariant self seeds generation_counts population0 i st →
  genetic_invariant self seeds generation_counts population0 (S i) st'.
Proof.
  intros (children & w1 & Hc & Hs & Hprotos)%genetic_generation_inv
    (Hmem & Hsorted & Hsub & Hlen & Hrec & Hcount & Hrsort).
  apply make_children_spec in Hc as (parents & Hpsub & Hplen & Hch).
  pose proof (sort_by_score_Permutation _ _ Hs) as Hperm.
  pose proof (Forall2_length _ _ _ Hch) as Hclen.
  assert (Forall (population_member seeds (GeneticWalker.min_distance self)
                    (GeneticWalker.max_distance self))
            (GeneticWalker.population st')) as Hmem'.
  { rewrite Hperm. apply Forall_app. split; [done|].
    assert (Forall (population_member seeds
                      (GeneticWalker.min_distance self)
                      (GeneticWalker.max_distance self)) parents) as Hpar.
    { apply Forall_forall. intros p Hp.
      eapply elem_of_submseteq in Hp; [|exact Hpsub].
      apply subseteq_take in Hp. rewrite Forall_forall in Hmem.
      by apply Hmem. }
    clear -Hch Hpar. induction Hch as [|p c ps cs Hpc _ IH]; [constructor|].
    apply Forall_cons in Hpar as [Hp Hpar]. constructor; [|by apply IH].
    destruct Hpc as (Hsc & Hpa & Hse & Hl & d & Hd & Hham).
    destruct Hp as (Hseed & Hpl & _ & _).
    unfold population_member. rewrite Hse, Hpa, Hl.
    split_and!; try done. right. split; [done|]. by exists d. }
  unfold genetic_invariant. split_and!.
  - done.
  - by eapply sort_by_score_StronglySorted.
  - rewrite Hperm. etrans; [exact Hsub|]. by apply submseteq_inserts_r.
  - rewrite Hperm, length_app, Hlen. lia.
  - rewrite Hprotos. apply Forall_app. split.
    + eapply Forall_impl; [exact Hrec|]. simpl.
      intros r (? & ? & ? & ? & ?). split_and!; try done. lia.
    + apply Forall_fmap, Forall_forall. intros m Hm.
      assert (is_Some (generation_counts !! i)) as Hkey.
      { unfold count_at in Hm. destruct (generation_counts !! i); [done|].
        simpl in Hm. by apply not_elem_of_nil in Hm. }
      apply subseteq_take in Hm. rewrite Forall_forall in Hmem'.
      destruct (Hmem' m Hm) as (Hseed & Hl & Hsc & Hlin). simpl.
      split_and!; try done; lia.
  - intros g. rewrite Hprotos, emitted_at_app, Hcount.
    unfold emitted_at. rewrite filter_step_genetic_choice_of.
    destruct (decide (g = i)) as [->|Hne].
    + rewrite decide_False, decide_True by lia.
      rewrite length_fmap, length_take, Hperm, length_app, Hlen. lia.
    + destruct (decide (g < i)).
      * rewrite decide_True by lia. simpl. lia.
      * rewrite decide_False by lia. simpl. lia.
  - intros g. rewrite Hprotos, filter_app, filter_step_genetic_choice_of.
    destruct (decide (g = i)) as [->|Hne];
      [|rewrite app_nil_r; apply Hrsort].
    replace (filter _ (GeneticWalker.mutant_protos st))
      with (@nil Choice); last first.
    { symmetry. apply filter_Forall_not. apply Forall_forall. intros r Hr.
      rewrite Forall_forall in Hrec.
      destruct (Hrec r Hr) as (_ & _ & _ & _ & ?). lia. }
    simpl. eapply fmap_StronglySorted;
      [|apply StronglySorted_take; by eapply sort_by_score_StronglySorted].
    intros a b. unfold score_ge, record_score_ge. simpl. done.
Qed.

End genetic_walk.

Lemma py_max_above (d : gmap nat nat) last_generation g :
  py_max d = Ok last_generation → last_generation < g → d !! g = None.
Proof.
  unfold py_max. destruct (elements (dom d)) as [|k ks] eqn:He; [done|].
  intros [= <-] Hg. apply not_elem_of_dom. intros Hin.
  apply elem_of_elements in Hin. rewrite He in Hin.
  apply max_list_elem_of_le in Hin. simpl in *. lia.
Qed.

Section genetic_walk_records.
Context `{Environment}.

Lemma genetic_generations_keep_invariant
    self seeds generation_counts population0 k i st w st' w' :
  GeneticWalker.generations self generation_counts (List.seq i k) st w
    = Ok (st', w') →
  genetic_invariant self seeds generation_counts population0 i st →
  genetic_invariant self seeds generation_counts population0 (i + k) st'.
Proof.
  unfold GeneticWalker.generations.
  revert i st w. induction k as [|k IH]; intros i st w; simpl.
  - intros [-> ->]%ret_Ok. by rewrite Nat.add_0_r.
  - intros (st1 & w1 & Hg & Hrest)%bind_Ok Hinv.
    replace (i + S k) with (S i + k) by lia.
    eapply IH; [exact Hrest|].
    by eapply genetic_generation_keeps_invariant.
Qed.

Lemma initial_genetic_invariant
    self seeds generation_counts w population0 w0 :
  GeneticWalker.initial_population self seeds w = Ok (population0, w0) →
  genetic_invariant self seeds generation_counts population0 0
    (GeneticWalker.mkWalk population0 []).
Proof.
  unfold GeneticWalker.initial_population.
  intros (scores & w1 & _ & [Hs _]%lift_Ok)%bind_Ok.
  pose proof (sort_by_score_Permutation _ _ Hs) as Hperm.
  unfold genetic_invariant.
  cbn [GeneticWalker.population GeneticWalker.mutant_protos]. split_and!.
  - rewrite Hperm. apply Forall_fmap, Forall_forall.
    intros [s q] Hin%elem_of_zip_l. unfold population_member. simpl.
    split_and!; try done; [by eexists|by left].
  - by eapply sort_by_score_StronglySorted.
  - done.
  - lia.
  - constructor.
  - intros g. by rewrite decide_False by lia.
  - intros g. constructor.
Qed.

(** A run that returns ends in a state that satisfies the invariant. *)
Lemma genetic_generate_mutants_inv self seeds generation_counts w protos w' :
  GeneticWalker.generate_mutants self seeds generation_counts w
    = Ok (protos, w') →
  ∃ population0 w0 last_generation st,
    GeneticWalker.initial_population self seeds w = Ok (population0, w0)
    ∧ py_max generation_counts = Ok last_generation
    ∧ protos = GeneticWalker.mutant_protos st
    ∧ genetic_invariant self seeds generation_counts population0
        (last_generation + 1) st.
Proof.
  unfold GeneticWalker.generate_mutants.
  intros (pop0 & w0 & Hinit & Hrun)%bind_Ok.
  apply bind_Ok in Hrun as (last & w1 & [Hlast ->]%lift_Ok & Hrun).
  apply bind_Ok in Hrun as (st & w2 & Hrun & [-> ->]%ret_Ok).
  exists pop0, w0, last, st. split_and!; try done.
  eapply (genetic_generations_keep_invariant _ seeds) in Hrun;
    [done|]. by eapply initial_genetic_invariant.
Qed.

(** X10.  A generation of [GeneticWalker] removes no member: the new
    population holds the old one and [n_parents] children, in descending
    order of the scores, and the records added are those of its first
    [generation_counts[g]] members (none when [g] is not a key). *)
Theorem genetic_generation_keeps_members
    self generation_counts g st w st' w' :
  GeneticWalker.generation self generation_counts g st w = Ok (st', w') →
  ∃ children,
    length children = GeneticWalker.n_parents self
    ∧ GeneticWalker.population st'
      ≡ₚ GeneticWalker.population st ++ children
    ∧ StronglySorted score_ge (GeneticWalker.population st')
    ∧ GeneticWalker.mutant_protos st'
      = GeneticWalker.mutant_protos st
          ++ (GeneticWalker.choice_of self g
                <$> take (count_at generation_counts g)
                      (GeneticWalker.population st')).
Proof.
  intros (children & w1 & Hc & Hs & Hprotos)%genetic_generation_inv.
  exists children. split_and!.
  - by apply make_children_Ok in Hc as (? & _).
  - by apply sort_by_score_Permutation.
  - by eapply sort_by_score_StronglySorted.
  - done.
Qed.

(** X11.  A run of [GeneticWalker] returns, for every generation [g],
    exactly [generation_counts[g]] records tagged [g] (none when [g] is not
    a key), or the whole population of that generation, initial size plus
    [(g + 1) * n_parents], when it is smaller. *)
Theorem genetic_records_count self seeds generation_counts w protos w' :
  GeneticWalker.generate_mutants self seeds generation_counts w
    = Ok (protos, w') →
  ∃ population0 w0,
    GeneticWalker.initial_population self seeds w = Ok (population0, w0)
    ∧ ∀ g, emitted_at g protos
           = count_at generation_counts g
             `min` (length population0
                    + (g + 1) * GeneticWalker.n_parents self).
Proof.
  intros (pop0 & w0 & last & st & Hinit & Hlast & -> & Hinv)
    %genetic_generate_mutants_inv.
  exists pop0, w0. split; [done|]. intros g.
  destruct Hinv as (_ & _ & _ & _ & _ & Hcount & _). rewrite Hcount.
  case_decide; [done|].
  unfold count_at. rewrite (py_max_above _ _ g Hlast) by lia. done.
Qed.

(** X12.  Every record a run of [GeneticWalker] returns descends from one
    of the seeds and has that seed's length, carries a score, the walker's
    model name and the genetic method, is tagged with a requested
    generation, and is either a seed itself or a mutant of its previous
    sequence at a distance drawn between [min_distance] and
    [max_distance]. *)
Theorem genetic_records_lineage self seeds generation_counts w protos w' :
  GeneticWalker.generate_mutants self seeds generation_counts w
    = Ok (protos, w') →
  Forall (λ r, population_record seeds (GeneticWalker.min_distance self)
                 (GeneticWalker.max_distance self) r
               ∧ model_name r = GeneticWalker.model_name self
               ∧ mutation_type r = METHOD_GENETIC_ALGORITHM
               ∧ is_Some (generation_counts !! mutation_step r)) protos.
Proof.
  intros (pop0 & w0 & last & st & Hinit & Hlast & -> & Hinv)
    %genetic_generate_mutants_inv.
  destruct Hinv as (_ & _ & _ & _ & Hrec & _).
  eapply Forall_impl; [exact Hrec|]. simpl. intros r (? & ? & ? & ? & _).
  done.
Qed.

(** X13.  The records a run of [GeneticWalker] returns for one generation
    come in descending order of their scores. *)
Theorem genetic_records_sorted self seeds generation_counts w protos w' g :
  GeneticWalker.generate_mutants self seeds generation_counts w
    = Ok (protos, w') →
  StronglySorted record_score_ge (filter (λ r, mutation_step r = g) protos).
Proof.
  intros (pop0 & w0 & last & st & Hinit & Hlast & -> & Hinv)
    %genetic_generate_mutants_inv.
  destruct Hinv as (_ & _ & _ & _ & _ & _ & Hsort). apply Hsort.
Qed.

(** X14.  After any number of generations the population of
    [GeneticWalker] still holds every member of the initial population;
    its members descend from the seeds, each with its seed's length, and
    it is in descending order of the scores. *)
Theorem genetic_population_keeps_seeds
    self seeds generation_counts w population0 w0 g st w' :
  GeneticWalker.initial_population self seeds w = Ok (population0, w0) →
  GeneticWalker.generations self generation_counts (List.seq 0 g)
    (GeneticWalker.mkWalk population0 []) w0 = Ok (st, w') →
  population0 ⊆+ GeneticWalker.population st
  ∧ Forall (population_member seeds (GeneticWalker.min_distance self)
              (GeneticWalker.max_distance self))
      (GeneticWalker.population st)
  ∧ StronglySorted score_ge (GeneticWalker.population st).
Proof.
  intros Hinit Hrun.
  eapply (genetic_generations_keep_invariant _ seeds) in Hrun;
    [|by eapply initial_genetic_invariant].
  destruct Hrun as (? & ? & ? & _). done.
Qed.

End genetic_walk_records.

(** ** Runs that do not depend on the module [random] *)

Lemma py_independent_ret {A} (a : A) : py_independent (ret a).
Proof. intros w1 w2 Hw. by simpl. Qed.

Lemma py_independent_lift {A} (r : result A) : py_independent (lift r).
Proof. intros w1 w2 Hw. unfold lift. by destruct r. Qed.

Lemma py_independent_with_random_state {A}
    (f : RandomState → result (A * RandomState)) :
  py_independent (with_random_state f).
Proof.
  intros w1 w2 Hw. unfold with_random_state. rewrite Hw.
  by destruct (f (random_state w2)) as [[a rs]|e].
Qed.

Lemma py_independent_bind {A B} (m : M A) (k : A → M B) :
  py_independent m → (∀ a, py_independent (k a)) →
  py_independent (bind m k).
Proof.
  intros Hm Hk w1 w2 Hw. unfold bind. specialize (Hm w1 w2 Hw).
  destruct (m w1) as [[a1 w1']|e1], (m w2) as [[a2 w2']|e2]; try done.
  destruct Hm as [-> Hw']. by apply Hk.
Qed.

Lemma py_independent_foldM {A S} (body : A → S → M S) l s :
  (∀ a s, py_independent (body a s)) → py_independent (foldM body l s).
Proof.
  intros Hb. revert s. induction l as [|a l IH]; intros s; simpl.
  - apply py_independent_ret.
  - apply py_independent_bind; [apply Hb|apply IH].
Qed.

Lemma py_independent_mapM_M {A B} (f : A → M B) l :
  (∀ a, py_independent (f a)) → py_independent (mapM_M f l).
Proof.
  intros Hf. induction l as [|a l IH]; simpl.
  - apply py_independent_ret.
  - apply py_independent_bind; [apply Hf|]. intros b.
    apply py_independent_bind; [apply IH|]. intros bs.
    apply py_independent_ret.
Qed.

(** [random.randint(a, a)] is [a], whatever the generator. *)
Lemma py_independent_randint a :
  py_independent (with_py_random (randint a a)).
Proof.
  intros w1 w2 Hw. unfold with_py_random, randint, rk_interval.
  destruct (decide (a < a)); [lia|]. rewrite Nat.sub_diag.
  change (N.of_nat 1) with 1%N. rewrite !N.mod_1_r. simpl. by split.
Qed.

Lemma py_independent_batch_scores inferer target_mol seqs :
  py_independent (batch_scores inferer target_mol seqs).
Proof.
  unfold batch_scores. destruct inferer.
  - apply py_independent_ret.
  - apply py_independent_with_random_state.
Qed.

Lemma py_independent_run {A} (m : M A) rs py1 py2 :
  py_independent m →
  value (m (mkWorld rs py1)) = value (m (mkWorld rs py2)).
Proof.
  intros Hm. specialize (Hm (mkWorld rs py1) (mkWorld rs py2) eq_refl).
  destruct (m _) as [[a1 w1]|e1], (m _) as [[a2 w2]|e2]; try done.
  - by destruct Hm as [-> _].
  - by subst.
Qed.

Section independent_runs.
Context `{Environment}.

Lemma py_independent_sample_loop self remaining parents to_avoid mutant_set :
  SamplingWalker.min_distance self = SamplingWalker.max_distance self →
  py_independent
    (SamplingWalker.sample_loop self remaining parents to_avoid mutant_set).
Proof.
  intros Hd. revert mutant_set.
  induction remaining as [|remaining IH]; intros mutant_set; simpl.
  { apply py_independent_ret. }
  case_decide; [|apply py_independent_ret].
  apply py_independent_bind; [apply py_independent_lift|]. intros p.
  apply py_independent_bind.
  { rewrite Hd. apply py_independent_randint. }
  intros d. apply py_independent_bind;
    [apply py_independent_with_random_state|]. intros s. apply IH.
Qed.

Lemma py_independent_sampling_generate_mutants self seeds generation_counts :
  SamplingWalker.min_distance self = SamplingWalker.max_distance self →
  py_independent
    (SamplingWalker.generate_mutants self seeds generation_counts).
Proof.
  intros Hd. unfold SamplingWalker.generate_mutants.
  apply py_independent_foldM. intros seed protos.
  apply py_independent_bind; [|intros ?; apply py_independent_ret].
  unfold SamplingWalker.generate_one_seed_mutants.
  apply py_independent_bind; [apply py_independent_lift|]. intros last.
  apply py_independent_bind; [|intros ?; apply py_independent_ret].
  apply py_independent_foldM. intros i st.
  unfold SamplingWalker.generation.
  apply py_independent_bind; [|intros ?; apply py_independent_ret].
  unfold SamplingWalker.one_generation.
  apply py_independent_bind; [by apply py_independent_sample_loop|].
  intros ms. apply py_independent_bind;
    [apply py_independent_batch_scores|]. intros scores.
  apply py_independent_bind; [apply py_independent_lift|]. intros ms'.
  apply py_independent_bind; [apply py_independent_lift|]. intros sorted.
  apply py_independent_ret.
Qed.

Lemma py_independent_genetic_generate_mutants self seeds generation_counts :
  GeneticWalker.min_distance self = GeneticWalker.max_distance self →
  py_independent
    (GeneticWalker.generate_mutants self seeds generation_counts).
Proof.
  intros Hd. unfold GeneticWalker.generate_mutants.
  apply py_independent_bind.
  { unfold GeneticWalker.initial_population.
    apply py_independent_bind; [apply py_independent_batch_scores|].
    intros scores. apply py_independent_lift. }
  intros pop. apply py_independent_bind; [apply py_independent_lift|].
  intros last.
  apply py_independent_bind; [|intros ?; apply py_independent_ret].
  unfold GeneticWalker.generations. apply py_independent_foldM.
  intros g st. unfold GeneticWalker.generation.
  apply py_independent_bind.
  { unfold GeneticWalker.make_children.
    apply py_independent_bind; [apply py_independent_lift|]. intros raw.
    apply py_independent_bind; [apply py_independent_lift|]. intros weights.
    apply py_independent_bind; [apply py_independent_with_random_state|].
    intros parents. apply py_independent_bind.
    { apply py_independent_mapM_M. intros p.
      apply py_independent_bind.
      { rewrite Hd. apply py_independent_randint. }
      intros d. apply py_independent_with_random_state. }
    intros child_seqs. apply py_independent_bind;
      [apply py_independent_batch_scores|]. intros child_scores.
    apply py_independent_lift. }
  intros children. apply py_independent_bind; [apply py_independent_lift|].
  intros pop'. apply py_independent_ret.
Qed.

(** X15.  With [min_distance = max_distance], a run of [SamplingWalker]
    returns the same records, or raises the same exception, whatever the
    state of the generator of the module [random]. *)
Theorem sampling_run_ignores_module_random
    self seeds generation_counts py1 py2 :
  SamplingWalker.min_distance self = SamplingWalker.max_distance self →
  SamplingWalker.run self seeds generation_counts py1
  = SamplingWalker.run self seeds generation_counts py2.
Proof.
  intros Hd. apply (py_independent_run _ _ py1 py2).
  by apply py_independent_sampling_generate_mutants.
Qed.

(** X16.  With [min_distance = max_distance], a run of [GeneticWalker]
    returns the same records, or raises the same exception, whatever the
    state of the generator of the module [random]. *)
Theorem genetic_run_ignores_module_random
    self seeds generation_counts py1 py2 :
  GeneticWalker.min_distance self = GeneticWalker.max_distance self →
  GeneticWalker.run self seeds generation_counts py1
  = GeneticWalker.run self seeds generation_counts py2.
Proof.
  intros Hd. apply (py_independent_run _ _ py1 py2).
  by apply py_independent_genetic_generate_mutants.
Qed.

End independent_runs.

(** ** Edges of the configuration and of the input *)

Lemma foldM_accumulate {A B} (f : A → M (list B)) l acc w :
  foldM (λ a acc, let* bs := f a in ret (acc ++ bs)) l acc w
  = bind (foldM (λ a acc, let* bs := f a in ret (acc ++ bs)) l [])
      (λ bs, ret (acc ++ bs)) w.
Proof.
  unfold bind, ret. revert acc w.
  induction l as [|a l IH]; intros acc w; simpl.
  - by rewrite app_nil_r.
  - unfold bind. destruct (f a w) as [[bs w1]|e]; simpl; [|done].
    rewrite (IH (acc ++ bs)), (IH bs).
    destruct (foldM _ l [] w1) as [[cs w2]|e]; simpl; [|done].
    by rewrite app_assoc.
Qed.

Section edges.
Context `{Environment}.

(** X17.  On the concatenation of two lists of seeds, [SamplingWalker]
    returns the records of the first list followed by those of the second,
    the second being run from the state of the random sources the first
    leaves. *)
Theorem sampling_generate_mutants_app self seeds1 seeds2 generation_counts w :
  SamplingWalker.generate_mutants self (seeds1 ++ seeds2) generation_counts w
  = (let* protos1 :=
       SamplingWalker.generate_mutants self seeds1 generation_counts in
     let* protos2 :=
       SamplingWalker.generate_mutants self seeds2 generation_counts in
     ret (protos1 ++ protos2)) w.
Proof.
  unfold SamplingWalker.generate_mutants. rewrite foldM_app.
  apply bind_ext; [done|]. intros protos1 w1. apply foldM_accumulate.
Qed.

Lemma one_generation_no_trial self n_sequences parents to_avoid w :
  SamplingWalker.max_trials self = 0 ∨ SamplingWalker.sampling_limit self = 0 →
  SamplingWalker.one_generation self n_sequences parents to_avoid w
  = Ok ([], w).
Proof.
  intros Hno. unfold SamplingWalker.one_generation.
  assert (SamplingWalker.sample_loop self (SamplingWalker.max_trials self)
            parents to_avoid [] w = Ok ([], w)) as Hl.
  { destruct Hno as [->|Hs]; [done|].
    destruct (SamplingWalker.max_trials self); [done|]. simpl.
    rewrite decide_False; [done|]. simpl. lia. }
  unfold bind at 1. rewrite Hl.
  assert (set_iteration [] = []) as ->
    by apply Permutation_nil_r, set_iteration_perm.
  unfold batch_scores. destruct w as [rs py].
  destruct (SamplingWalker.inferer self);
    unfold bind, with_random_state, ret, lift; simpl; by rewrite take_nil.
Qed.

Lemma sampling_walk_no_trial self generation_counts numbers st w :
  SamplingWalker.max_trials self = 0 ∨ SamplingWalker.sampling_limit self = 0 →
  SamplingWalker.mutant_protos st = [] →
  ∃ st', foldM (SamplingWalker.generation self generation_counts) numbers
           st w = Ok (st', w)
         ∧ SamplingWalker.mutant_protos st' = [].
Proof.
  intros Hno. revert st. induction numbers as [|i numbers IH]; intros st Hst.
  - by exists st.
  - simpl. unfold bind at 1, SamplingWalker.generation, bind at 1.
    rewrite one_generation_no_trial by done. unfold ret at 1.
    apply IH. simpl. rewrite Hst. by rewrite take_nil.
Qed.

Lemma generate_one_seed_no_trial self seed generation_counts w :
  SamplingWalker.max_trials self = 0 ∨ SamplingWalker.sampling_limit self = 0 →
  generation_counts ≠ ∅ →
  SamplingWalker.generate_one_seed_mutants self seed generation_counts w
  = Ok ([], w).
Proof.
  intros Hno Hgc. destruct (py_max_nonempty _ Hgc) as [last Hlast].
  unfold SamplingWalker.generate_one_seed_mutants, bind at 1.
  unfold lift. rewrite Hlast. unfold bind at 1.
  edestruct (sampling_walk_no_trial self generation_counts
               (List.seq 0 (last + 1))) as (st' & -> & Hst'); [done| |].
  { done. }
  unfold ret. by rewrite Hst'.
Qed.

(** X18.  When [max_trials] or [sampling_limit] is 0, [SamplingWalker]
    makes no trial: for every list of seeds and every non-empty
    [generation_counts] the run returns no record, raises nothing, and
    leaves the random sources as they were. *)
Theorem sampling_no_trial_returns_nothing self seeds generation_counts w :
  SamplingWalker.max_trials self = 0 ∨ SamplingWalker.sampling_limit self = 0 →
  generation_counts ≠ ∅ →
  SamplingWalker.generate_mutants self seeds generation_counts w = Ok ([], w).
Proof.
  intros Hno Hgc. unfold SamplingWalker.generate_mutants.
  induction seeds as [|seed seeds IH]; [done|]. simpl.
  unfold bind at 1 2. rewrite generate_one_seed_no_trial by done.
  unfold ret at 1. simpl. apply IH.
Qed.

Lemma sample_loop_empty_range self remaining parents to_avoid w :
  SamplingWalker.max_distance self < SamplingWalker.min_distance self →
  0 < SamplingWalker.sampling_limit self →
  parents ≠ [] →
  SamplingWalker.sample_loop self (S remaining) parents to_avoid [] w
  = Raise (ValueError "randint: empty range").
Proof.
  intros Hd Hs Hp. simpl. rewrite decide_True by (simpl; lia).
  assert (length parents ≠ 0) as Hlen by by destruct parents.
  destruct (decide (length parents = 0)) as [|_]; [done|].
  unfold py_index.
  destruct (lookup_lt_is_Some_2 parents
              ((SamplingWalker.max_trials self - remaining)
                 mod length parents)) as [p Hlk].
  { by apply Nat.mod_upper_bound. }
  rewrite Hlk. unfold bind at 1, lift, bind at 1, with_py_random, randint.
  by rewrite decide_True.
Qed.

(** X19.  When [max_distance] is below [min_distance], a run of
    [SamplingWalker] that makes a trial raises the [ValueError] of
    [random.randint] on an empty range. *)
Theorem sampling_empty_distance_range self seed seeds generation_counts w :
  SamplingWalker.max_distance self < SamplingWalker.min_distance self →
  0 < SamplingWalker.sampling_limit self →
  0 < SamplingWalker.max_trials self →
  generation_counts ≠ ∅ →
  SamplingWalker.generate_mutants self (seed :: seeds) generation_counts w
  = Raise (ValueError "randint: empty range").
Proof.
  intros Hd Hs Ht Hgc. destruct (py_max_nonempty _ Hgc) as [last Hlast].
  unfold SamplingWalker.generate_mutants. simpl.
  unfold bind at 1 2, SamplingWalker.generate_one_seed_mutants, bind at 1.
  unfold lift. rewrite Hlast.
  replace (last + 1) with (S last) by lia. simpl.
  unfold bind at 1 2, SamplingWalker.generation, bind at 1.
  unfold SamplingWalker.one_generation, bind at 1.
  destruct (SamplingWalker.max_trials self) as [|remaining] eqn:Hmt; [lia|].
  by rewrite sample_loop_empty_range.
Qed.

Lemma make_children_no_parent self w :
  GeneticWalker.make_children self [] w
  = Raise (ValueError "choice: a must be non-empty").
Proof. reflexivity. Qed.

(** X20.  Without a seed, a run of [GeneticWalker] raises a [ValueError]:
    that of [max] when [generation_counts] is empty, and otherwise one of
    the choice of parents, made in an empty population. *)
Theorem genetic_no_seed_raises self generation_counts w :
  ∃ origin,
    GeneticWalker.generate_mutants self [] generation_counts w
    = Raise (ValueError origin)
    ∧ (generation_counts = ∅ → origin = "max: empty")
    ∧ (generation_counts ≠ ∅ → origin ∈ choice_errors).
Proof.
  unfold GeneticWalker.generate_mutants, bind at 1.
  assert (∃ w0, GeneticWalker.initial_population self [] w = Ok ([], w0))
    as [w0 ->].
  { unfold GeneticWalker.initial_population, batch_scores, bind.
    destruct (GeneticWalker.inferer self); by eexists. }
  destruct (decide (generation_counts = ∅)) as [->|Hgc].
  - by exists "max: empty".
  - destruct (py_max_nonempty _ Hgc) as [last Hlast].
    exists "choice: a must be non-empty". split_and!.
    + unfold bind at 1, lift. rewrite Hlast.
      replace (last + 1) with (S last) by lia.
      unfold GeneticWalker.generations. simpl.
      unfold bind at 1 2, GeneticWalker.generation, bind at 1.
      cbn [GeneticWalker.population]. rewrite take_nil.
      by rewrite make_children_no_parent.
    + done.
    + intros _. unfold choice_errors. set_solver.
Qed.

End edges.

(** ** Conditions under which the walkers return *)

Section returning.
Context `{Environment}.

(** X21.  Running out of trials is no error: with an alphabet of two
    symbols, a parent to start from, a range of distances and a model that
    scores every sequence, [one_generation] returns, whatever number of
    mutants its trials found. *)
Theorem one_generation_total self n_sequences parents to_avoid w :
  two_bases → parents ≠ [] →
  SamplingWalker.min_distance self ≤ SamplingWalker.max_distance self →
  enough_scores (SamplingWalker.inferer self) →
  ∃ mutants w',
    SamplingWalker.one_generation self n_sequences parents to_avoid w
    = Ok (mutants, w').
Proof. apply one_generation_returns. Qed.

(** X22.  A run of [GeneticWalker] returns when the alphabet has two
    symbols, the distances form a range, the model scores every sequence
    with scores of magnitude at most [2^990] (so that the sums of
    [make_children] do not overflow in binary64), [n_possible_parents] is
    below [2^25] (so that the rounded weights sum to 1 within the tolerance
    of numpy), [generation_counts] is not empty, and the first
    [n_possible_parents] members of the initial population are at least one
    and at least [n_parents]. *)
Theorem genetic_run_total self seeds generation_counts w population0 w0 :
  two_bases →
  GeneticWalker.min_distance self ≤ GeneticWalker.max_distance self →
  enough_scores (GeneticWalker.inferer self) →
  bounded_scores (GeneticWalker.inferer self) →
  (Z.of_nat (GeneticWalker.n_possible_parents self) < 2 ^ 25)%Z →
  generation_counts ≠ ∅ →
  GeneticWalker.initial_population self seeds w = Ok (population0, w0) →
  0 < length (take (GeneticWalker.n_possible_parents self) population0) →
  GeneticWalker.n_parents self
    ≤ length (take (GeneticWalker.n_possible_parents self) population0) →
  ∃ protos w', GeneticWalker.generate_mutants self seeds generation_counts w
               = Ok (protos, w').
Proof. apply genetic_generate_mutants_returns. Qed.

End returning.

(** ** [mutate_seq] on any alphabet *)

Section mutate_seq_any_alphabet.
Context `{Environment}.

(** X23.  Whatever the alphabet and the number of mutations asked for,
    when [mutate_seq] returns, the result has the length of the input,
    differs from it at [num_mutations] positions (at all of them if the
    input is shorter), and every symbol it changed is one of
    [DNA_BASES]. *)
Theorem mutate_seq_returned seq num_mutations rs seq' rs' :
  mutate_seq seq num_mutations rs = Ok (seq', rs') →
  String.length seq' = String.length seq
  ∧ hamming_distance seq seq' = num_mutations `min` String.length seq
  ∧ ∀ i c c', list_ascii_of_string seq !! i = Some c →
      list_ascii_of_string seq' !! i = Some c' → c' ≠ c → c' ∈ DNA_BASES.
Proof. apply mutate_seq_Ok. Qed.

(** X24.  With no mutation asked for, [mutate_seq] returns its input,
    whatever the alphabet: the positions are shuffled, and none is used. *)
Theorem mutate_seq_no_mutation seq rs :
  ∃ rs', mutate_seq seq 0 rs = Ok (seq, rs').
Proof.
  unfold mutate_seq.
  destruct (shuffle (List.seq 0 (String.length seq)) rs) as [pl rs1].
  exists rs1. rewrite take_0. simpl.
  by rewrite string_of_list_ascii_of_string.
Qed.

End mutate_seq_any_alphabet.

(** ** Closed instances of the further properties *)

Lemma sort_by_score_sorted_witness :
  ∃ l', sort_by_score example_mutants = Ok l'
        ∧ l' ≡ₚ example_mutants ∧ StronglySorted score_ge l'.
Proof.
  eexists. split; [vm_compute; reflexivity|].
  eapply (sort_by_score_sorted example_mutants). vm_compute. reflexivity.
Defined.

Lemma sort_by_score_stable_witness :
  ∃ l', sort_by_score example_mutants = Ok l'
        ∧ filter (has_score 1%Q) l' = filter (has_score 1%Q) example_mutants.
Proof.
  eexists. split; [vm_compute; reflexivity|].
  eapply (sort_by_score_stable example_mutants _ 1%Q). vm_compute. reflexivity.
Defined.

Lemma sort_by_score_idempotent_witness :
  ∃ l', sort_by_score example_mutants = Ok l' ∧ sort_by_score l' = Ok l'.
Proof.
  eexists. split; [vm_compute; reflexivity|].
  eapply (sort_by_score_idempotent example_mutants). vm_compute. reflexivity.
Defined.

Lemma one_generation_mutants_witness :
  ∃ mutants w',
    SamplingWalker.one_generation sampling_20_trials 2
      [mkMutant "AAAA" "AAAA" "AAAA" None] {["AAAA"]} example_world
      = Ok (mutants, w')
    ∧ length mutants ≤ 2
    ∧ length mutants ≤ SamplingWalker.sampling_limit sampling_20_trials
    ∧ length mutants ≤ SamplingWalker.max_trials sampling_20_trials
    ∧ NoDup (sequence <$> mutants)
    ∧ StronglySorted score_ge mutants
    ∧ Forall (λ m, scored m
                   ∧ (sequence m ∉ ({["AAAA"]} : gset string))
                   ∧ ∃ p, p ∈ [mkMutant "AAAA" "AAAA" "AAAA" None]
                          ∧ child_of
                              (SamplingWalker.min_distance sampling_20_trials)
                              (SamplingWalker.max_distance sampling_20_trials)
                              p m) mutants.
Proof.
  eexists _, _. split; [vm_compute; reflexivity|].
  eapply (one_generation_mutants sampling_20_trials 2
            [mkMutant "AAAA" "AAAA" "AAAA" None] {["AAAA"]} example_world).
  vm_compute. reflexivity.
Defined.

Lemma sampling_records_tagged_witness :
  ∃ protos w',
    SamplingWalker.generate_one_seed_mutants sampling_20_trials "AAAA"
      {[0 := 3; 1 := 1]} example_world = Ok (protos, w')
    ∧ ∃ last_generation,
        py_max ({[0 := 3; 1 := 1]} : gmap nat nat) = Ok last_generation
        ∧ Forall (λ r, seed_sequence r = "AAAA"
                       ∧ String.length (aptamer_sequence r)
                         = String.length "AAAA"
                       ∧ is_Some (model_score r)
                       ∧ model_name r
                         = SamplingWalker.model_name sampling_20_trials
                       ∧ mutation_type r = METHOD_SIMPLE_SAMPLING
                       ∧ 1 ≤ mutation_step r ≤ last_generation + 1) protos.
Proof.
  eexists _, _. split; [vm_compute; reflexivity|].
  eapply (sampling_records_tagged sampling_20_trials "AAAA"
            {[0 := 3; 1 := 1]} example_world).
  vm_compute. reflexivity.
Defined.

Lemma sampling_records_distance_witness :
  ∃ protos w',
    SamplingWalker.generate_one_seed_mutants sampling_20_trials "AAAA"
      {[0 := 3; 1 := 1]} example_world = Ok (protos, w')
    ∧ Forall (λ r, mutated_record
                     (SamplingWalker.min_distance sampling_20_trials)
                     (SamplingWalker.max_distance sampling_20_trials) r
                   ∧ (mutation_step r = 1 → previous_sequence r = "AAAA"))
        protos.
Proof.
  eexists _, _. split; [vm_compute; reflexivity|].
  eapply (sampling_records_distance sampling_20_trials "AAAA"
            {[0 := 3; 1 := 1]} example_world).
  vm_compute. reflexivity.
Defined.

Lemma sampling_records_distinct_witness :
  ∃ protos w',
    SamplingWalker.generate_one_seed_mutants sampling_20_trials "AAAA"
      {[0 := 3; 1 := 1]} example_world = Ok (protos, w')
    ∧ NoDup (aptamer_sequence <$> protos).
Proof.
  eexists _, _. split; [vm_compute; reflexivity|].
  eapply (sampling_records_distinct sampling_20_trials "AAAA"
            {[0 := 3; 1 := 1]} example_world).
  vm_compute. reflexivity.
Defined.

Lemma sampling_records_sorted_witness :
  ∃ protos w',
    SamplingWalker.generate_one_seed_mutants sampling_20_trials "AAAA"
      {[0 := 3; 1 := 1]} example_world = Ok (protos, w')
    ∧ StronglySorted record_score_ge
        (filter (λ r, mutation_step r = 1) protos).
Proof.
  eexists _, _. split; [vm_compute; reflexivity|].
  eapply (sampling_records_sorted sampling_20_trials "AAAA"
            {[0 := 3; 1 := 1]} example_world _ _ 1).
  vm_compute. reflexivity.
Defined.

Lemma make_children_from_distinct_parents_witness :
  ∃ children w',
    GeneticWalker.make_children genetic_1_or_2 example_mutants example_world
      = Ok (children, w')
    ∧ length children = GeneticWalker.n_parents genetic_1_or_2
    ∧ ∃ parents,
        parents ⊆+ example_mutants
        ∧ Forall2 (λ p c, scored c
                          ∧ child_of
                              (GeneticWalker.min_distance genetic_1_or_2)
                              (GeneticWalker.max_distance genetic_1_or_2)
                              p c)
            parents children.
Proof.
  eexists _, _. split; [vm_compute; reflexivity|].
  eapply (make_children_from_distinct_parents genetic_1_or_2 example_mutants
            example_world).
  vm_compute. reflexivity.
Defined.

Lemma genetic_generation_keeps_members_witness :
  ∃ st' w',
    GeneticWalker.generation genetic_1_or_2 {[0 := 1]} 0
      (GeneticWalker.mkWalk example_mutants []) example_world = Ok (st', w')
    ∧ ∃ children,
        length children = GeneticWalker.n_parents genetic_1_or_2
        ∧ GeneticWalker.population st' ≡ₚ example_mutants ++ children
        ∧ StronglySorted score_ge (GeneticWalker.population st')
        ∧ GeneticWalker.mutant_protos st'
          = [] ++ (GeneticWalker.choice_of genetic_1_or_2 0
                     <$> take (count_at ({[0 := 1]} : gmap nat nat) 0)
                           (GeneticWalker.population st')).
Proof.
  eexists _, _. split; [vm_compute; reflexivity|].
  eapply (genetic_generation_keeps_members genetic_1_or_2 {[0 := 1]} 0
            (GeneticWalker.mkWalk example_mutants []) example_world).
  vm_compute. reflexivity.
Defined.

Lemma genetic_records_count_witness :
  ∃ protos w',
    GeneticWalker.generate_mutants genetic_1_or_2 ["AAAA"; "CCCC"]
      {[0 := 1; 2 := 5]} example_world = Ok (protos, w')
    ∧ ∃ population0 w0,
        GeneticWalker.initial_population genetic_1_or_2 ["AAAA"; "CCCC"]
          example_world = Ok (population0, w0)
        ∧ ∀ g, emitted_at g protos
               = count_at ({[0 := 1; 2 := 5]} : gmap nat nat) g
                 `min` (length population0
                        + (g + 1) * GeneticWalker.n_parents genetic_1_or_2).
Proof.
  eexists _, _. split; [vm_compute; reflexivity|].
  eapply (genetic_records_count genetic_1_or_2 ["AAAA"; "CCCC"]
            {[0 := 1; 2 := 5]} example_world).
  vm_compute. reflexivity.
Defined.

Lemma genetic_records_lineage_witness :
  ∃ protos w',
    GeneticWalker.generate_mutants genetic_1_or_2 ["AAAA"; "CCCC"]
      {[0 := 1; 2 := 5]} example_world = Ok (protos, w')
    ∧ Forall (λ r, population_record ["AAAA"; "CCCC"]
                     (GeneticWalker.min_distance genetic_1_or_2)
                     (GeneticWalker.max_distance genetic_1_or_2) r
                   ∧ model_name r = GeneticWalker.model_name genetic_1_or_2
                   ∧ mutation_type r = METHOD_GENETIC_ALGORITHM
                   ∧ is_Some (({[0 := 1; 2 := 5]} : gmap nat nat)
                                !! mutation_step r)) protos.
Proof.
  eexists _, _. split; [vm_compute; reflexivity|].
  eapply (genetic_records_lineage genetic_1_or_2 ["AAAA"; "CCCC"]
            {[0 := 1; 2 := 5]} example_world).
  vm_compute. reflexivity.
Defined.

Lemma genetic_records_sorted_witness :
  ∃ protos w',
    GeneticWalker.generate_mutants genetic_1_or_2 ["AAAA"; "CCCC"]
      {[0 := 1; 2 := 5]} example_world = Ok (protos, w')
    ∧ StronglySorted record_score_ge
        (filter (λ r, mutation_step r = 2) protos).
Proof.
  eexists _, _. split; [vm_compute; reflexivity|].
  eapply (genetic_records_sorted genetic_1_or_2 ["AAAA"; "CCCC"]
            {[0 := 1; 2 := 5]} example_world _ _ 2).
  vm_compute. reflexivity.
Defined.

Lemma genetic_population_keeps_seeds_witness :
  ∃ population0 w0 st w',
    GeneticWalker.initial_population genetic_1_or_2 ["AAAA"; "CCCC"]
      example_world = Ok (population0, w0)
    ∧ GeneticWalker.generations genetic_1_or_2 {[0 := 1]} (List.seq 0 3)
        (GeneticWalker.mkWalk population0 []) w0 = Ok (st, w')
    ∧ population0 ⊆+ GeneticWalker.population st
    ∧ Forall (population_member ["AAAA"; "CCCC"]
                (GeneticWalker.min_distance genetic_1_or_2)
                (GeneticWalker.max_distance genetic_1_or_2))
        (GeneticWalker.population st)
    ∧ StronglySorted score_ge (GeneticWalker.population st).
Proof.
  eexists _, _, _, _. split; [vm_compute; reflexivity|].
  split; [vm_compute; reflexivity|].
  eapply (genetic_population_keeps_seeds genetic_1_or_2 ["AAAA"; "CCCC"]
            {[0 := 1]} example_world _ _ 3).
  - vm_compute. reflexivity.
  - vm_compute. reflexivity.
Defined.

Lemma sampling_run_ignores_module_random_witness :
  SamplingWalker.run sampling_20_trials ["AAAA"] {[0 := 3; 1 := 1]}
    (py_random_from 1)
  = SamplingWalker.run sampling_20_trials ["AAAA"] {[0 := 3; 1 := 1]}
      (py_random_from 2).
Proof.
  apply (sampling_run_ignores_module_random sampling_20_trials ["AAAA"]
           {[0 := 3; 1 := 1]} (py_random_from 1) (py_random_from 2)).
  reflexivity.
Defined.

Lemma genetic_run_ignores_module_random_witness :
  GeneticWalker.run genetic_distance_1 ["AAAA"; "CCCC"] {[0 := 1; 2 := 5]}
    (py_random_from 1)
  = GeneticWalker.run genetic_distance_1 ["AAAA"; "CCCC"] {[0 := 1; 2 := 5]}
      (py_random_from 2).
Proof.
  apply (genetic_run_ignores_module_random genetic_distance_1
           ["AAAA"; "CCCC"] {[0 := 1; 2 := 5]}
           (py_random_from 1) (py_random_from 2)).
  reflexivity.
Defined.

Lemma sampling_no_trial_returns_nothing_witness :
  SamplingWalker.generate_mutants sampling_no_trial ["AAAA"; "CCCC"]
    {[0 := 3; 1 := 1]} example_world = Ok ([], example_world).
Proof.
  apply (sampling_no_trial_returns_nothing sampling_no_trial
           ["AAAA"; "CCCC"] {[0 := 3; 1 := 1]} example_world).
  - left. reflexivity.
  - intros Hempty. apply (f_equal (λ m : gmap nat nat, m !! 0)) in Hempty.
    vm_compute in Hempty. discriminate.
Defined.

Lemma sampling_empty_distance_range_witness :
  SamplingWalker.generate_mutants sampling_empty_range ["AAAA"; "CCCC"]
    {[0 := 3; 1 := 1]} example_world
  = Raise (ValueError "randint: empty range").
Proof.
  apply (sampling_empty_distance_range sampling_empty_range "AAAA" ["CCCC"]
           {[0 := 3; 1 := 1]} example_world).
  - simpl. lia.
  - simpl. lia.
  - simpl. lia.
  - intros Hempty. apply (f_equal (λ m : gmap nat nat, m !! 0)) in Hempty.
    vm_compute in Hempty. discriminate.
Defined.

Lemma one_generation_total_witness :
  ∃ mutants w',
    SamplingWalker.one_generation sampling_20_trials 2
      [mkMutant "AAAA" "AAAA" "AAAA" None] {["AAAA"]} example_world
    = Ok (mutants, w').
Proof.
  apply (one_generation_total sampling_20_trials 2
           [mkMutant "AAAA" "AAAA" "AAAA" None] {["AAAA"]} example_world).
  - exact example_two_bases.
  - discriminate.
  - simpl. lia.
  - exact count_G_enough_scores.
Defined.

Lemma count_G_in_4_enough_scores : enough_scores (Some count_G_in_4).
Proof.
  intros f [= <-] seqs target_mol. unfold count_G_in_4.
  by rewrite length_fmap.
Qed.

Lemma count_G_in_4_bounded_scores : bounded_scores (Some count_G_in_4).
Proof.
  intros f [= <-] seqs target_mol. unfold count_G_in_4.
  apply Forall_fmap, Forall_forall. intros s _. unfold compose.
  set (n := length _).
  assert (n ≤ 4) as Hn.
  { subst n. etrans; [apply length_filter|]. rewrite length_take. lia. }
  clearbody n. apply (proj2 (Qabs_Qle_condition _ _)).
  assert (4 <= score_bound)%Q as Hb by (by vm_compute).
  assert (0 <= inject_Z (Z.of_nat n))%Q as H0.
  { change 0%Q with (inject_Z 0). rewrite <- Zle_Qle. lia. }
  assert (inject_Z (Z.of_nat n) <= 4)%Q as H4.
  { change 4%Q with (inject_Z 4). rewrite <- Zle_Qle. lia. }
  generalize dependent score_bound. intros. split; lra.
Qed.

Lemma genetic_run_total_witness :
  ∃ protos w',
    GeneticWalker.generate_mutants genetic_count_G_in_4 ["AAAA"; "CCCC"]
      {[0 := 1; 2 := 5]} example_world = Ok (protos, w').
Proof.
  eapply (genetic_run_total genetic_count_G_in_4 ["AAAA"; "CCCC"]
            {[0 := 1; 2 := 5]} example_world).
  - exact example_two_bases.
  - simpl. lia.
  - exact count_G_in_4_enough_scores.
  - exact count_G_in_4_bounded_scores.
  - vm_compute. reflexivity.
  - intros Hempty. apply (f_equal (λ m : gmap nat nat, m !! 0)) in Hempty.
    vm_compute in Hempty. discriminate.
  - vm_compute. reflexivity.
  - vm_compute. lia.
  - vm_compute. lia.
Defined.

Lemma mutate_seq_returned_witness :
  ∃ seq' rs',
    mutate_seq "ACGT" 6 (mkRandomState (example_variates (Some 5%N)) 0)
      = Ok (seq', rs')
    ∧ String.length seq' = String.length "ACGT"
    ∧ hamming_distance "ACGT" seq' = 6 `min` String.length "ACGT"
    ∧ ∀ i c c', list_ascii_of_string "ACGT" !! i = Some c →
        list_ascii_of_string seq' !! i = Some c' → c' ≠ c → c' ∈ DNA_BASES.
Proof.
  eexists _, _. split; [vm_compute; reflexivity|].
  eapply (mutate_seq_returned "ACGT" 6
            (mkRandomState (example_variates (Some 5%N)) 0)).
  vm_compute. reflexivity.
Defined.
